(** * Two-Flags pawn chess: rules model and alpha-beta agent

    A shallow embedding of [twoflags/game.py], [twoflags/notation.py] and
    [twoflags/agents/ab_agent.py], together with the properties of the
    specification that are stated about them.

    Conventions of the embedding:
    - Python [int] is [Z]; [&], [>>] and [^] are [Z.land], [Z.shiftr], [Z.lxor].
    - [Set[int]] is [gset Z]; [Dict[int, TTEntry]] is [gmap Z TTEntry].
    - A raised exception is the [Raise] constructor of [res].
    - A [str] is a [string] of 8-bit characters.
    - Module-level mutable state of the agent (the table and its counters)
      and the readings of [time.perf_counter] are threaded explicitly;
      seconds are rationals, and the sequence of clock readings is a
      parameter of the search. *)

From Stdlib Require Import ZArith String Ascii List Bool Lia DecimalString.
From Stdlib Require Import QArith Qminmax.
From stdpp Require Import base decidable option list gmap sets sorting.

Local Open Scope Z_scope.

(* ===================================================================== *)
(** ** Python run-time notions shared by the modules                      *)
(* ===================================================================== *)

Module Py.

(** The exceptions the modelled code can raise. *)
Inductive exn : Type :=
| KeyError        (* set.remove of an absent element *)
| IndexError      (* list index out of range *)
| ValueError      (* raised by the parsers *)
| RuntimeError.   (* "No legal moves." *)

Inductive res (A : Type) : Type :=
| Ok (a : A)
| Raise (e : exn).
Arguments Ok {A} a.
Arguments Raise {A} e.

Definition rbind {A B} (r : res A) (k : A -> res B) : res B :=
  match r with
  | Ok a => k a
  | Raise e => Raise e
  end.

(** [l[i]] on a Python list: negative indices count from the end. *)
Definition list_get {A} (l : list A) (i : Z) : res A :=
  let n := Z.of_nat (length l) in
  let j := if i <? 0 then i + n else i in
  if (0 <=? j) && (j <? n) then
    match nth_error l (Z.to_nat j) with
    | Some x => Ok x
    | None => Raise IndexError
    end
  else Raise IndexError.

(** [sorted(s)] for a set of integers. *)
Definition sorted (s : gset Z) : list Z := merge_sort Z.le (elements s).

(** [x in s] as a boolean. *)
Definition mem (x : Z) (s : gset Z) : bool := bool_decide (x ∈ s).

(** [sum(f(x) for x in s)]. *)
Definition sum_over (f : Z -> Z) (s : gset Z) : Z :=
  fold_right (fun x acc => f x + acc) 0 (elements s).

(** [not s] for a set: true on the empty set. *)
Definition is_empty (s : gset Z) : bool := bool_decide (s = ∅).

(** *** Strings

    A [str] is modelled as a [string] of 8-bit characters, read as the code
    points below 256. *)

Definition code (c : ascii) : Z := Z.of_N (N_of_ascii c).

(** [c.isspace()] *)
Definition isspace (c : ascii) : bool :=
  let n := code c in
  ((9 <=? n) && (n <=? 13)) || ((28 <=? n) && (n <=? 32))
  || (n =? 133) || (n =? 160).

(** [c.isalpha()] *)
Definition isalpha (c : ascii) : bool :=
  let n := code c in
  ((65 <=? n) && (n <=? 90)) || ((97 <=? n) && (n <=? 122))
  || (n =? 170) || (n =? 181) || (n =? 186)
  || ((192 <=? n) && (n <=? 214)) || ((216 <=? n) && (n <=? 246))
  || ((248 <=? n) && (n <=? 255)).

Definition chr (n : Z) : ascii := ascii_of_N (Z.to_N n).

Definition lower_char (c : ascii) : ascii :=
  let n := code c in
  if ((65 <=? n) && (n <=? 90)) || ((192 <=? n) && (n <=? 214))
     || ((216 <=? n) && (n <=? 222))
  then chr (n + 32) else c.

(** Upper case of a character; the three characters whose upper case is
    not a single character below 256 (code points 181, 223 and 255) are
    left as they are: like their upper case, they differ from every ASCII
    letter. *)
Definition upper_char (c : ascii) : ascii :=
  let n := code c in
  if ((97 <=? n) && (n <=? 122)) || ((224 <=? n) && (n <=? 246))
     || ((248 <=? n) && (n <=? 254))
  then chr (n - 32) else c.

Fixpoint str_map (f : ascii -> ascii) (s : string) : string :=
  match s with
  | EmptyString => EmptyString
  | String c s' => String (f c) (str_map f s')
  end.

Definition lower : string -> string := str_map lower_char.
Definition upper : string -> string := str_map upper_char.

Fixpoint lstrip (s : string) : string :=
  match s with
  | EmptyString => EmptyString
  | String c s' => if isspace c then lstrip s' else s
  end.

Fixpoint rstrip (s : string) : string :=
  match s with
  | EmptyString => EmptyString
  | String c s' =>
    match rstrip s' with
    | EmptyString => if isspace c then EmptyString else String c EmptyString
    | r => String c r
    end
  end.

(** [s.strip()] *)
Definition strip (s : string) : string := rstrip (lstrip s).

(** [len(s)] *)
Definition len (s : string) : Z := Z.of_nat (String.length s).

(** [s[a:b]] for [0 <= a <= b] *)
Definition slice (a b : nat) (s : string) : string := substring a (b - a) s.

(** [s[a:]] for [0 <= a] *)
Definition slice_from (a : nat) (s : string) : string :=
  substring a (String.length s) s.

(** [s.find(c)] for a one-character [c]: the first index, or [-1]. *)
Fixpoint find (s : string) (c : ascii) : Z :=
  match s with
  | EmptyString => -1
  | String c' s' =>
    if Ascii.eqb c c' then 0
    else let i := find s' c in if i <? 0 then -1 else i + 1
  end.

End Py.

Import Py.

#[global] Instance res_ret : MRet res := @Ok.
#[global] Instance res_bind : MBind res := fun A B k r => rbind r k.

(* ===================================================================== *)
(** ** The two standard-library services the agent calls                  *)
(* ===================================================================== *)

(** [hashlib.blake2b(data, digest_size=8).digest()], unkeyed, as in RFC 7693. *)
Module Hashlib.

Definition mask64 : Z := 2 ^ 64.
Definition add64 (a b : Z) : Z := (a + b) mod mask64.
Definition rotr64 (x n : Z) : Z :=
  Z.lor (Z.shiftr x n) (Z.shiftl x (64 - n) mod mask64).

Definition IV : list Z :=
  [ 0x6a09e667f3bcc908; 0xbb67ae8584caa73b; 0x3c6ef372fe94f82b;
    0xa54ff53a5f1d36f1; 0x510e527fade682d1; 0x9b05688c2b3e6c1f;
    0x1f83d9abfb41bd6b; 0x5be0cd19137e2179 ].

Definition SIGMA : list (list nat) :=
  [ [ 0; 1; 2; 3; 4; 5; 6; 7; 8; 9;10;11;12;13;14;15];
    [14;10; 4; 8; 9;15;13; 6; 1;12; 0; 2;11; 7; 5; 3];
    [11; 8;12; 0; 5; 2;15;13;10;14; 3; 6; 7; 1; 9; 4];
    [ 7; 9; 3; 1;13;12;11;14; 2; 6; 5;10; 4; 0;15; 8];
    [ 9; 0; 5; 7; 2; 4;10;15;14; 1;11;12; 6; 8; 3;13];
    [ 2;12; 6;10; 0;11; 8; 3; 4;13; 7; 5;15;14; 1; 9];
    [12; 5; 1;15;14;13; 4;10; 0; 7; 6; 3; 9; 2; 8;11];
    [13;11; 7;14;12; 1; 3; 9; 5; 0;15; 4; 8; 6; 2;10];
    [ 6;15;14; 9;11; 3; 0; 8;12; 2;13; 7; 1; 4;10; 5];
    [10; 2; 8; 4; 7; 6; 1; 5;15;11; 9;14; 3;12;13; 0];
    [ 0; 1; 2; 3; 4; 5; 6; 7; 8; 9;10;11;12;13;14;15];
    [14;10; 4; 8; 9;15;13; 6; 1;12; 0; 2;11; 7; 5; 3] ]%nat.

Definition word (v : list Z) (i : nat) : Z := nth i v 0.

Definition G (v : list Z) (a b c d : nat) (x y : Z) : list Z :=
  let va := add64 (add64 (word v a) (word v b)) x in
  let vd := rotr64 (Z.lxor (word v d) va) 32 in
  let vc := add64 (word v c) vd in
  let vb := rotr64 (Z.lxor (word v b) vc) 24 in
  let va := add64 (add64 va vb) y in
  let vd := rotr64 (Z.lxor vd va) 16 in
  let vc := add64 vc vd in
  let vb := rotr64 (Z.lxor vb vc) 63 in
  <[d:=vd]> (<[c:=vc]> (<[b:=vb]> (<[a:=va]> v))).

Definition round (m : list Z) (v : list Z) (s : list nat) : list Z :=
  let ms i := word m (nth i s 0%nat) in
  let v := G v 0 4 8 12 (ms 0%nat) (ms 1%nat) in
  let v := G v 1 5 9 13 (ms 2%nat) (ms 3%nat) in
  let v := G v 2 6 10 14 (ms 4%nat) (ms 5%nat) in
  let v := G v 3 7 11 15 (ms 6%nat) (ms 7%nat) in
  let v := G v 0 5 10 15 (ms 8%nat) (ms 9%nat) in
  let v := G v 1 6 11 12 (ms 10%nat) (ms 11%nat) in
  let v := G v 2 7 8 13 (ms 12%nat) (ms 13%nat) in
  G v 3 4 9 14 (ms 14%nat) (ms 15%nat).

(** Little-endian value of a byte string. *)
Definition from_bytes_little (bs : list Z) : Z :=
  fold_right (fun b acc => b + 256 * acc) 0 bs.

Fixpoint to_bytes_little (n : nat) (x : Z) : list Z :=
  match n with
  | O => []
  | S n' => x mod 256 :: to_bytes_little n' (x / 256)
  end.

(** The sixteen message words of a block (zero padded). *)
Definition block_words (block : list Z) : list Z :=
  map (fun i => from_bytes_little (firstn 8 (skipn (8 * i) block))) (seq 0 16).

(** Compression of one block; [t] counts the bytes hashed so far. *)
Definition compress (h : list Z) (block : list Z) (t : Z) (final : bool) : list Z :=
  let m := block_words block in
  let v := h ++ IV in
  let v := <[12%nat := Z.lxor (word v 12) (t mod mask64)]> v in
  let v := <[13%nat := Z.lxor (word v 13) (t / mask64)]> v in
  let v := if final then <[14%nat := Z.lxor (word v 14) (mask64 - 1)]> v else v in
  let v := fold_left (round m) SIGMA v in
  map (fun i => Z.lxor (Z.lxor (word h i) (word v i)) (word v (i + 8))) (seq 0 8).

Fixpoint absorb (fuel : nat) (h : list Z) (data : list Z) (t : Z) : list Z :=
  match fuel with
  | O => h
  | S fuel' =>
    if (Z.of_nat (length data) <=? 128)
    then compress h data (t + Z.of_nat (length data)) true
    else absorb fuel' (compress h (firstn 128 data) (t + 128) false)
                (skipn 128 data) (t + 128)
  end.

(** [blake2b(data, digest_size).digest()] with no key, salt or person. *)
Definition blake2b (data : list Z) (digest_size : Z) : list Z :=
  let h0 := <[0%nat := Z.lxor (word IV 0) (Z.lxor 0x01010000 digest_size)]> IV in
  let h := absorb (S (length data)) h0 data 0 in
  firstn (Z.to_nat digest_size) (flat_map (to_bytes_little 8) h).

End Hashlib.

(** [random.Random(seed).getrandbits(64)]: MT19937 seeded by [init_by_array]. *)
Module Random.

Definition N : nat := 624.
Definition M : nat := 397.
Definition u32 (x : Z) : Z := x mod 2 ^ 32.
Definition at_ (mt : list Z) (i : nat) : Z := nth i mt 0.

Fixpoint init_genrand_from (n : nat) (i : Z) (prev : Z) : list Z :=
  match n with
  | O => []
  | S n' =>
    let x := u32 (1812433253 * Z.lxor prev (Z.shiftr prev 30) + i) in
    x :: init_genrand_from n' (i + 1) x
  end.

Definition init_genrand (s : Z) : list Z :=
  u32 s :: init_genrand_from (N - 1) 1 (u32 s).

(** The two loops of [init_by_array]; [i] and [j] as in the C source. *)
Fixpoint mix_key (k : nat) (key : list Z) (mt : list Z) (i j : nat) : list Z * nat :=
  match k with
  | O => (mt, i)
  | S k' =>
    let p := at_ mt (i - 1) in
    let x := u32 (Z.lxor (at_ mt i) (Z.lxor p (Z.shiftr p 30) * 1664525)
                  + at_ key j + Z.of_nat j) in
    let mt := <[i := x]> mt in
    let i := S i in
    let j := S j in
    let '(mt, i) := if (N <=? i)%nat then (<[0%nat := at_ mt (N - 1)]> mt, 1%nat) else (mt, i) in
    let j := if (length key <=? j)%nat then 0%nat else j in
    mix_key k' key mt i j
  end.

Fixpoint mix_index (k : nat) (mt : list Z) (i : nat) : list Z :=
  match k with
  | O => mt
  | S k' =>
    let p := at_ mt (i - 1) in
    let x := u32 (Z.lxor (at_ mt i) (Z.lxor p (Z.shiftr p 30) * 1566083941)
                  - Z.of_nat i) in
    let mt := <[i := x]> mt in
    let i := S i in
    let '(mt, i) := if (N <=? i)%nat then (<[0%nat := at_ mt (N - 1)]> mt, 1%nat) else (mt, i) in
    mix_index k' mt i
  end.

Definition init_by_array (key : list Z) : list Z :=
  let mt := init_genrand 19650218 in
  let '(mt, i) := mix_key (Nat.max N (length key)) key mt 1 0 in
  let mt := mix_index (N - 1) mt i in
  <[0%nat := 0x80000000]> mt.

(** One regeneration of the whole state array, in place. *)
Definition twist_at (mt : list Z) (kk : nat) : list Z :=
  let y := Z.lor (Z.land (at_ mt kk) 0x80000000)
                 (Z.land (at_ mt ((kk + 1) mod N)) 0x7fffffff) in
  let mag := if Z.odd y then 0x9908b0df else 0 in
  <[kk := Z.lxor (Z.lxor (at_ mt ((kk + M) mod N)) (Z.shiftr y 1)) mag]> mt.

Definition twist (mt : list Z) : list Z := fold_left twist_at (seq 0 N) mt.

Definition temper (y : Z) : Z :=
  let y := Z.lxor y (Z.shiftr y 11) in
  let y := Z.lxor y (Z.land (Z.shiftl y 7) 0x9d2c5680) in
  let y := Z.lxor y (Z.land (Z.shiftl y 15) 0xefc60000) in
  Z.lxor y (Z.shiftr y 18).

(** Generator state: the array and the index of the next word. *)
Record state : Type := mkState { mt : list Z; mti : nat }.

(** [Random(seed)] for a non-negative seed below 2^32. *)
Definition Random (seed : Z) : state := mkState (init_by_array [seed]) N.

Definition genrand_uint32 (st : state) : Z * state :=
  let st := if (N <=? mti st)%nat then mkState (twist (mt st)) 0 else st in
  (temper (at_ (mt st) (mti st)), mkState (mt st) (S (mti st))).

(** [getrandbits(64)]: two words, the first drawn is the low half. *)
Definition getrandbits64 (st : state) : Z * state :=
  let '(lo, st) := genrand_uint32 st in
  let '(hi, st) := genrand_uint32 st in
  (Z.lor lo (Z.shiftl hi 32), st).

(** [[g() for _ in range(n)]] *)
Fixpoint draw (n : nat) (st : state) : list Z * state :=
  match n with
  | O => ([], st)
  | S n' =>
    let '(x, st) := getrandbits64 st in
    let '(xs, st) := draw n' st in
    (x :: xs, st)
  end.

End Random.

(* ===================================================================== *)
(** ** [twoflags/game.py]                                                 *)
(* ===================================================================== *)

Module Game.

Inductive Color : Type := W | B.

#[global] Instance Color_eq_dec : EqDecision Color.
Proof. solve_decision. Defined.

Definition other (c : Color) : Color :=
  match c with W => B | B => W end.

(** *** Square helpers *)

Definition file_of (sq : Z) : Z := Z.land sq 7.

Definition rank_of (sq : Z) : Z := Z.shiftr sq 3 + 1.

Definition sq_index (file_idx rank : Z) : Z := (rank - 1) * 8 + file_idx.

Definition FILES : string := "abcdefgh".

(** ['a1'..'h8' -> 0..63] *)
Definition fr_to_square (fr : string) : res Z :=
  let fr := strip fr in
  match fr with
  | String c0 (String c1 EmptyString) =>
    let f := find FILES c0 in
    if f <? 0 then Raise ValueError else
    if (code c1 <? code "1") || (code c1 >? code "8") then Raise ValueError else
    let r := code c1 - code "0" in
    Ok (sq_index f r)
  | _ => Raise ValueError   (* len(fr) != 2 *)
  end.

(** *** Move and Position *)

Record Move : Type := mkMove {
  src : Z;
  dst : Z;
  is_ep : bool;
  is_double : bool
}.

#[global] Instance Move_eq_dec : EqDecision Move.
Proof. solve_decision. Defined.

(** [Move(src, dst)] with both flags at their default. *)
Definition Move2 (s d : Z) : Move := mkMove s d false false.

(** The four dataclass fields, and the [last_move] attribute that
    [apply_move_fixed] attaches with [setattr] ([None] when absent). *)
Record Position : Type := mkPosition {
  white : gset Z;
  black : gset Z;
  turn : Color;
  ep_target : option Z;
  last_move : option Move
}.

Definition initial : Position :=
  mkPosition (list_to_set (map (fun f => sq_index f 2) [0;1;2;3;4;5;6;7]))
             (list_to_set (map (fun f => sq_index f 7) [0;1;2;3;4;5;6;7]))
             W None None.

(** The loop of [from_setup_tokens] over the tokens, from the sets built
    so far. *)
Fixpoint setup_loop (tokens : list string) (w b : gset Z)
    : res (gset Z * gset Z) :=
  match tokens with
  | [] => Ok (w, b)
  | t :: rest =>
    let t := strip t in
    if len t <? 3 then setup_loop rest w b else
    match t with
    | String side _ =>
      sq ← fr_to_square (slice_from 1 t);
      if Ascii.eqb side "W" then setup_loop rest (w ∪ {[ sq ]}) b
      else if Ascii.eqb side "B" then setup_loop rest w (b ∪ {[ sq ]})
      else Raise ValueError
    | EmptyString => Raise IndexError
    end
  end.

Definition from_setup_tokens (tokens : list string) (turn' : Color)
    : res Position :=
  '(w, b) ← setup_loop tokens ∅ ∅;
  Ok (mkPosition w b turn' None None).

(** [clone] builds a fresh dataclass instance: attached attributes are not
    carried over. *)
Definition clone (p : Position) : Position :=
  mkPosition (white p) (black p) (turn p) (ep_target p) None.

Definition occupied (p : Position) : gset Z := white p ∪ black p.

Definition in_range (x : Z) : bool := (0 <=? x) && (x <? 64).

(** *** Move generation *)

Section Generate.
Variable pos : Position.

Let occ := occupied pos.
Let pawns := match turn pos with W => white pos | B => black pos end.
Let opp := match turn pos with W => black pos | B => white pos end.
Let fwd := match turn pos with W => 8 | B => -8 end.
Let start_rank := match turn pos with W => 2 | B => 7 end.
Let cap_deltas := match turn pos with W => [7; 9] | B => [-9; -7] end.
Let ep_deltas := match turn pos with W => [7; 9] | B => [-9; -7] end.

(** The moves yielded by one iteration of the loop over [sorted(pawns)]. *)
Definition pawn_moves (s : Z) : list Move :=
  let r := rank_of s in
  let f := file_of s in
  let dst1 := s + fwd in
  (if in_range dst1 && negb (mem dst1 occ) then
     Move2 s dst1 ::
     (if r =? start_rank then
        let dst2 := s + 2 * fwd in
        let mid := s + fwd in
        if in_range dst2 && negb (mem mid occ) && negb (mem dst2 occ)
        then [mkMove s dst2 false true] else []
      else [])
   else [])
  ++ flat_map (fun d =>
       let d' := s + d in
       if in_range d' && (Z.abs (file_of d' - f) =? 1) then
         if mem d' opp then [Move2 s d'] else []
       else []) cap_deltas
  ++ match ep_target pos with
     | None => []
     | Some ep =>
       flat_map (fun d =>
         let d' := s + d in
         if (d' =? ep) && in_range d' && (Z.abs (file_of d' - f) =? 1) then
           let cap_sq := d' - fwd in
           if mem cap_sq opp && negb (mem d' occ)
           then [mkMove s d' true false] else []
         else []) ep_deltas
     end.

Definition generate_moves : list Move :=
  flat_map pawn_moves (sorted pawns).
End Generate.

(** *** Terminal detection *)

Definition winner (pos : Position) : option Color :=
  if existsb (fun sq => Z.shiftr sq 3 =? 7) (elements (white pos)) then Some W
  else if existsb (fun sq => Z.shiftr sq 3 =? 0) (elements (black pos)) then Some B
  else if is_empty (black pos) then Some W
  else if is_empty (white pos) then Some B
  else match generate_moves pos with
       | [] => Some (match turn pos with W => B | B => W end)
       | _ :: _ => None
       end.

(** *** Move application (the active, compatibility-mode definition) *)

Definition apply_move (pos : Position) (mv : Move) : res Position :=
  let newp := clone pos in
  let mover := match turn newp with W => white newp | B => black newp end in
  let opp := match turn newp with W => black newp | B => white newp end in
  let fwd := match turn newp with W => 8 | B => -8 end in
  (* newp.ep_target = None *)
  (* mover.remove(mv.src) *)
  if negb (mem (src mv) mover) then Raise KeyError else
  let mover := mover ∖ {[ src mv ]} in
  (* normal capture *)
  let opp := if mem (dst mv) opp then opp ∖ {[ dst mv ]} else opp in
  (* no removal of the passed pawn when mv.is_ep *)
  let mover := mover ∪ {[ dst mv ]} in
  let ep := if is_double mv then Some (src mv + fwd) else None in
  Ok (match turn newp with
      | W => mkPosition mover opp B ep None
      | B => mkPosition opp mover W ep None
      end).

End Game.

Import Game.

(* ===================================================================== *)
(** ** [twoflags/notation.py]                                             *)
(* ===================================================================== *)

Module Notation.

Definition is_file_ci (c : ascii) : bool :=
  let n := code (lower_char c) in (code "a" <=? n) && (n <=? code "h").
Definition is_rank (c : ascii) : bool :=
  (code "1" <=? code c) && (code c <=? code "8").

(** [_SQ_RE.match(t)] for [^[a-h][1-8]$|^[1-8][a-h]$] with [re.IGNORECASE];
    [$] also matches just before a final newline. *)
Definition _SQ_RE_match (t : string) : bool :=
  let two c0 c1 := (is_file_ci c0 && is_rank c1) || (is_rank c0 && is_file_ci c1) in
  match t with
  | String c0 (String c1 EmptyString) => two c0 c1
  | String c0 (String c1 (String nl EmptyString)) =>
    Ascii.eqb nl "010" && two c0 c1
  | _ => false
  end.

(** [FILES.index(c)]: raises when [c] is absent. *)
Definition FILES_index (c : ascii) : res Z :=
  let i := find FILES c in
  if i <? 0 then Raise ValueError else Ok i.

(** [int(c)] for a decimal digit. *)
Definition int_of_digit (c : ascii) : res Z :=
  if (code "0" <=? code c) && (code c <=? code "9")
  then Ok (code c - code "0") else Raise ValueError.

Definition parse_square (token : string) : res Z :=
  let t := lower (strip token) in
  if negb (_SQ_RE_match t) then Raise ValueError else
  match t with
  | String t0 (String t1 _) =>
    let '(file_ch, rank_ch) := if isalpha t0 then (t0, t1) else (t1, t0) in
    f ← FILES_index file_ch;
    r ← int_of_digit rank_ch;
    Ok (sq_index f r)
  | _ => Raise IndexError
  end.

(** The loop of [parse_setup] over [tokens[1:]]. *)
Fixpoint parse_setup_loop (toks : list string) (w b : gset Z)
    : res (gset Z * gset Z) :=
  match toks with
  | [] => Ok (w, b)
  | tok :: rest =>
    let t := strip tok in
    if negb (len t =? 3) then Raise ValueError else
    let col := upper (slice 0 1 t) in
    sq ← parse_square (slice 1 3 t);
    if String.eqb col "W" then parse_setup_loop rest (w ∪ {[ sq ]}) b
    else if String.eqb col "B" then parse_setup_loop rest w (b ∪ {[ sq ]})
    else Raise ValueError
  end.

Definition parse_setup (tokens : list string) : res Position :=
  match tokens with
  | [] => Raise ValueError
  | t0 :: rest =>
    if negb (String.eqb (lower t0) "setup") then Raise ValueError else
    '(w, b) ← parse_setup_loop rest ∅ ∅;
    Ok (mkPosition w b W None None)
  end.

End Notation.

(* ===================================================================== *)
(** ** [twoflags/agents/ab_agent.py]                                      *)
(* ===================================================================== *)

Module Agent.

Definition EXACT : Z := 0.
Definition LOWER : Z := 1.
Definition UPPER : Z := 2.

Record TTEntry : Type := mkTTEntry {
  depth : Z;
  value : Z;
  flag : Z;
  best_move : option Move
}.

Definition TT_MAX_SIZE : Z := 200000.

(** The module globals, and the number of [time.perf_counter] readings
    taken so far. *)
Record World : Type := mkWorld {
  TT : gmap Z TTEntry;
  NODES : Z;
  TT_HITS : Z;
  TT_STORES : Z;
  reads : nat
}.

Definition set_TT (t : gmap Z TTEntry) (w : World) : World :=
  mkWorld t (NODES w) (TT_HITS w) (TT_STORES w) (reads w).
Definition set_NODES (n : Z) (w : World) : World :=
  mkWorld (TT w) n (TT_HITS w) (TT_STORES w) (reads w).
Definition set_TT_HITS (n : Z) (w : World) : World :=
  mkWorld (TT w) (NODES w) n (TT_STORES w) (reads w).
Definition set_TT_STORES (n : Z) (w : World) : World :=
  mkWorld (TT w) (NODES w) (TT_HITS w) n (reads w).

Definition reset_tt (w : World) : World := mkWorld ∅ 0 0 0 (reads w).

(** *** Zobrist constants *)

Definition _rng : Random.state := Random.Random 1337.

Definition zobrist_tables : list (list Z) * Z :=
  let '(row0, g) := Random.draw 64 _rng in
  let '(row1, g) := Random.draw 64 g in
  let '(zt, g) := Random.getrandbits64 g in
  ([row0; row1], zt).

Definition Z_PIECE : list (list Z) := Eval vm_compute in fst zobrist_tables.
Definition Z_TURN : Z := Eval vm_compute in snd zobrist_tables.

(** *** [repr] of the tuples that are hashed, and their hash *)

Inductive atom : Type :=
| AStr (s : string)   (* a short string without quotes or escapes *)
| AInt (z : Z).

Definition repr_atom (a : atom) : string :=
  match a with
  | AStr s => "'" ++ s ++ "'"
  | AInt z => NilZero.string_of_int (Z.to_int z)
  end.

(** [repr] of a tuple of two or more atoms. *)
Definition repr_tuple (l : list atom) : string :=
  "(" ++ String.concat ", " (map repr_atom l) ++ ")".

(** [s.encode("utf-8")] for a string of ASCII characters. *)
Definition encode (s : string) : list Z :=
  map (fun c => Z.of_N (N_of_ascii c)) (list_ascii_of_string s).

Definition _stable_u64_from_obj (x : list atom) : Z :=
  Hashlib.from_bytes_little (Hashlib.blake2b (encode (repr_tuple x)) 8).

(** The first attribute, in probing order, that exists and is not [None].
    A [Position] has the field [ep_target]; [last_move] exists once
    [apply_move_fixed] has attached it; no code attaches the other names. *)
Inductive extra_state : Type :=
| ExtraInt (v : Z)
| ExtraMove (m : Move).

Definition _extract_ep_like_state (pos : Position) : option extra_state :=
  match ep_target pos with
  | Some v => Some (ExtraInt v)
  | None =>
    match last_move pos with
    | Some m => Some (ExtraMove m)
    | None => None
    end
  end.

(** [for sq in sqs: k ^= row[sq]] *)
Fixpoint xor_squares (row : list Z) (sqs : list Z) (k : Z) : res Z :=
  match sqs with
  | [] => Ok k
  | sq :: rest => z ← list_get row sq; xor_squares row rest (Z.lxor k z)
  end.

Definition zobrist_key (pos : Position) : res Z :=
  k ← xor_squares (nth 0 Z_PIECE []) (elements (white pos)) 0;
  k ← xor_squares (nth 1 Z_PIECE []) (elements (black pos)) k;
  let k := match turn pos with W => Z.lxor k Z_TURN | B => k end in
  Ok match _extract_ep_like_state pos with
     | None => k
     | Some (ExtraMove m) =>
       Z.lxor k (_stable_u64_from_obj
                   [AStr "lm"; AInt (src m); AInt (dst m);
                    AInt (if is_ep m then 1 else 0)])
     | Some (ExtraInt v) =>
       if (0 <=? v) && (v <? 64)
       then Z.lxor k (_stable_u64_from_obj [AStr "ep"; AInt v])
       else Z.lxor k (_stable_u64_from_obj [AStr "extra"; AInt v])
     end.

(** *** Transposition table *)

Definition _tt_maybe_evict (w : World) : World :=
  if Z.of_nat (size (TT w)) >? TT_MAX_SIZE then set_TT ∅ w else w.

Definition _tt_store (key depth' value' alpha0 beta0 : Z)
    (best : option Move) (w : World) : World :=
  let flag' :=
    if value' <=? alpha0 then UPPER
    else if value' >=? beta0 then LOWER
    else EXACT in
  let old := TT w !! key in
  if match old with None => true | Some o => depth' >=? depth o end then
    let w := set_TT (<[key := mkTTEntry depth' value' flag' best]> (TT w)) w in
    let w := set_TT_STORES (TT_STORES w + 1) w in
    _tt_maybe_evict w
  else w.

Definition _tt_probe (key depth' alpha beta : Z) (w : World)
    : (bool * Z * Z * option Z) * World :=
  match TT w !! key with
  | None => ((false, alpha, beta, None), w)
  | Some entry =>
    if depth entry <? depth' then ((false, alpha, beta, None), w) else
    let w := set_TT_HITS (TT_HITS w + 1) w in
    if flag entry =? EXACT then ((true, alpha, beta, Some (value entry)), w) else
    let alpha := if flag entry =? LOWER then Z.max alpha (value entry) else alpha in
    let beta :=
      if flag entry =? LOWER then beta
      else if flag entry =? UPPER then Z.min beta (value entry) else beta in
    if alpha >=? beta then ((true, alpha, beta, Some (value entry)), w)
    else ((true, alpha, beta, None), w)
  end.

(** *** The move applicator used by the search *)

Definition apply_move_fixed (pos : Position) (mv : Move) : res Position :=
  let mover := turn pos in
  new_pos ← apply_move pos mv;
  let new_pos :=
    if is_ep mv then
      let cap_sq := match mover with W => dst mv - 8 | B => dst mv + 8 end in
      match mover with
      | W => mkPosition (white new_pos) (black new_pos ∖ {[ cap_sq ]})
                        (turn new_pos) (ep_target new_pos) (last_move new_pos)
      | B => mkPosition (white new_pos ∖ {[ cap_sq ]}) (black new_pos)
                        (turn new_pos) (ep_target new_pos) (last_move new_pos)
      end
    else new_pos in
  (* setattr(new_pos, "last_move", mv) *)
  Ok (mkPosition (white new_pos) (black new_pos) (turn new_pos)
                 (ep_target new_pos) (Some mv)).

(** *** Static evaluation and move ordering *)

Definition evaluate (pos : Position) : Z :=
  let w := Z.of_nat (size (white pos)) in
  let b := Z.of_nat (size (black pos)) in
  let w_prog := sum_over (fun sq => Z.shiftr sq 3 + 1) (white pos) in
  let b_prog := sum_over (fun sq => 9 - (Z.shiftr sq 3 + 1)) (black pos) in
  100 * (w - b) + 3 * (w_prog - b_prog).

Definition _is_capture (pos : Position) (mv : Move) : bool :=
  let opp := match turn pos with W => black pos | B => white pos end in
  is_ep mv || mem (dst mv) opp.

(** [moves.sort(key=lambda m: 1 if _is_capture(pos, m) else 0, reverse=True)]:
    the sort is stable, also under [reverse=True], and the key has two
    values, so captures come first and each group keeps its order. *)
Definition sort_captures_first (pos : Position) (moves : list Move) : list Move :=
  List.filter (_is_capture pos) moves
  ++ List.filter (fun m => negb (_is_capture pos m)) moves.

(** [l.remove(x)]: drops the first occurrence. *)
Fixpoint list_remove (x : Move) (l : list Move) : list Move :=
  match l with
  | [] => []
  | y :: l' => if bool_decide (x = y) then l' else y :: list_remove x l'
  end.

(** The remembered best move, when it is one of [moves], goes to the front. *)
Definition tt_move_first (entry : option TTEntry) (moves : list Move) : list Move :=
  match entry with
  | Some e =>
    match best_move e with
    | Some bm =>
      if bool_decide (bm ∈ moves) then bm :: list_remove bm moves else moves
    | None => moves
    end
  | None => moves
  end.

(** *** Time allocation (seconds as rationals) *)

Definition compute_time_budget (time_left_sec : option Q) : Q :=
  match time_left_sec with
  | None => 15 # 100
  | Some t =>
    let reserve := 5 # 100 in
    let tl := Qmax 0 (t - reserve) in
    let budget := (tl / 35)%Q in
    Qmax (2 # 100) (Qmin (35 # 100) budget)
  end.

(** *** The search *)

(** Computations over the globals that may raise. *)
Definition M (A : Type) : Type := World -> res (A * World).

#[export] Instance M_ret : MRet M := fun A a w => Ok (a, w).
#[export] Instance M_bind : MBind M := fun A B k m w =>
  match m w with
  | Ok (a, w') => k a w'
  | Raise e => Raise e
  end.

Definition lift {A} (r : res A) : M A := fun w =>
  match r with Ok a => Ok (a, w) | Raise e => Raise e end.
Definition get {A} (f : World -> A) : M A := fun w => Ok (f w, w).
Definition modify (f : World -> World) : M unit := fun w => Ok (tt, f w).
Definition run {A} (f : World -> A * World) : M A := fun w => Ok (f w).

Section Search.

(** [perf_counter n] is the value of the [n]-th call of
    [time.perf_counter()]. *)
Variable perf_counter : nat -> Q.

(** [time.perf_counter()] *)
Definition now : M Q := fun w =>
  Ok (perf_counter (reads w),
      mkWorld (TT w) (NODES w) (TT_HITS w) (TT_STORES w) (S (reads w))).

(** [time.perf_counter() >= deadline] *)
Definition past (deadline : Q) : M bool :=
  t ← now; mret (Qle_bool deadline t).

(** The loop of the maximizing branch, from the state [(v, best_move, alpha)];
    [child] stands for [_alphabeta(_, depth - 1, _, _, deadline)]. *)
Fixpoint max_loop (child : Position -> Z -> Z -> M Z) (pos : Position)
    (deadline : Q) (moves : list Move) (v : Z) (best : option Move)
    (alpha beta : Z) : M (Z * option Move) :=
  match moves with
  | [] => mret (v, best)
  | mv :: rest =>
    late ← past deadline;
    if late : bool then mret (v, best) else
    p ← lift (apply_move_fixed pos mv);
    c ← child p alpha beta;
    let '(v, best) := if c >? v then (c, Some mv) else (v, best) in
    let alpha := Z.max alpha v in
    if beta <=? alpha then mret (v, best)
    else max_loop child pos deadline rest v best alpha beta
  end.

Fixpoint min_loop (child : Position -> Z -> Z -> M Z) (pos : Position)
    (deadline : Q) (moves : list Move) (v : Z) (best : option Move)
    (alpha beta : Z) : M (Z * option Move) :=
  match moves with
  | [] => mret (v, best)
  | mv :: rest =>
    late ← past deadline;
    if late : bool then mret (v, best) else
    p ← lift (apply_move_fixed pos mv);
    c ← child p alpha beta;
    let '(v, best) := if c <? v then (c, Some mv) else (v, best) in
    let beta := Z.min beta v in
    if beta <=? alpha then mret (v, best)
    else min_loop child pos deadline rest v best alpha beta
  end.

(** [_alphabeta] by recursion on [d = max(depth, 0)]: the test
    [depth <= 0] is the case [d = 0], and [depth - 1] is the predecessor. *)
Fixpoint alphabeta_at (d : nat) (pos : Position) (alpha beta : Z)
    (deadline : Q) : M Z :=
  modify (fun w => set_NODES (NODES w + 1) w);;
  late ← past deadline;
  if late : bool then mret (evaluate pos) else
  match winner pos with
  | Some w => mret (match w with W => 10 ^ 12 | B => - 10 ^ 12 end)
  | None =>
    match d with
    | O => mret (evaluate pos)
    | S d' =>
      let depth' := Z.of_nat d in
      key ← lift (zobrist_key pos);
      let alpha0 := alpha in
      let beta0 := beta in
      '(_, alpha, beta, exact_val) ← run (_tt_probe key depth' alpha beta);
      match exact_val with
      | Some x => mret x
      | None =>
        let moves := generate_moves pos in
        match moves with
        | [] => mret (evaluate pos)
        | _ :: _ =>
          let moves := sort_captures_first pos moves in
          entry ← get (fun w => TT w !! key);
          let moves := tt_move_first entry moves in
          let child := fun p a b => alphabeta_at d' p a b deadline in
          match turn pos with
          | W =>
            '(v, bm) ← max_loop child pos deadline moves (- 10 ^ 18) None alpha beta;
            modify (_tt_store key depth' v alpha0 beta0 bm);;
            mret v
          | B =>
            '(v, bm) ← min_loop child pos deadline moves (10 ^ 18) None alpha beta;
            modify (_tt_store key depth' v alpha0 beta0 bm);;
            mret v
          end
        end
      end
    end
  end.

Definition _alphabeta (pos : Position) (depth' alpha beta : Z)
    (deadline : Q) : M Z :=
  alphabeta_at (Z.to_nat depth') pos alpha beta deadline.

(** The loop of [_search_depth], from the state
    [(best_val, best_mv, alpha, beta)]. *)
Fixpoint root_loop (pos : Position) (depth' : Z) (deadline : Q)
    (maximizing : bool) (moves : list Move) (best_val : Z)
    (best_mv : option Move) (alpha beta : Z) : M (Z * option Move) :=
  match moves with
  | [] => mret (best_val, best_mv)
  | mv :: rest =>
    late ← past deadline;
    if late : bool then mret (best_val, best_mv) else
    p ← lift (apply_move_fixed pos mv);
    val ← _alphabeta p (depth' - 1) alpha beta deadline;
    let '(best_val, best_mv, alpha, beta) :=
      if maximizing then
        let '(bv, bm) := if val >? best_val then (val, Some mv)
                         else (best_val, best_mv) in
        (bv, bm, Z.max alpha bv, beta)
      else
        let '(bv, bm) := if val <? best_val then (val, Some mv)
                         else (best_val, best_mv) in
        (bv, bm, alpha, Z.min beta bv) in
    if beta <=? alpha then mret (best_val, best_mv)
    else root_loop pos depth' deadline maximizing rest best_val best_mv alpha beta
  end.

Definition _search_depth (pos : Position) (depth' : Z) (deadline : Q)
    : M (option Move * Z) :=
  let maximizing := bool_decide (turn pos = W) in
  let best_val := if maximizing then - 10 ^ 18 else 10 ^ 18 in
  let moves := generate_moves pos in
  match moves with
  | [] => mret (None, evaluate pos)
  | _ :: _ =>
    let moves := sort_captures_first pos moves in
    key ← lift (zobrist_key pos);
    entry ← get (fun w => TT w !! key);
    let moves := tt_move_first entry moves in
    let alpha := - 10 ^ 18 in
    let beta := 10 ^ 18 in
    '(best_val, best_mv) ←
      root_loop pos depth' deadline maximizing moves best_val None alpha beta;
    modify (_tt_store key depth' best_val alpha beta best_mv);;
    mret (best_mv, best_val)
  end.

(** The [while depth <= max_depth] loop: [n] iterations remain, which is
    [max_depth - depth + 1] when that is positive and [0] otherwise. *)
Fixpoint deepen (n : nat) (pos : Position) (depth' : Z) (deadline : Q)
    (best : option Move) : M (option Move) :=
  match n with
  | O => mret best
  | S n' =>
    late ← past deadline;
    if late : bool then mret best else
    '(mv, _) ← _search_depth pos depth' deadline;
    let best := match mv with Some m => Some m | None => best end in
    deepen n' pos (depth' + 1) deadline best
  end.

Definition choose_move_iterdeep (pos : Position) (time_left_sec : option Q)
    (max_depth : Z) : M Move :=
  let budget := compute_time_budget time_left_sec in
  start ← now;
  let deadline := (start + budget)%Q in
  modify (set_NODES 0);;
  best ← deepen (Z.to_nat max_depth) pos 1 deadline None;
  match best with
  | None =>
    match generate_moves pos with
    | [] => lift (Raise RuntimeError)
    | m :: _ => mret m
    end
  | Some m => mret m
  end.

End Search.

End Agent.

(* ===================================================================== *)
(** ** [twoflags/game.py] and [twoflags/notation.py]: moves as text       *)
(* ===================================================================== *)

(** The UCI helpers and [infer_move] of [game.py]. *)
Module GameText.

(** [s[i]] on a string: negative indices count from the end. *)
Definition str_get (s : string) (i : Z) : res ascii :=
  let n := len s in
  let j := if i <? 0 then i + n else i in
  if (0 <=? j) && (j <? n) then
    match String.get (Z.to_nat j) s with
    | Some c => Ok c
    | None => Raise IndexError
    end
  else Raise IndexError.

(** [str(n)] for an integer, as an f-string prints it. *)
Definition str_of_int (z : Z) : string := NilZero.string_of_int (Z.to_int z).

(** What an f-string prints for an optional string. *)
Definition fmt_opt (o : option string) : string :=
  match o with Some s => s | None => "None" end.

Definition square_to_fr (sq : option Z) : res (option string) :=
  match sq with
  | None => Ok None
  | Some sq =>
    c ← str_get FILES (file_of sq);
    Ok (Some (String c (str_of_int (rank_of sq))))
  end.

Definition infer_move (pos : Position) (src' dst' : Z) : res Move :=
  let occ := occupied pos in
  let mover := match turn pos with W => white pos | B => black pos end in
  if negb (mem src' mover) then Raise ValueError else
  let fwd := match turn pos with W => 8 | B => -8 end in
  let start_rank := match turn pos with W => 2 | B => 7 end in
  let is_double' :=
    if (dst' - src' =? 2 * fwd) && (rank_of src' =? start_rank) then
      let mid := src' + fwd in
      if negb (mem mid occ) && negb (mem dst' occ) then true else false
    else false in
  let is_ep' :=
    match ep_target pos with
    | Some ep =>
      if dst' =? ep then
        if negb (mem dst' occ) && (Z.abs (file_of dst' - file_of src') =? 1)
        then true else false
      else false
    | None => false
    end in
  Ok (mkMove src' dst' is_ep' is_double').

Definition uci_to_src_dst (uci : string) : res (Z * Z) :=
  let uci := strip uci in
  if negb (len uci =? 4) then Raise ValueError else
  a ← fr_to_square (slice 0 2 uci);
  b ← fr_to_square (slice_from 2 uci);
  Ok (a, b).

Definition move_to_uci (mv : Move) : res string :=
  a ← square_to_fr (Some (src mv));
  b ← square_to_fr (Some (dst mv));
  Ok (fmt_opt a ++ fmt_opt b)%string.

Definition apply_uci (pos : Position) (uci : string) : res Position :=
  '(s, d) ← uci_to_src_dst uci;
  mv ← infer_move pos s d;
  apply_move pos mv.

End GameText.

(** The move encoders and the tolerant move parser of [notation.py]. *)
Module NotationText.
Import Notation.

Definition square_to_fr (sq : Z) : res string :=
  c ← GameText.str_get FILES (file_of sq);
  Ok (String c (GameText.str_of_int (rank_of sq))).

Definition move_to_str_fr (mv : Move) : res string :=
  a ← square_to_fr (src mv);
  b ← square_to_fr (dst mv);
  Ok (a ++ b)%string.

(** [s.replace("->", "")] *)
Fixpoint remove_arrow (s : string) : string :=
  match s with
  | EmptyString => EmptyString
  | String c s1 =>
    match s1 with
    | String c' s2 =>
      if Ascii.eqb c "-" && Ascii.eqb c' ">" then remove_arrow s2
      else String c (remove_arrow s1)
    | EmptyString => s
    end
  end.

(** [s.replace(c, "")] for a one-character [c]. *)
Fixpoint remove_char (x : ascii) (s : string) : string :=
  match s with
  | EmptyString => EmptyString
  | String c s' =>
    if Ascii.eqb c x then remove_char x s' else String c (remove_char x s')
  end.

(** The first candidate, in order, that some legal tuple matches; [legal]
    lists the set of legal tuples in the order the set is iterated. *)
Fixpoint first_match (legal : list Move) (cands : list (Z * Z)) : option Move :=
  match cands with
  | [] => None
  | (s, d) :: rest =>
    match List.find (fun m => (src m =? s) && (dst m =? d)) legal with
    | Some m => Some (mkMove s d (is_ep m) (is_double m))
    | None => first_match legal rest
    end
  end.

(** [parse_move_robust(s, pos)]; [iter] gives the order in which the set of
    legal tuples, built from a list, is iterated: the same elements, each
    once. *)
Definition parse_move_robust (iter : list Move -> list Move)
    (s : string) (pos : Position) : res Move :=
  let raw := remove_char " " (remove_char "-" (remove_arrow (lower (strip s)))) in
  if negb (len raw =? 4) then Raise ValueError else
  let a := slice 0 2 raw in
  let b := slice_from 2 raw in
  pa ← parse_square a;
  pb ← parse_square b;
  pb' ← parse_square b;
  pa' ← parse_square a;
  let cands := [(pa, pb); (pb', pa')] in
  let legal := iter (generate_moves pos) in
  match first_match legal cands with
  | Some m => Ok m
  | None => Raise ValueError
  end.

End NotationText.
From Stdlib Require Import Floats.SpecFloat.

(* ===================================================================== *)
(** ** The time budget in double precision                                *)
(* ===================================================================== *)

(** [compute_time_budget] on binary64 numbers, as CPython evaluates it: the
    decimal literals rounded to the nearest double, subtraction and division
    rounding to nearest even, and [max] and [min] by their comparisons. The
    search above takes seconds as rationals and is stated for every clock;
    this module keeps the arithmetic of the budget itself. *)
Module Doubles.

Definition prec : Z := 53.
Definition emax : Z := 1024.

(** A Python [float]. *)
Definition float : Type := spec_float.

(** The double of an integer. *)
Definition of_int (n : Z) : float := binary_normalize prec emax n 0 false.

(** The decimal literal [n / 10^k]: the double nearest to the quotient. *)
Definition literal (n : Z) (k : Z) : float :=
  SFdiv prec emax (of_int n) (of_int (10 ^ k)).

Definition sub (x y : float) : float := SFsub prec emax x y.
Definition div (x y : float) : float := SFdiv prec emax x y.

(** [x <= y]; false when either is not a number. *)
Definition le (x y : float) : bool := SFleb x y.

(** [max(x, y)] keeps [x] unless [y > x]; [min(x, y)] keeps [x] unless
    [y < x]. *)
Definition max (x y : float) : float := if SFltb x y then y else x.
Definition min (x y : float) : float := if SFltb y x then y else x.

Definition compute_time_budget (time_left_sec : option float) : float :=
  match time_left_sec with
  | None => literal 15 2
  | Some t =>
    let reserve := literal 5 2 in
    let tl := max (literal 0 1) (sub t reserve) in
    let budget := div tl (literal 350 1) in
    max (literal 2 2) (min (literal 35 2) budget)
  end.

End Doubles.

(* ===================================================================== *)
(** ** Notions used to state the properties                               *)
(* ===================================================================== *)

Module Props.
Import Notation Agent.

(** *** Positions and moves *)

(** The pawns of colour [c]. *)
Definition side (c : Color) (p : Position) : gset Z :=
  match c with W => white p | B => black p end.

(** The mover's pawns, the opponent's pawns and the mover's forward step. *)
Definition pawns_of (p : Position) : gset Z :=
  match turn p with W => white p | B => black p end.
Definition opp_of (p : Position) : gset Z :=
  match turn p with W => black p | B => white p end.
Definition fwd_of (p : Position) : Z :=
  match turn p with W => 8 | B => -8 end.

(** What is known of a move yielded for the pawn on [s]. *)
Definition move_shape (p : Position) (s : Z) (mv : Move) : Prop :=
  src mv = s /\ 0 <= dst mv < 64 /\
  ((is_ep mv = false /\ (dst mv ∉ occupied p \/ dst mv ∈ opp_of p)) \/
   (is_ep mv = true /\ is_double mv = false /\
    ep_target p = Some (dst mv) /\
    dst mv - fwd_of p ∈ opp_of p /\ dst mv ∉ occupied p)).

(** All squares of a position lie in [0,64). *)
Definition on_board (p : Position) : Prop :=
  set_Forall (fun sq => 0 <= sq < 64) (white p ∪ black p).

#[global] Instance on_board_dec p : Decision (on_board p).
Proof. unfold on_board. apply _. Defined.

(** The board invariant of the data model: disjoint sets, on the board. *)
Definition board_ok (p : Position) : Prop :=
  white p ## black p /\ on_board p.

(** Reachable from the initial position by legal moves. *)

Inductive reachable : Position -> Prop :=
| reach_initial : reachable initial
| reach_move p mv q :
    reachable p -> In mv (generate_moves p) -> apply_move p mv = Ok q ->
    reachable q.

(** Black to move after white's a2-a4, with a black pawn on b4. *)
Definition ep_position : Position := mkPosition {[ 24 ]} {[ 25 ]} B (Some 16) None.
Definition ep_capture : Move := mkMove 25 16 true false.

(** White to move with a single blocked pawn: a2 against a3. *)
Definition blocked_position : Position := mkPosition {[ 8 ]} {[ 16; 60 ]} W None None.

(** *** Setup tokens *)

Definition is_file (c : ascii) : bool :=
  (code "a" <=? code c) && (code c <=? code "h").

(** A file letter [a]-[h] followed by a rank digit [1]-[8]. *)
Definition square_text (s : string) : bool :=
  match s with
  | String f (String r EmptyString) => is_file f && is_rank r
  | _ => false
  end.

(** What [from_setup_tokens] takes as a well-formed token: after trimming,
    [W] or [B] followed by a square text, itself trimmed. *)
Definition setup_token_ok (t : string) : bool :=
  match strip t with
  | String c rest =>
    (Ascii.eqb c "W" || Ascii.eqb c "B") && square_text (strip rest)
  | EmptyString => false
  end.

(** What [parse_setup] takes as a well-formed token: after trimming, three
    characters, a colour letter in either case and a square in either case
    and either order. *)
Definition notation_token_ok (t : string) : bool :=
  match strip t with
  | String c (String x (String y EmptyString)) =>
    (Ascii.eqb c "W" || Ascii.eqb c "w" || Ascii.eqb c "B" || Ascii.eqb c "b")
    && ((is_file_ci x && is_rank y) || (is_rank x && is_file_ci y))
  | _ => false
  end.

Definition bad_setup_token (t : string) : Prop :=
  3 <= len (strip t) /\ setup_token_ok t = false.

Definition bad_notation_token (t : string) : Prop := notation_token_ok t = false.

(** *** The transposition table *)

(** The globals of a fresh process. *)
Definition empty_world : World := mkWorld ∅ 0 0 0 0.

(** The classification in the words of the specification: strictly below
    the original alpha is an upper bound. *)
Definition flag_below_alpha (v alpha0 beta0 : Z) : Z :=
  if v <? alpha0 then UPPER else if v >=? beta0 then LOWER else EXACT.

(** The classification as the code makes it: at or below alpha an upper
    bound, otherwise at or above beta a lower bound, otherwise exact. *)
Definition classified (f v alpha0 beta0 : Z) : Prop :=
  (v <= alpha0 -> f = UPPER) /\
  (alpha0 < v -> beta0 <= v -> f = LOWER) /\
  (alpha0 < v < beta0 -> f = EXACT).

(** A table holding, under the key of the initial position, a lower bound
    of 10 at depth 1: a probe with the window (0, 100) narrows it to
    (10, 100). *)
Definition narrowed_world : World :=
  mkWorld {[ 779075131405342958 := mkTTEntry 1 10 LOWER None ]} 0 0 0 0.

(** A table holding one lower-bound entry of depth 3 and value 40. *)
Definition probe_world : World :=
  mkWorld {[ 7 := mkTTEntry 3 40 LOWER None ]} 0 0 0 0.

(** *** Evaluation *)

Definition pawn_count (c : Color) (p : Position) : Z :=
  Z.of_nat (size (side c p)).

(** Ranks still to go to the promotion rank (8 for white, 1 for black). *)
Definition ranks_to_go (c : Color) (sq : Z) : Z :=
  match c with W => 8 - rank_of sq | B => rank_of sq - 1 end.

(** The summand of [evaluate] for a pawn: its rank counted from the back
    rank of its side, [(sq >> 3) + 1] for white and [9 - ((sq >> 3) + 1)]
    for black. *)
Definition rank_from_back (c : Color) (sq : Z) : Z :=
  match c with W => rank_of sq | B => 9 - rank_of sq end.

(** In the words of the specification: the rank distance a pawn has
    advanced towards its promotion rank, none on its start rank (rank 2 for
    white, rank 7 for black). *)
Definition advanced (c : Color) (sq : Z) : Z :=
  match c with W => rank_of sq - 2 | B => 7 - rank_of sq end.

(** The sum of [f] over the squares of a set. *)
Definition total (f : Z -> Z) (s : gset Z) : Z :=
  set_fold (fun sq acc => f sq + acc) 0 s.

(** The progress of a side, in the words of the specification. *)
Definition progress (c : Color) (p : Position) : Z :=
  total (advanced c) (side c p).

(** The evaluator as the specification words it. *)
Definition spec_evaluate (p : Position) : Z :=
  100 * (pawn_count W p - pawn_count B p)
  + 3 * (progress W p - progress B p).

(** Two white pawns and one black pawn, none of them moved: a2, b2 against
    a7, white to move. *)
Definition unmoved_pawns : Position :=
  mkPosition {[ 8; 9 ]} {[ 48 ]} W None None.

(** *** Fingerprints *)

(** [Z_PIECE[c][sq]] for a square of the board. *)
Definition piece_const (c : nat) (sq : Z) : Z :=
  nth (Z.to_nat sq) (nth c Z_PIECE []) 0.

(** XOR of [f sq] over a listing of squares. *)
Definition xor_all (f : Z -> Z) (l : list Z) : Z :=
  fold_right (fun sq acc => Z.lxor (f sq) acc) 0 l.

Definition turn_const (c : Color) : Z :=
  match c with W => Z_TURN | B => 0 end.

(** The constant keyed by an en-passant target. *)
Definition ep_const (v : Z) : Z :=
  if (0 <=? v) && (v <? 64)
  then _stable_u64_from_obj [AStr "ep"; AInt v]
  else _stable_u64_from_obj [AStr "extra"; AInt v].

(** The constant keyed by an attached last move. *)
Definition lm_const (m : Move) : Z :=
  _stable_u64_from_obj
    [AStr "lm"; AInt (src m); AInt (dst m); AInt (if is_ep m then 1 else 0)].

(** The fingerprint in the words of the specification: pieces, turn, and
    the en-passant target when there is one, nothing otherwise. *)
Definition zobrist_specified (p : Position) : Z :=
  Z.lxor (Z.lxor (Z.lxor (xor_all (piece_const 0) (elements (white p)))
                         (xor_all (piece_const 1) (elements (black p))))
                 (turn_const (turn p)))
         (match ep_target p with Some v => ep_const v | None => 0 end).

(** The fingerprint with the attached last move taken into account. *)
Definition zobrist_value (ws bs : list Z) (p : Position) : Z :=
  Z.lxor (Z.lxor (Z.lxor (xor_all (piece_const 0) ws) (xor_all (piece_const 1) bs))
                 (turn_const (turn p)))
         (match ep_target p with
          | Some v => ep_const v
          | None => match last_move p with Some m => lm_const m | None => 0 end
          end).

(** *** The search *)

(** [m] returns from every state of the globals, with a result in [Q]. *)
Definition returns {A} (m : M A) (Q : A -> Prop) : Prop :=
  forall w, exists a w', m w = Ok (a, w') /\ Q a.

(** A clock that advances ten milliseconds per reading. *)
Definition coarse_clock (n : nat) : Q := Z.of_nat n # 100.

End Props.

(* ===================================================================== *)
(** ** Further notions: legality, distance, text                          *)
(* ===================================================================== *)

Module MoreProps.
Import Notation Agent Props.

Definition start_rank_of (p : Position) : Z :=
  match turn p with W => 2 | B => 7 end.

(** The two diagonal steps of the mover, left then right. *)
Definition cap_deltas_of (p : Position) : list Z :=
  match turn p with W => [7; 9] | B => [-9; -7] end.

(** The legal moves of a position, by kind. *)
Inductive legal (p : Position) : Move -> Prop :=
| legal_single s :
    s ∈ pawns_of p ->
    0 <= s + fwd_of p < 64 -> s + fwd_of p ∉ occupied p ->
    legal p (Move2 s (s + fwd_of p))
| legal_double s :
    s ∈ pawns_of p -> rank_of s = start_rank_of p ->
    0 <= s + fwd_of p < 64 -> s + fwd_of p ∉ occupied p ->
    0 <= s + 2 * fwd_of p < 64 -> s + 2 * fwd_of p ∉ occupied p ->
    legal p (mkMove s (s + 2 * fwd_of p) false true)
| legal_capture s d :
    s ∈ pawns_of p -> In d (cap_deltas_of p) ->
    0 <= s + d < 64 -> Z.abs (file_of (s + d) - file_of s) = 1 ->
    s + d ∈ opp_of p ->
    legal p (Move2 s (s + d))
| legal_en_passant s d :
    s ∈ pawns_of p -> In d (cap_deltas_of p) ->
    ep_target p = Some (s + d) ->
    0 <= s + d < 64 -> Z.abs (file_of (s + d) - file_of s) = 1 ->
    s + d - fwd_of p ∈ opp_of p -> s + d ∉ occupied p ->
    legal p (mkMove s (s + d) true false).

(** All that a pawn on [s] can ever be given, in the order of generation. *)
Definition pawn_moves_all (p : Position) (s : Z) : list Move :=
  [Move2 s (s + fwd_of p); mkMove s (s + 2 * fwd_of p) false true]
  ++ map (fun d => Move2 s (s + d)) (cap_deltas_of p)
  ++ map (fun d => mkMove s (s + d) true false) (cap_deltas_of p).

(** The mover's direction along the ranks. *)
Definition dir_of (p : Position) : Z :=
  match turn p with W => 1 | B => -1 end.

(** *** Squares and moves as text *)

(** The squares of the board, [range(64)]. *)
Definition squares : list Z := map Z.of_nat (seq 0 64).

(** The characters that name a file (either case) and a rank. *)
Definition file_chars : list ascii :=
  list_ascii_of_string "abcdefghABCDEFGH".
Definition rank_chars : list ascii := list_ascii_of_string "12345678".

(** The preparation of the text in [parse_move_robust]. *)
Definition normalise (s : string) : string :=
  NotationText.remove_char " "
    (NotationText.remove_char "-"
       (NotationText.remove_arrow (lower (strip s)))).

(** Any order of iteration over the set built from a list: the same
    elements. *)
Definition same_elements (iter : list Move -> list Move) : Prop :=
  forall l x, In x (iter l) <-> In x l.

(** The initial layout with black to move. *)
Definition black_to_move : Position :=
  mkPosition (white initial) (black initial) B None None.

(** The text [square_to_fr] prints for a square of the board. *)
Definition fr_of (sq : Z) : string :=
  match NotationText.square_to_fr sq with Ok t => t | Raise _ => EmptyString end.

(** [r] returned [v]. *)
Definition res_is (r : res Z) (v : Z) : bool :=
  match r with Ok x => x =? v | Raise _ => false end.

(** The text of two characters. *)
Definition two_chars (a b : ascii) : string := String a (String b EmptyString).

(** [parse_square] after the trimming. *)
Definition parse_trimmed (st : string) : res Z :=
  let t := lower st in
  if negb (_SQ_RE_match t) then Raise ValueError else
  match t with
  | String t0 (String t1 _) =>
    let '(file_ch, rank_ch) := if isalpha t0 then (t0, t1) else (t1, t0) in
    f ← FILES_index file_ch;
    r ← int_of_digit rank_ch;
    Ok (sq_index f r)
  | _ => Raise IndexError
  end.

(** What [r] returned, if anything, is a square of the board. *)
Definition in_range_res (r : res Z) : bool :=
  match r with Ok sq => in_range sq | Raise _ => true end.

(** The four characters of a move between two squares of the board. *)
Definition move_text (s d : Z) : string := (fr_of s ++ fr_of d)%string.

(** Every reader of move text gives the two squares back. *)
Definition move_text_ok (s d : Z) : bool :=
  let t := move_text s d in
  match GameText.uci_to_src_dst t with
  | Ok (a, b) => (a =? s) && (b =? d)
  | Raise _ => false
  end
  && String.eqb (normalise t) t && (len t =? 4)
  && res_is (parse_square (slice 0 2 t)) s
  && res_is (parse_square (slice_from 2 t)) d.

(** *** Distance left to play *)

(** The ranks all pawns still have to go to their promotion ranks. *)
Definition remaining (p : Position) : Z :=
  sum_over (ranks_to_go W) (white p) + sum_over (ranks_to_go B) (black p).

(** [q] is reached from [p] by [n] generated moves applied with
    [apply_move]. *)
Inductive plays : Position -> nat -> Position -> Prop :=
| plays_none p : plays p 0 p
| plays_more p mv q n r :
    In mv (generate_moves p) -> apply_move p mv = Ok q -> plays q n r ->
    plays p (S n) r.

(** *** The table's capacity *)

Definition within_capacity (w : World) : Prop :=
  Z.of_nat (size (TT w)) <= TT_MAX_SIZE.

(** [m] keeps the table within its capacity. *)
Definition keeps_capacity {A} (m : M A) : Prop :=
  forall w a w', within_capacity w -> m w = Ok (a, w') -> within_capacity w'.

(** A clock that advances one millisecond per reading. *)
Definition fine_clock (n : nat) : Q := Z.of_nat n # 1000.

(** *** The time budget *)

(** A double that is zero, negative (sign bit set) or not a number. *)
Definition not_positive (t : Doubles.float) : bool :=
  match t with
  | S754_nan => true
  | S754_zero _ => true
  | S754_infinity s => s
  | S754_finite s _ _ => s
  end.

End MoreProps.

(* ===================================================================== *)
(** ** Facts about the rules                                              *)
(* ===================================================================== *)

Module GameFacts.
Import Props.

Lemma mem_true x s : mem x s = true <-> x ∈ s.
Proof. unfold mem. apply bool_decide_eq_true. Qed.

Lemma mem_false x s : mem x s = false <-> x ∉ s.
Proof. unfold mem. apply bool_decide_eq_false. Qed.

Lemma in_range_true x : in_range x = true <-> 0 <= x < 64.
Proof. unfold in_range. rewrite andb_true_iff, Z.leb_le, Z.ltb_lt. tauto. Qed.

Lemma in_sorted x s : In x (sorted s) <-> x ∈ s.
Proof.
  unfold sorted. rewrite <- list_elem_of_In.
  rewrite merge_sort_Permutation. apply elem_of_elements.
Qed.

Ltac split_conds :=
  repeat match goal with
  | H : In _ (_ ++ _) |- _ => apply in_app_or in H; destruct H as [H|H]
  | H : In _ (if ?c then _ else _) |- _ =>
      let E := fresh "E" in destruct c eqn:E; [|try contradiction]
  | H : In _ (_ :: _) |- _ => destruct H as [H|H]
  | H : In _ [] |- _ => contradiction
  | H : _ && _ = true |- _ => apply andb_true_iff in H; destruct H
  | H : negb _ = true |- _ => apply negb_true_iff in H
  | H : mem _ _ = true |- _ => apply mem_true in H
  | H : mem _ _ = false |- _ => apply mem_false in H
  | H : in_range _ = true |- _ => apply in_range_true in H
  | H : (_ =? _) = true |- _ => apply Z.eqb_eq in H
  end.

Lemma pawn_moves_shape p s mv :
  In mv (pawn_moves p s) -> move_shape p s mv.
Proof.
  unfold pawn_moves, move_shape, opp_of, fwd_of, Move2.
  intros H. cbv zeta in H.
  destruct (turn p) eqn:Ht, (ep_target p) as [ep|] eqn:Hep;
    cbn [flat_map app] in H; split_conds; subst; cbn;
    repeat split; try lia; auto 6;
    right; repeat split; auto; f_equal; lia.
Qed.

Lemma generate_moves_shape p mv :
  In mv (generate_moves p) ->
  src mv ∈ pawns_of p /\ move_shape p (src mv) mv.
Proof.
  unfold generate_moves. intros H. apply in_flat_map in H.
  destruct H as (s & Hs & Hmv).
  apply in_sorted in Hs. apply pawn_moves_shape in Hmv.
  assert (src mv = s) as -> by apply Hmv. split; auto.
Qed.

(** [apply_move] succeeds exactly on a source square of the mover. *)
Lemma apply_move_ok p mv :
  src mv ∈ pawns_of p ->
  exists q, apply_move p mv = Ok q /\
    turn q = other (turn p) /\
    ep_target q = (if is_double mv then Some (src mv + fwd_of p) else None) /\
    last_move q = None /\
    pawns_of p ∖ {[ src mv ]} ∪ {[ dst mv ]} = opp_of q /\
    (if mem (dst mv) (opp_of p) then opp_of p ∖ {[ dst mv ]} else opp_of p)
      = pawns_of q.
Proof.
  unfold apply_move, pawns_of, opp_of, fwd_of, clone. cbn.
  intros Hs. apply mem_true in Hs.
  destruct (turn p); rewrite Hs; cbn; eexists; split; eauto; cbn; auto.
Qed.

Lemma apply_move_raises p mv :
  src mv ∉ pawns_of p -> apply_move p mv = Raise KeyError.
Proof.
  unfold apply_move, pawns_of, clone. cbn. intros Hs. apply mem_false in Hs.
  destruct (turn p); rewrite Hs; reflexivity.
Qed.

Lemma board_ok_initial : board_ok initial.
Proof.
  split.
  - refine (bool_decide_unpack _ _). vm_compute. exact I.
  - compute_done.
Qed.

Lemma apply_move_board_ok p mv :
  board_ok p -> In mv (generate_moves p) ->
  exists q, apply_move p mv = Ok q /\ board_ok q.
Proof.
  intros [Hdisj Hrng] Hmv. unfold on_board, set_Forall in Hrng.
  apply generate_moves_shape in Hmv. destruct Hmv as (Hsrc & _ & Hdst & Hcase).
  destruct (apply_move_ok p mv Hsrc) as (q & Hq & _ & _ & _ & Hopp & Hpawns).
  exists q. split; [exact Hq|].
  assert (Hfree : dst mv ∉ pawns_of q).
  { rewrite <- Hpawns. destruct (mem (dst mv) (opp_of p)) eqn:E.
    - set_solver.
    - apply mem_false in E. exact E. }
  assert (Hsub : pawns_of q ⊆ opp_of p).
  { rewrite <- Hpawns. destruct (mem (dst mv) (opp_of p)); set_solver. }
  unfold board_ok, on_board, set_Forall, pawns_of, opp_of, occupied in *.
  destruct (turn p), (turn q); split; try set_solver;
    intros sq Hsq; (destruct (decide (sq = dst mv)) as [->|Hne]; [lia|]);
    apply Hrng; set_solver.
Qed.

(** *** The rules on the scenarios of the specification *)

(** Eight single and eight double steps from the initial position. *)
Example initial_moves :
  length (generate_moves initial) = 16%nat /\
  forallb (fun m => negb (is_ep m) && negb (mem (dst m) (black initial)))
          (generate_moves initial) = true /\
  winner initial = None.
Proof. repeat split; vm_compute; reflexivity. Qed.

(** a7-a8 reaches the back rank and wins at once. *)
Example promotion_wins :
  exists p q, from_setup_tokens ["Wa7"; "Bb2"]%string W = Ok p /\
    In (Move2 48 56) (generate_moves p) /\
    apply_move p (Move2 48 56) = Ok q /\ winner q = Some W.
Proof.
  eexists. eexists. split; [reflexivity|].
  split; [vm_compute; auto|]. split; [reflexivity|]. vm_compute. reflexivity.
Qed.

(** d4 takes e5. *)
Example diagonal_capture :
  exists p, from_setup_tokens ["Wd4"; "Be5"]%string W = Ok p /\
    In (Move2 27 36) (generate_moves p).
Proof. eexists. split; [reflexivity|]. vm_compute. auto. Qed.

(** a2-a4 records a3 as the en-passant target. *)
Example double_step_sets_target :
  exists p q, from_setup_tokens ["Wa2"; "Bb7"]%string W = Ok p /\
    In (mkMove 8 24 false true) (generate_moves p) /\
    apply_move p (mkMove 8 24 false true) = Ok q /\ ep_target q = Some 16.
Proof.
  eexists. eexists. split; [reflexivity|].
  split; [vm_compute; auto|]. split; reflexivity.
Qed.

(** A legal en-passant move leaves the opponent's set as it is. *)
Lemma ep_move_keeps_opponent pos mv :
  In mv (generate_moves pos) -> is_ep mv = true ->
  exists q, apply_move pos mv = Ok q /\
    dst mv - fwd_of pos ∈ side (other (turn pos)) pos /\
    dst mv - fwd_of pos ∈ side (other (turn pos)) q.
Proof.
  intros Hmv Hep.
  apply generate_moves_shape in Hmv. destruct Hmv as (Hsrc & _ & _ & Hcase).
  destruct Hcase as [[Hne _]|(_ & _ & _ & Hcap & Hfree)]; [congruence|].
  destruct (apply_move_ok pos mv Hsrc) as (q & Hq & Ht & _ & _ & _ & Hpawns).
  exists q. split; [exact Hq|].
  assert (Hm : mem (dst mv) (opp_of pos) = false).
  { apply mem_false. unfold occupied, opp_of in *. destruct (turn pos); set_solver. }
  rewrite Hm in Hpawns.
  unfold side, opp_of, pawns_of, other in *.
  destruct (turn pos), (turn q); try discriminate; split; try exact Hcap;
    rewrite <- Hpawns; exact Hcap.
Qed.

(** ** C2: en-passant application leaves the passed pawn in place *)

(** C2. For every position and every legal move of it that carries the
    en-passant flag, [apply_move] returns a position, and the opponent pawn
    that was passed over (one forward step of the mover behind the
    destination) is in the opponent's set before and still after the move. *)
Theorem apply_move_ep_keeps_passed_pawn pos mv :
  In mv (generate_moves pos) -> is_ep mv = true ->
  exists q, apply_move pos mv = Ok q /\
    dst mv - fwd_of pos ∈ side (other (turn pos)) pos /\
    dst mv - fwd_of pos ∈ side (other (turn pos)) q.
Proof. exact (ep_move_keeps_opponent pos mv). Qed.

Lemma apply_move_ep_keeps_passed_pawn_witness :
  In ep_capture (generate_moves ep_position) /\
  exists q, apply_move ep_position ep_capture = Ok q /\
    24 ∈ white ep_position /\ 24 ∈ white q.
Proof.
  split; [vm_compute; auto|].
  apply (apply_move_ep_keeps_passed_pawn ep_position ep_capture);
    [vm_compute; auto | reflexivity].
Defined.

(** ** C4: the order of the terminal tests *)

Lemma existsb_elements (f : Z -> bool) (s : gset Z) :
  existsb f (elements s) = true <-> exists sq, sq ∈ s /\ f sq = true.
Proof.
  rewrite existsb_exists. split; intros (sq & H1 & H2); exists sq; split; auto.
  - apply elem_of_elements, list_elem_of_In, H1.
  - apply list_elem_of_In, elem_of_elements, H1.
Qed.

Lemma on_rank (s : gset Z) (r : Z) :
  existsb (fun sq => Z.shiftr sq 3 =? r - 1) (elements s) = true <->
  set_Exists (fun sq => rank_of sq = r) s.
Proof.
  rewrite existsb_elements. unfold set_Exists, rank_of.
  split; intros (sq & H1 & H2); exists sq; split; auto.
  - apply Z.eqb_eq in H2. lia.
  - apply Z.eqb_eq. lia.
Qed.

(** C4. [winner] tests, in this order: a white pawn on rank 8 (white wins);
    a black pawn on rank 1 (black wins); a side without pawns (the other
    side wins, black's set being looked at first); no legal move for the
    side to move (its opponent wins); otherwise there is no winner. *)
Theorem winner_order pos :
  let white_home := set_Exists (fun sq => rank_of sq = 8) (white pos) in
  let black_home := set_Exists (fun sq => rank_of sq = 1) (black pos) in
  (white_home -> winner pos = Some W) /\
  (~ white_home -> black_home -> winner pos = Some B) /\
  (~ white_home -> ~ black_home -> black pos = ∅ -> winner pos = Some W) /\
  (~ white_home -> ~ black_home -> black pos <> ∅ -> white pos = ∅ ->
     winner pos = Some B) /\
  (~ white_home -> ~ black_home -> black pos <> ∅ -> white pos <> ∅ ->
     generate_moves pos = [] -> winner pos = Some (other (turn pos))) /\
  (~ white_home -> ~ black_home -> black pos <> ∅ -> white pos <> ∅ ->
     generate_moves pos <> [] -> winner pos = None).
Proof.
  intros white_home black_home. unfold winner.
  pose proof (on_rank (white pos) 8) as HW.
  pose proof (on_rank (black pos) 1) as HB.
  change (8 - 1) with 7 in HW. change (1 - 1) with 0 in HB.
  fold white_home in HW. fold black_home in HB.
  destruct (existsb _ (elements (white pos))).
  { repeat split; intros; try reflexivity; exfalso; tauto. }
  destruct (existsb _ (elements (black pos))).
  { repeat split; intros; try reflexivity; exfalso;
      try tauto; destruct HW as [_ HW]; specialize (HW ltac:(assumption)); discriminate. }
  assert (Hnw : ~ white_home) by (intros H; apply HW in H; discriminate).
  assert (Hnb : ~ black_home) by (intros H; apply HB in H; discriminate).
  unfold is_empty.
  destruct (decide (black pos = ∅)) as [Eb|Eb].
  { rewrite bool_decide_eq_true_2 by exact Eb.
    repeat split; intros; try reflexivity; exfalso; tauto. }
  rewrite (bool_decide_eq_false_2 _ Eb).
  destruct (decide (white pos = ∅)) as [Ew|Ew].
  { rewrite bool_decide_eq_true_2 by exact Ew.
    repeat split; intros; try reflexivity; exfalso; tauto. }
  rewrite (bool_decide_eq_false_2 _ Ew).
  destruct (generate_moves pos) eqn:Eg;
    repeat split; intros; try reflexivity; try (exfalso; tauto);
    try congruence; destruct (turn pos); reflexivity.
Qed.

Lemma winner_order_witness :
  winner blocked_position = Some B /\ winner initial = None.
Proof.
  split.
  - apply (winner_order blocked_position); compute_done.
  - apply (winner_order initial); compute_done.
Defined.

(** ** C5: the board invariant is kept by legal moves *)

(** C5. When the white and black sets of a position are disjoint and within
    [0,64), applying any generated move with [apply_move] returns a position
    whose sets are again disjoint and within [0,64); hence every position
    reachable from the initial one has disjoint sets within [0,64). *)
Theorem board_ok_invariant :
  (forall pos mv, board_ok pos -> In mv (generate_moves pos) ->
     exists q, apply_move pos mv = Ok q /\ board_ok q) /\
  (forall pos, reachable pos -> board_ok pos).
Proof.
  split; [exact apply_move_board_ok|].
  induction 1 as [|p mv q _ IH Hmv Hq].
  - exact board_ok_initial.
  - destruct (apply_move_board_ok p mv IH Hmv) as (q' & Hq' & Hok).
    congruence.
Qed.

Lemma board_ok_invariant_witness :
  (exists q, apply_move initial (mkMove 8 24 false true) = Ok q /\ board_ok q) /\
  (forall q, apply_move initial (mkMove 8 24 false true) = Ok q -> board_ok q).
Proof.
  split.
  - apply (proj1 board_ok_invariant initial (mkMove 8 24 false true)).
    + exact board_ok_initial.
    + vm_compute. auto.
  - intros q Hq. apply (proj2 board_ok_invariant q).
    apply (reach_move initial (mkMove 8 24 false true) q).
    + exact reach_initial.
    + vm_compute. auto.
    + exact Hq.
Defined.

(** *** Sums over a set *)

Lemma sum_list_perm (f : Z -> Z) (l l' : list Z) :
  l ≡ₚ l' ->
  fold_right (fun x acc => f x + acc) 0 l
  = fold_right (fun x acc => f x + acc) 0 l'.
Proof.
  induction 1 as [|x l l' _ IH|x y l|l l' l'' _ IH1 _ IH2]; cbn; lia.
Qed.

Lemma sum_over_insert f x (s : gset Z) :
  x ∉ s -> sum_over f ({[ x ]} ∪ s) = f x + sum_over f s.
Proof.
  intros Hx. unfold sum_over.
  rewrite (sum_list_perm f _ _ (elements_union_singleton s x Hx)).
  reflexivity.
Qed.

End GameFacts.

(* ===================================================================== *)
(** ** Facts about setup parsing                                          *)
(* ===================================================================== *)

Module SetupFacts.
Import Notation Props.

(** ** C10: malformed setup tokens *)

(** C10, as stated, fails: [from_setup_tokens] skips the two-character token
    and builds a position from the others, and [parse_setup] accepts a
    lower-case colour letter and a square written rank first. *)
Lemma setup_malformed_token_accepted :
  from_setup_tokens ["Wa2"; "B7"; "Bh7"]%string W
    = Ok (mkPosition {[ 8 ]} {[ 55 ]} W None None) /\
  parse_setup ["Setup"; "wa2"; "B7h"]%string
    = Ok (mkPosition {[ 8 ]} {[ 55 ]} W None None).
Proof. split; vm_compute; reflexivity. Qed.

Ltac each_char c :=
  destruct c as [[] [] [] [] [] [] [] []]; vm_compute; try reflexivity;
  try discriminate; auto.

Lemma find_FILES c : (find FILES c <? 0) = negb (is_file c).
Proof. each_char c. Qed.

Lemma substring_all s n : (String.length s <= n)%nat -> substring 0 n s = s.
Proof.
  revert n. induction s as [|c s IH]; intros [|n] Hn; cbn in *;
    try reflexivity; try lia.
  rewrite IH by lia. reflexivity.
Qed.

Lemma slice_from_1 c s : slice_from 1 (String c s) = s.
Proof. unfold slice_from. cbn. apply substring_all. lia. Qed.

Lemma fr_to_square_ok r :
  if square_text (strip r)
  then exists sq, fr_to_square r = Ok sq
  else fr_to_square r = Raise ValueError.
Proof.
  unfold fr_to_square, square_text.
  destruct (strip r) as [|c0 [|c1 [|c2 s]]]; try reflexivity.
  rewrite find_FILES. unfold is_rank.
  destruct (is_file c0); cbn; [|reflexivity].
  destruct (Z.leb_spec (code "1") (code c1)), (Z.leb_spec (code c1) (code "8")),
    (Z.ltb_spec (code c1) (code "1")), (Z.gtb_spec (code c1) (code "8"));
    cbn; try lia; eauto.
Qed.

Lemma setup_loop_bad tokens w b :
  Exists bad_setup_token tokens -> setup_loop tokens w b = Raise ValueError.
Proof.
  revert w b. induction tokens as [|t rest IH]; intros w b Hex.
  { inversion Hex. }
  cbn [setup_loop].
  assert (Hrest : len (strip t) < 3 \/ setup_token_ok t = true ->
                  Exists bad_setup_token rest).
  { intros Hgood. inversion Hex as [? ? [Hlen Hbad]|]; subst; [|assumption].
    destruct Hgood; [lia|congruence]. }
  destruct (Z.ltb_spec (len (strip t)) 3) as [Hlt|Hge].
  { apply IH, Hrest. left. exact Hlt. }
  unfold setup_token_ok in Hrest.
  destruct (strip t) as [|side r] eqn:Est; [unfold len in Hge; cbn in Hge; lia|].
  rewrite slice_from_1.
  pose proof (fr_to_square_ok r) as Hsq.
  destruct (square_text (strip r)).
  - destruct Hsq as (sq & ->). cbn [mbind res_bind rbind].
    destruct (Ascii.eqb side "W"); [apply IH, Hrest; right; reflexivity|].
    destruct (Ascii.eqb side "B"); [apply IH, Hrest; right; reflexivity|].
    reflexivity.
  - rewrite Hsq. reflexivity.
Qed.

Lemma setup_loop_skips l1 t l2 w b :
  len (strip t) < 3 ->
  setup_loop (l1 ++ t :: l2) w b = setup_loop (l1 ++ l2) w b.
Proof.
  intros Hlt. revert w b. induction l1 as [|t1 l1 IH]; intros w b; cbn.
  - destruct (Z.ltb_spec (len (strip t)) 3); [reflexivity|lia].
  - destruct (len (strip t1) <? 3); [apply IH|].
    destruct (strip t1) as [|side r]; [reflexivity|].
    destruct (fr_to_square _); cbn; [|reflexivity].
    destruct (Ascii.eqb side "W"); [apply IH|].
    destruct (Ascii.eqb side "B"); [apply IH|reflexivity].
Qed.

Lemma upper_col c :
  String.eqb (upper (String c EmptyString)) "W"
    = (Ascii.eqb c "W" || Ascii.eqb c "w") /\
  String.eqb (upper (String c EmptyString)) "B"
    = (Ascii.eqb c "B" || Ascii.eqb c "b").
Proof. each_char c. Qed.

Lemma slice_0_1 c s : slice 0 1 (String c s) = String c EmptyString.
Proof. destruct s; reflexivity. Qed.

Lemma slice_1_3 c x y : slice 1 3 (String c (String x (String y EmptyString)))
  = String x (String y EmptyString).
Proof. reflexivity. Qed.

Lemma lower_char_file_ci c : is_file_ci (lower_char c) = is_file_ci c.
Proof. each_char c. Qed.

Lemma lower_char_rank c : is_rank (lower_char c) = is_rank c.
Proof. each_char c. Qed.

(** [parse_square] on two characters raises unless they are a square. *)
Lemma parse_square_bad x y :
  (is_file_ci x && is_rank y) || (is_rank x && is_file_ci y) = false ->
  parse_square (String x (String y EmptyString)) = Raise ValueError.
Proof.
  intros Hbad. unfold parse_square.
  assert (Hst : strip (String x (String y EmptyString))
                = String x (String y EmptyString) \/
                (String.length (strip (String x (String y EmptyString))) < 2)%nat).
  { unfold strip. cbn. destruct (isspace x) eqn:Ex, (isspace y) eqn:Ey; cbn;
      rewrite ?Ex, ?Ey; cbn; try (right; lia); left; reflexivity. }
  destruct Hst as [->|Hshort].
  - cbn. rewrite !lower_char_file_ci, !lower_char_rank, Hbad. reflexivity.
  - destruct (strip _) as [|a [|a' s]]; cbn in *; try reflexivity; lia.
Qed.

Lemma parse_square_raises s e : parse_square s = Raise e -> e = ValueError.
Proof.
  unfold parse_square. destruct (_SQ_RE_match _) eqn:Hre; cbn; [|congruence].
  destruct (lower (strip s)) as [|t0 [|t1 r]]; try discriminate.
  assert (Hc : (is_file_ci t0 && is_rank t1) || (is_rank t0 && is_file_ci t1) = true).
  { cbn in Hre. destruct r as [|nl [|? ?]]; try discriminate; [exact Hre|].
    apply andb_true_iff in Hre. apply Hre. }
  destruct (isalpha t0); unfold FILES_index, int_of_digit;
    repeat match goal with
           | |- context [if ?c then _ else _] => destruct c
           end; cbn; congruence.
Qed.

Lemma parse_setup_loop_bad toks w b :
  Exists bad_notation_token toks -> parse_setup_loop toks w b = Raise ValueError.
Proof.
  revert w b. induction toks as [|t rest IH]; intros w b Hex.
  { inversion Hex. }
  cbn [parse_setup_loop].
  assert (Hrest : notation_token_ok t = true -> Exists bad_notation_token rest).
  { intros Hgood. inversion Hex as [? ? Hbad|]; subst; [|assumption].
    unfold bad_notation_token in Hbad. congruence. }
  unfold notation_token_ok in Hrest.
  destruct (Z.eqb_spec (len (strip t)) 3) as [Hlen|Hlen]; [|reflexivity].
  destruct (strip t) as [|c [|x [|y [|z s]]]]; try (unfold len in Hlen; cbn in Hlen; lia).
  cbn [negb]. rewrite slice_0_1, slice_1_3.
  destruct (upper_col c) as [-> ->].
  destruct ((is_file_ci x && is_rank y) || (is_rank x && is_file_ci y)) eqn:Hsq.
  - destruct (parse_square _) as [sq|e] eqn:Hp; cbn [mbind res_bind rbind].
    + rewrite andb_true_r in Hrest.
      destruct (Ascii.eqb c "W"), (Ascii.eqb c "w"), (Ascii.eqb c "B"),
        (Ascii.eqb c "b"); cbn in *; try (apply IH, Hrest; reflexivity);
        reflexivity.
    + apply parse_square_raises in Hp. subst. reflexivity.
  - rewrite parse_square_bad by exact Hsq. reflexivity.
Qed.

(** C10 (amended). [from_setup_tokens] trims every token, skips a token left
    with fewer than three characters, and fails with [ValueError], returning
    no position, as soon as some other token is not [W] or [B] followed by a
    square [a1]-[h8] (blanks around the square allowed). [parse_setup] fails
    with [ValueError], returning no position, as soon as some token after
    the header is not, once trimmed, three characters: a colour letter
    [W]/[B] in either case and a square in either case and either order. *)
Theorem setup_parsing_rejects :
  (forall tokens c,
     Exists bad_setup_token tokens ->
     from_setup_tokens tokens c = Raise ValueError) /\
  (forall l1 t l2 c,
     len (strip t) < 3 ->
     from_setup_tokens (l1 ++ t :: l2) c = from_setup_tokens (l1 ++ l2) c) /\
  (forall header toks,
     Exists bad_notation_token toks ->
     parse_setup (header :: toks) = Raise ValueError).
Proof.
  split; [|split].
  - intros tokens c H. unfold from_setup_tokens.
    rewrite setup_loop_bad by exact H. reflexivity.
  - intros l1 t l2 c H. unfold from_setup_tokens.
    rewrite setup_loop_skips by exact H. reflexivity.
  - intros header toks H. unfold parse_setup.
    destruct (negb _); [reflexivity|].
    rewrite parse_setup_loop_bad by exact H. reflexivity.
Qed.

Lemma setup_parsing_rejects_witness :
  from_setup_tokens ["Wa2"; "Xa7"]%string W = Raise ValueError /\
  from_setup_tokens ["Wa2"; "B7"; "Bh7"]%string W
    = from_setup_tokens ["Wa2"; "Bh7"]%string W /\
  parse_setup ["Setup"; "Wa2"; "Ba77"]%string = Raise ValueError.
Proof.
  split; [|split].
  - apply (proj1 setup_parsing_rejects).
    apply Exists_cons_tl, Exists_cons_hd. split; vm_compute; [discriminate|reflexivity].
  - apply (proj1 (proj2 setup_parsing_rejects) ["Wa2"%string] "B7"%string ["Bh7"%string]).
    vm_compute. reflexivity.
  - apply (proj2 (proj2 setup_parsing_rejects)).
    apply Exists_cons_tl, Exists_cons_hd. vm_compute. reflexivity.
Defined.

End SetupFacts.

(* ===================================================================== *)
(** ** Facts about the agent's table, hashing and evaluation              *)
(* ===================================================================== *)

Module AgentFacts.
Import Agent Props GameFacts.

(** *** The constants, as CPython computes them *)

Example zobrist_constants :
  nth 0 (nth 0 Z_PIECE []) 0 = 17073114832458550531 /\
  nth 5 (nth 1 Z_PIECE []) 0 = 453122949123608689 /\
  Z_TURN = 10701666831038947611 /\
  length (nth 0 Z_PIECE []) = 64%nat /\ length (nth 1 Z_PIECE []) = 64%nat.
Proof. repeat split. Qed.

Example stable_u64_values :
  repr_tuple [AStr "lm"; AInt 8; AInt 16; AInt 0] = "('lm', 8, 16, 0)"%string /\
  _stable_u64_from_obj [AStr "lm"; AInt 8; AInt 16; AInt 0] = 5827331383990241454 /\
  zobrist_key initial = Ok 779075131405342958.
Proof. repeat split; vm_compute; reflexivity. Qed.

(** ** C7: classification and replacement on store *)

(** C7, as stated, fails when the value equals the original alpha: the entry
    stored for value 5 under the window (5, 10) is an upper bound, where
    "below alpha / at or above beta / else exact" gives exact. *)
Lemma tt_store_value_equal_alpha :
  flag <$> (TT (_tt_store 0 1 5 5 10 None empty_world) !! 0) = Some UPPER /\
  flag_below_alpha 5 5 10 = EXACT /\ UPPER <> EXACT.
Proof. repeat split; compute_done. Qed.

Lemma tt_size_insert (t : gmap Z TTEntry) k e :
  (size (<[k := e]> t) <= S (size t))%nat.
Proof.
  destruct (t !! k) eqn:E.
  - rewrite <- (insert_delete_id t k t0) at 1 by exact E.
    rewrite insert_insert_eq, map_size_insert_None by apply lookup_delete_eq.
    rewrite <- (insert_delete_id t k t0) at 2 by exact E.
    rewrite map_size_insert_None by apply lookup_delete_eq. lia.
  - rewrite map_size_insert_None by exact E. lia.
Qed.

(** A store classifies the value against the window it is given and
    writes the entry when the key is absent or the new depth is at least
    the stored depth. *)
Lemma tt_store_classifies w key d v alpha0 beta0 bm :
  Z.of_nat (size (TT w)) < TT_MAX_SIZE ->
  let w' := _tt_store key d v alpha0 beta0 bm w in
  exists f,
    (v <= alpha0 -> f = UPPER) /\
    (alpha0 < v -> beta0 <= v -> f = LOWER) /\
    (alpha0 < v < beta0 -> f = EXACT) /\
    (TT w !! key = None -> TT w' !! key = Some (mkTTEntry d v f bm)) /\
    (forall old, TT w !! key = Some old -> depth old <= d ->
       TT w' !! key = Some (mkTTEntry d v f bm)) /\
    (forall old, TT w !! key = Some old -> d < depth old ->
       w' = w /\ TT w' !! key = Some old) /\
    (forall k, k <> key -> TT w' !! k = TT w !! k).
Proof.
  intros Hsize w'. subst w'. unfold _tt_store.
  set (f := if v <=? alpha0 then UPPER else if v >=? beta0 then LOWER else EXACT).
  exists f.
  assert (Hev : forall e, _tt_maybe_evict
            (set_TT_STORES (TT_STORES (set_TT (<[key:=e]> (TT w)) w) + 1)
               (set_TT (<[key:=e]> (TT w)) w))
          = set_TT_STORES (TT_STORES w + 1) (set_TT (<[key:=e]> (TT w)) w)).
  { intros e. unfold _tt_maybe_evict. cbn.
    pose proof (tt_size_insert (TT w) key e).
    destruct (Z.gtb_spec (Z.of_nat (size (<[key:=e]> (TT w)))) TT_MAX_SIZE);
      [lia|reflexivity]. }
  repeat split.
  - intros H. subst f. destruct (Z.leb_spec v alpha0); [reflexivity|lia].
  - intros H1 H2. subst f. destruct (Z.leb_spec v alpha0); [lia|].
    rewrite Z.geb_leb. destruct (Z.leb_spec beta0 v); [reflexivity|lia].
  - intros H. subst f. destruct (Z.leb_spec v alpha0); [lia|].
    rewrite Z.geb_leb. destruct (Z.leb_spec beta0 v); [lia|reflexivity].
  - intros Hn. rewrite Hn, Hev. cbn. apply lookup_insert_eq.
  - intros old Ho Hd. rewrite Ho, Z.geb_leb.
    destruct (Z.leb_spec (depth old) d); [|lia].
    rewrite Hev. cbn. apply lookup_insert_eq.
  - rewrite H, Z.geb_leb. destruct (Z.leb_spec (depth old) d); [lia|reflexivity].
  - rewrite H, Z.geb_leb. destruct (Z.leb_spec (depth old) d); [lia|exact H].
  - intros k Hk. destruct (TT w !! key) as [old|] eqn:Ho.
    + rewrite Z.geb_leb. destruct (Z.leb_spec (depth old) d); [|reflexivity].
      rewrite Hev. cbn. apply lookup_insert_ne. congruence.
    + rewrite Hev. cbn. apply lookup_insert_ne. congruence.
Qed.

(** *** Where the search stores *)

Lemma bind_inv {A B} (m : M A) (k : A -> M B) w b w' :
  (m ≫= k) w = Ok (b, w') ->
  exists a w1, m w = Ok (a, w1) /\ k a w1 = Ok (b, w').
Proof.
  unfold mbind, M_bind. destruct (m w) as [[a w1]|e]; [eauto|discriminate].
Qed.

Lemma past_inv pc deadline w late w1 :
  past pc deadline w = Ok (late, w1) ->
  TT w1 = TT w /\ TT_STORES w1 = TT_STORES w.
Proof. unfold past, now. cbn. intros [= _ <-]. cbn. auto. Qed.

Lemma tt_probe_table key d a b w :
  TT (snd (_tt_probe key d a b w)) = TT w /\
  TT_STORES (snd (_tt_probe key d a b w)) = TT_STORES w.
Proof.
  unfold _tt_probe.
  repeat match goal with
         | |- context [match ?x with _ => _ end] => destruct x
         | |- context [if ?x then _ else _] => destruct x
         end; cbn; auto.
Qed.

(** A call of [_alphabeta] either leaves the table as it found it, or ends
    with the store of the value it returns, made with the window it was
    called with and not with the window the probe has narrowed. *)
Lemma alphabeta_at_store pc d pos alpha beta deadline w v w' :
  alphabeta_at pc d pos alpha beta deadline w = Ok (v, w') ->
  (TT w' = TT w /\ TT_STORES w' = TT_STORES w) \/
  exists key bm w0, (0 < d)%nat /\ zobrist_key pos = Ok key /\
     w' = _tt_store key (Z.of_nat d) v alpha beta bm w0.
Proof.
  intros H. destruct d as [|d']; cbn [alphabeta_at] in H;
    apply bind_inv in H as (u1 & w1 & H1 & H); injection H1 as _ <-;
    apply bind_inv in H as (late & w2 & H2 & H);
    apply past_inv in H2 as [T2 S2]; cbn in T2, S2;
    (destruct late; [injection H as <- <-; left; split; assumption|]);
    (destruct (winner pos); [injection H as <- <-; left; split; assumption|]).
  - injection H as <- <-; left; split; assumption.
  - apply bind_inv in H as (key & w3 & H3 & H).
    unfold lift in H3.
    destruct (zobrist_key pos) as [k|e] eqn:Hk; [|discriminate].
    injection H3 as <- <-.
    apply bind_inv in H as ([[[hit a1] b1] ev] & w4 & H4 & H).
    unfold run in H4. injection H4 as H4.
    pose proof (tt_probe_table k (Z.of_nat (S d')) alpha beta w2) as [T4 S4].
    rewrite H4 in T4, S4. cbn [snd] in T4, S4.
    destruct ev as [xv|]; [injection H as <- <-; left; split; congruence|].
    destruct (generate_moves pos) as [|m ms];
      [injection H as <- <-; left; split; congruence|].
    apply bind_inv in H as (entry & w5 & H5 & H). injection H5 as _ <-.
    right. exists k.
    destruct (turn pos);
      apply bind_inv in H as ([v' bm] & w6 & _ & H);
      apply bind_inv in H as (u7 & w7 & H7 & H);
      injection H7 as _ <-; injection H as <- <-;
      exists bm, w6; (split; [lia|]); split; reflexivity.
Qed.

(** [_search_depth] ends with the store of the value and move it returns,
    made with the full window it starts from. *)
Lemma search_depth_store pc pos d deadline w mv v w' :
  _search_depth pc pos d deadline w = Ok ((mv, v), w') ->
  w' = w \/
  exists key w0, zobrist_key pos = Ok key /\
    w' = _tt_store key d v (- 10 ^ 18) (10 ^ 18) mv w0.
Proof.
  unfold _search_depth. cbv zeta.
  destruct (generate_moves pos) as [|m ms];
    [intros [= <- <- <-]; left; reflexivity|].
  intros H. apply bind_inv in H as (key & w1 & H1 & H). unfold lift in H1.
  destruct (zobrist_key pos) as [k|e] eqn:Hk; [|discriminate].
  injection H1 as <- <-.
  apply bind_inv in H as (entry & w2 & H2 & H). injection H2 as _ <-.
  apply bind_inv in H as ([bv bm] & w3 & _ & H).
  apply bind_inv in H as (u4 & w4 & H4 & H). injection H4 as _ <-.
  injection H as <- <- <-.
  right. exists k, w3. split; reflexivity.
Qed.

Lemma stored_entry w0 key d v alpha0 beta0 bm :
  Z.of_nat (size (TT w0)) < TT_MAX_SIZE ->
  (forall old, TT w0 !! key = Some old -> depth old <= d) ->
  exists f, classified f v alpha0 beta0 /\
    TT (_tt_store key d v alpha0 beta0 bm w0) !! key
    = Some (mkTTEntry d v f bm).
Proof.
  intros Hsize Hold.
  destruct (tt_store_classifies w0 key d v alpha0 beta0 bm Hsize)
    as (f & Hu & Hl & He & Hnew & Hover & _).
  exists f. split; [split; [exact Hu|split; [exact Hl|exact He]]|].
  destruct (TT w0 !! key) as [old|] eqn:Ho.
  - apply (Hover old eq_refl). apply Hold. reflexivity.
  - apply Hnew. reflexivity.
Qed.

(** C7 (amended). A store classifies the value against the window it is
    given: at or below alpha0 is an upper bound, otherwise at or above beta0
    is a lower bound, otherwise exact. The entry is written when the key is
    absent or the new depth is at least the stored depth, and only then;
    after a write the whole table is dropped if it holds more than
    [TT_MAX_SIZE] entries. The window given is the node's original one: a
    call of [_alphabeta] that touches the table ends with the store of its
    returned value under the alpha and beta it was called with (not those
    the probe has narrowed), and [_search_depth] with the store of its
    returned value under the full window it starts from; in both the entry
    found afterwards carries the flag classified against that window. *)
Theorem tt_store_spec perf_counter :
  (forall w key d v alpha0 beta0 bm,
     Z.of_nat (size (TT w)) < TT_MAX_SIZE ->
     let w' := _tt_store key d v alpha0 beta0 bm w in
     exists f,
       (v <= alpha0 -> f = UPPER) /\
       (alpha0 < v -> beta0 <= v -> f = LOWER) /\
       (alpha0 < v < beta0 -> f = EXACT) /\
       (TT w !! key = None -> TT w' !! key = Some (mkTTEntry d v f bm)) /\
       (forall old, TT w !! key = Some old -> depth old <= d ->
          TT w' !! key = Some (mkTTEntry d v f bm)) /\
       (forall old, TT w !! key = Some old -> d < depth old ->
          w' = w /\ TT w' !! key = Some old) /\
       (forall k, k <> key -> TT w' !! k = TT w !! k)) /\
  (forall pos d alpha beta deadline w v w',
     _alphabeta perf_counter pos d alpha beta deadline w = Ok (v, w') ->
     (TT w' = TT w /\ TT_STORES w' = TT_STORES w) \/
     exists key bm w0,
       0 < d /\ zobrist_key pos = Ok key /\
       w' = _tt_store key d v alpha beta bm w0 /\
       (Z.of_nat (size (TT w0)) < TT_MAX_SIZE ->
        (forall old, TT w0 !! key = Some old -> depth old <= d) ->
        exists f, classified f v alpha beta /\
          TT w' !! key = Some (mkTTEntry d v f bm))) /\
  (forall pos d deadline w mv v w',
     _search_depth perf_counter pos d deadline w = Ok ((mv, v), w') ->
     w' = w \/
     exists key w0,
       zobrist_key pos = Ok key /\
       w' = _tt_store key d v (- 10 ^ 18) (10 ^ 18) mv w0 /\
       (Z.of_nat (size (TT w0)) < TT_MAX_SIZE ->
        (forall old, TT w0 !! key = Some old -> depth old <= d) ->
        exists f, classified f v (- 10 ^ 18) (10 ^ 18) /\
          TT w' !! key = Some (mkTTEntry d v f mv))).
Proof.
  split; [|split].
  - intros w key d v alpha0 beta0 bm Hsize.
    exact (tt_store_classifies w key d v alpha0 beta0 bm Hsize).
  - intros pos d alpha beta deadline w v w' H. unfold _alphabeta in H.
    destruct (alphabeta_at_store _ _ _ _ _ _ _ _ _ H)
      as [Hsame|(key & bm & w0 & Hd & Hk & Hw)]; [left; exact Hsame|].
    right. exists key, bm, w0.
    assert (Hz : Z.of_nat (Z.to_nat d) = d) by lia.
    rewrite Hz in Hw.
    split; [lia|]. split; [exact Hk|]. split; [exact Hw|].
    intros Hsize Hold. subst w'. apply stored_entry; assumption.
  - intros pos d deadline w mv v w' H.
    destruct (search_depth_store _ _ _ _ _ _ _ _ H)
      as [Hsame|(key & w0 & Hk & Hw)]; [left; exact Hsame|].
    right. exists key, w0. split; [exact Hk|]. split; [exact Hw|].
    intros Hsize Hold. subst w'. apply stored_entry; assumption.
Qed.

Lemma tt_store_spec_witness :
  TT (_tt_store 0 1 5 5 10 None empty_world) !! 0
    = Some (mkTTEntry 1 5 UPPER None) /\
  exists v w' key bm w0,
    _alphabeta coarse_clock initial 1 0 100 10%Q narrowed_world
    = Ok (v, w') /\
    v = 6 /\ zobrist_key initial = Ok key /\
    fst (_tt_probe key 1 0 100 narrowed_world) = (true, 10, 100, None) /\
    w' = _tt_store key 1 v 0 100 bm w0 /\
    flag <$> (TT w' !! key) = Some EXACT.
Proof.
  split.
  - destruct (proj1 (tt_store_spec coarse_clock) empty_world 0 1 5 5 10 None
                ltac:(reflexivity))
      as (f & Hu & _ & _ & Hnew & _).
    rewrite <- (Hu ltac:(lia)). apply Hnew. reflexivity.
  - destruct (_alphabeta coarse_clock initial 1 0 100 10%Q narrowed_world)
      as [[v w']|e] eqn:Hrun; [|vm_compute in Hrun; discriminate].
    assert (Hobs : match _alphabeta coarse_clock initial 1 0 100 10%Q
                         narrowed_world with
                   | Ok (v, w') => (TT_STORES w' =? 1) && (v =? 6)
                   | Raise _ => false
                   end = true) by (vm_compute; reflexivity).
    rewrite Hrun in Hobs.
    apply andb_true_iff in Hobs as [Hst Hv].
    destruct (proj1 (proj2 (tt_store_spec coarse_clock))
                initial 1 0 100 10%Q narrowed_world v w' Hrun)
      as [[_ Hsame]|(key & bm & w0 & _ & Hk & Hw & _)].
    { cbn in Hsame. lia. }
    exists v, w', key, bm, w0.
    split; [reflexivity|]. split; [lia|]. split; [exact Hk|].
    assert (Hkey : key = 779075131405342958).
    { assert (Hz : zobrist_key initial = Ok 779075131405342958)
        by (vm_compute; reflexivity).
      congruence. }
    split; [subst key; vm_compute; reflexivity|].
    split; [exact Hw|].
    assert (Hf : match _alphabeta coarse_clock initial 1 0 100 10%Q
                       narrowed_world with
                 | Ok (_, w') =>
                   bool_decide
                     (flag <$> (TT w' !! 779075131405342958) = Some EXACT)
                 | Raise _ => false
                 end = true) by (vm_compute; reflexivity).
    rewrite Hrun in Hf. apply bool_decide_eq_true in Hf.
    subst key. exact Hf.
Defined.

(** A write that pushes the table over its capacity empties it. *)
Lemma tt_store_evicts w key d v alpha0 beta0 bm :
  TT w !! key = None -> Z.of_nat (size (TT w)) >= TT_MAX_SIZE ->
  TT (_tt_store key d v alpha0 beta0 bm w) = ∅.
Proof.
  intros Hn Hs. unfold _tt_store, _tt_maybe_evict. rewrite Hn. cbn.
  rewrite map_size_insert_None by exact Hn.
  destruct (Z.gtb_spec (Z.of_nat (S (size (TT w)))) TT_MAX_SIZE); [reflexivity|lia].
Qed.

(** ** C8: reuse of a stored entry on probe *)

(** C8. A probe uses a stored entry only when the stored depth is at least
    the requested depth. When it does: an exact entry supplies its value; a
    lower-bound entry raises alpha to the maximum of alpha and the stored
    value; an upper-bound entry lowers beta to the minimum of beta and the
    stored value; and for a bound entry the stored value is returned exactly
    when the resulting window is closed. *)
Theorem tt_probe_spec w key d alpha beta hit a' b' val w' :
  _tt_probe key d alpha beta w = ((hit, a', b', val), w') ->
  (hit = true \/ val <> None ->
     exists e, TT w !! key = Some e /\ d <= depth e) /\
  (hit = false -> a' = alpha /\ b' = beta /\ val = None /\ w' = w) /\
  (forall e, TT w !! key = Some e -> d <= depth e ->
     hit = true /\ TT_HITS w' = TT_HITS w + 1 /\ TT w' = TT w /\
     (flag e = EXACT -> val = Some (value e) /\ a' = alpha /\ b' = beta) /\
     (flag e = LOWER ->
        a' = Z.max alpha (value e) /\ b' = beta /\ alpha <= a' /\ value e <= a') /\
     (flag e = UPPER ->
        a' = alpha /\ b' = Z.min beta (value e) /\ b' <= beta /\ b' <= value e) /\
     (flag e <> EXACT ->
        (a' >= b' -> val = Some (value e)) /\ (a' < b' -> val = None))).
Proof.
  unfold _tt_probe. intros H.
  destruct (TT w !! key) as [e|] eqn:He.
  { destruct (Z.ltb_spec (depth e) d) as [Hlt|Hge].
    { inversion H; subst. split; [intros [?|?]; congruence|].
      split; [auto|]. intros e' He' Hd. inversion He'; subst e'. lia. }
    split; [intros _; exists e; split; [reflexivity|lia]|].
    unfold EXACT, LOWER, UPPER in *.
    destruct (Z.eqb_spec (flag e) 0) as [Hx|Hx];
      [|destruct (Z.eqb_spec (flag e) 1) as [Hl|Hl];
        [destruct (Z.geb_spec (Z.max alpha (value e)) beta)
        |destruct (Z.eqb_spec (flag e) 2) as [Hu|Hu];
          [destruct (Z.geb_spec alpha (Z.min beta (value e)))
          |destruct (Z.geb_spec alpha beta)]]];
      inversion H; subst; (split; [discriminate|]);
      intros e' He' _; inversion He'; subst e'; cbn;
      repeat match goal with
             | |- _ /\ _ => split
             | |- _ -> _ => intros ?
             end; try reflexivity; try congruence; try lia. }
  inversion H; subst. split; [intros [?|?]; congruence|].
  split; [auto|]. intros e' He'. discriminate.
Qed.

Lemma tt_probe_spec_witness :
  _tt_probe 7 2 10 30 probe_world = ((true, 40, 30, Some 40), set_TT_HITS 1 probe_world) /\
  exists e, TT probe_world !! 7 = Some e /\ 2 <= depth e.
Proof.
  split; [reflexivity|].
  apply (tt_probe_spec probe_world 7 2 10 30 true 40 30 (Some 40)
           (set_TT_HITS 1 probe_world)); [reflexivity|left; reflexivity].
Defined.

(** ** C9: the static evaluation *)

Lemma sum_over_ext f g s :
  (forall x, f x = g x) -> sum_over f s = sum_over g s.
Proof.
  intros Hfg. unfold sum_over. induction (elements s) as [|x l IH]; cbn;
    [reflexivity|]. rewrite Hfg, IH. reflexivity.
Qed.

Lemma rank_of_step sq : rank_of (sq + 8) = rank_of sq + 1.
Proof.
  unfold rank_of. rewrite !Z.shiftr_div_pow2 by lia.
  change (2 ^ 3) with 8. replace (sq + 8) with (sq + 1 * 8) by lia.
  rewrite Z.div_add by lia. lia.
Qed.

Lemma total_shift f g k (s : gset Z) :
  (forall x, f x = g x + k) ->
  total f s = total g s + k * Z.of_nat (size s).
Proof.
  intros Hfg. unfold total, set_fold, size, set_size. cbn.
  induction (elements s) as [|x l IH]; cbn [foldr length]; [lia|].
  rewrite Hfg, IH. lia.
Qed.

Lemma evaluate_ranks pos :
  evaluate pos
  = 100 * (pawn_count W pos - pawn_count B pos)
    + 3 * (total (rank_from_back W) (white pos)
           - total (rank_from_back B) (black pos)).
Proof.
  unfold evaluate, pawn_count, side, total, set_fold, sum_over. reflexivity.
Qed.

Lemma evaluate_advanced pos :
  evaluate pos
  = 106 * (pawn_count W pos - pawn_count B pos)
    + 3 * (progress W pos - progress B pos).
Proof.
  rewrite evaluate_ranks. unfold progress, pawn_count, side.
  rewrite (total_shift (rank_from_back W) (advanced W) 2)
    by (intros; unfold rank_from_back, advanced; lia).
  rewrite (total_shift (rank_from_back B) (advanced B) 2)
    by (intros; unfold rank_from_back, advanced; lia).
  lia.
Qed.

(** C9, as stated, fails as soon as the two sides differ in number: with
    two unmoved white pawns against one unmoved black pawn no pawn has
    advanced, so the stated formula gives 100, and [evaluate] gives 106. *)
Lemma evaluate_counts_unmoved_pawns :
  evaluate unmoved_pawns = 106 /\ spec_evaluate unmoved_pawns = 100 /\
  progress W unmoved_pawns = 0 /\ progress B unmoved_pawns = 0 /\
  winner unmoved_pawns = None.
Proof. repeat split; vm_compute; reflexivity. Qed.

(** C9 (amended). [evaluate] is 100 times the difference of the pawn counts
    plus 3 times the difference of two sums that add, for each pawn of a
    side, its rank counted from the back rank of that side (r for a white
    pawn on rank r, 9 - r for a black one), which is the rank distance it
    has advanced plus 2. In terms of the distance advanced it is 106 times
    the difference of the counts plus 3 times the difference of the progress
    sums, and it is the formula of the specification exactly when both sides
    have the same number of pawns. It is 0 without pawns, a further white
    pawn on rank r adds 100 + 3 r, and a further black pawn on rank r takes
    off 100 + 3 (9 - r). *)
Theorem evaluate_formula :
  (forall pos,
     evaluate pos
     = 100 * (pawn_count W pos - pawn_count B pos)
       + 3 * (total (rank_from_back W) (white pos)
              - total (rank_from_back B) (black pos))) /\
  (forall c sq, rank_from_back c sq = advanced c sq + 2) /\
  (forall pos,
     evaluate pos
     = 106 * (pawn_count W pos - pawn_count B pos)
       + 3 * (progress W pos - progress B pos)) /\
  (forall pos,
     evaluate pos = spec_evaluate pos
     <-> pawn_count W pos = pawn_count B pos) /\
  (forall sq, advanced W (sq + 8) = advanced W sq + 1) /\
  (forall sq, advanced B (sq - 8) = advanced B sq + 1) /\
  (forall sq, advanced W sq = 0 <-> rank_of sq = 2) /\
  (forall sq, advanced B sq = 0 <-> rank_of sq = 7) /\
  (forall t ep lm, evaluate (mkPosition ∅ ∅ t ep lm) = 0) /\
  (forall w b t ep lm sq, sq ∉ w ->
     evaluate (mkPosition ({[ sq ]} ∪ w) b t ep lm)
     = evaluate (mkPosition w b t ep lm) + (100 + 3 * rank_of sq)) /\
  (forall w b t ep lm sq, sq ∉ b ->
     evaluate (mkPosition w ({[ sq ]} ∪ b) t ep lm)
     = evaluate (mkPosition w b t ep lm) - (100 + 3 * (9 - rank_of sq))).
Proof.
  split; [exact evaluate_ranks|].
  split; [intros [] sq; unfold rank_from_back, advanced; lia|].
  split; [exact evaluate_advanced|].
  split; [intros pos; rewrite evaluate_advanced; unfold spec_evaluate; lia|].
  split; [intros sq; unfold advanced; rewrite rank_of_step; lia|].
  split.
  { intros sq. pose proof (rank_of_step (sq - 8)) as H.
    replace (sq - 8 + 8) with sq in H by lia. unfold advanced. lia. }
  split; [intros sq; unfold advanced; lia|].
  split; [intros sq; unfold advanced; lia|].
  split; [intros; reflexivity|].
  split.
  - intros w b t ep lm sq Hsq. unfold evaluate. cbn [white black]. cbv zeta.
    rewrite sum_over_insert by exact Hsq.
    rewrite size_union by set_solver. rewrite size_singleton.
    unfold rank_of. lia.
  - intros w b t ep lm sq Hsq. unfold evaluate. cbn [white black]. cbv zeta.
    rewrite sum_over_insert by exact Hsq.
    rewrite size_union by set_solver. rewrite size_singleton.
    unfold rank_of. lia.
Qed.

Example evaluate_one_pawn_each :
  evaluate (mkPosition {[ 8 ]} {[ 40 ]} W None None) = 3 * (2 - 3).
Proof. reflexivity. Qed.

(** ** C3: the two move applicators *)



(** ** C6: the position fingerprint *)

(** C6, as stated, fails on the positions that the search produces: the
    child of the initial position by a2-a3 has the same sets, turn and
    (absent) en-passant target under both applicators, yet the two
    fingerprints differ, and the one of the search's child is not the
    specified XOR. *)
Lemma zobrist_key_depends_on_last_move :
  exists p q,
    apply_move initial (Move2 8 16) = Ok p /\
    apply_move_fixed initial (Move2 8 16) = Ok q /\
    white p = white q /\ black p = black q /\ turn p = turn q /\
    ep_target p = ep_target q /\
    zobrist_key p <> zobrist_key q /\
    zobrist_key q <> Ok (zobrist_specified q).
Proof.
  eexists. eexists.
  split; [reflexivity|]. split; [reflexivity|].
  repeat (split; [reflexivity|]).
  split; vm_compute; discriminate.
Qed.

Lemma list_get_in_range {A} (l : list A) (i : Z) (d : A) :
  0 <= i < Z.of_nat (length l) -> list_get l i = Ok (nth (Z.to_nat i) l d).
Proof.
  intros Hi. unfold list_get.
  destruct (Z.ltb_spec i 0); [lia|].
  destruct (Z.leb_spec 0 i); [|lia].
  destruct (Z.ltb_spec i (Z.of_nat (length l))); [|lia]. cbn.
  rewrite (nth_error_nth' l d) by lia. reflexivity.
Qed.

Lemma xor_squares_ok row l k :
  (forall sq, In sq l -> 0 <= sq < Z.of_nat (length row)) ->
  xor_squares row l k
  = Ok (Z.lxor k (xor_all (fun sq => nth (Z.to_nat sq) row 0) l)).
Proof.
  unfold xor_all.
  revert k. induction l as [|sq l IH]; intros k Hl; cbn.
  - rewrite Z.lxor_0_r. reflexivity.
  - rewrite (list_get_in_range row sq 0) by (apply Hl; left; reflexivity).
    cbn. rewrite IH by (intros; apply Hl; right; assumption).
    rewrite Z.lxor_assoc. reflexivity.
Qed.

Lemma xor_all_perm f l l' : l ≡ₚ l' -> xor_all f l = xor_all f l'.
Proof.
  unfold xor_all.
  induction 1 as [|x l l' _ IH|x y l|l l' l'' _ IH1 _ IH2]; cbn.
  - reflexivity.
  - rewrite IH. reflexivity.
  - rewrite <- !Z.lxor_assoc, (Z.lxor_comm (f y)). reflexivity.
  - congruence.
Qed.

Lemma zobrist_key_value p ws bs :
  on_board p -> ws ≡ₚ elements (white p) -> bs ≡ₚ elements (black p) ->
  zobrist_key p = Ok (zobrist_value ws bs p).
Proof.
  intros Hrng Hws Hbs. unfold zobrist_key.
  rewrite xor_squares_ok.
  2:{ intros sq Hsq. change (length (nth 0 Z_PIECE [])) with 64%nat.
      apply Hrng. apply elem_of_union_l, elem_of_elements.
      apply list_elem_of_In. exact Hsq. }
  cbn [mbind res_bind rbind]. rewrite xor_squares_ok.
  2:{ intros sq Hsq. change (length (nth 1 Z_PIECE [])) with 64%nat.
      apply Hrng. apply elem_of_union_r, elem_of_elements.
      apply list_elem_of_In. exact Hsq. }
  cbn [mbind res_bind rbind]. f_equal.
  unfold zobrist_value, _extract_ep_like_state, ep_const, lm_const, turn_const.
  rewrite Z.lxor_0_l.
  rewrite (xor_all_perm (piece_const 0) ws (elements (white p))) by exact Hws.
  rewrite (xor_all_perm (piece_const 1) bs (elements (black p))) by exact Hbs.
  fold (piece_const 0). fold (piece_const 1).
  destruct (turn p), (ep_target p) as [v|], (last_move p) as [m|];
    try destruct ((0 <=? v) && (v <? 64));
    rewrite ?Z.lxor_0_r; reflexivity.
Qed.

(** C6 (amended). For a position on the board, [zobrist_key] is the XOR of
    the constant of each occupied square of each colour (in any order of
    enumeration), of the turn constant when white is to move, and of one
    further constant: the one keyed by [ep_target] when it is present, and
    otherwise the one keyed by the attached [last_move] when there is one.
    Two positions with equal sets, turn and en-passant target hash equal when
    that target is present or their attached last moves are equal. *)
Theorem zobrist_key_spec p ws bs :
  on_board p ->
  ws ≡ₚ elements (white p) -> bs ≡ₚ elements (black p) ->
  zobrist_key p = Ok (zobrist_value ws bs p) /\
  forall q, white q = white p -> black q = black p -> turn q = turn p ->
    ep_target q = ep_target p ->
    ep_target p <> None \/ last_move q = last_move p ->
    zobrist_key q = zobrist_key p.
Proof.
  intros Hrng Hws Hbs.
  split; [apply zobrist_key_value; assumption|].
  intros q Hw Hb Ht He Hx.
  rewrite (zobrist_key_value p ws bs) by assumption.
  rewrite (zobrist_key_value q ws bs)
    by (unfold on_board; rewrite ?Hw, ?Hb; assumption).
  f_equal. unfold zobrist_value. rewrite Ht, He.
  destruct (ep_target p); [reflexivity|].
  destruct Hx as [Hx|Hx]; [congruence|]. rewrite Hx. reflexivity.
Qed.

Lemma zobrist_key_spec_witness :
  zobrist_key initial
  = Ok (zobrist_value (elements (white initial)) (elements (black initial)) initial).
Proof.
  apply (zobrist_key_spec initial); [compute_done|reflexivity|reflexivity].
Defined.

End AgentFacts.

(* ===================================================================== *)
(** ** Facts about the search                                             *)
(* ===================================================================== *)

Module SearchFacts.
Import Agent Props GameFacts AgentFacts.

Lemma returns_ret {A} (a : A) (Q : A -> Prop) :
  Q a -> returns (mret (M:=M) a) Q.
Proof. intros H w. exists a, w. split; [reflexivity|exact H]. Qed.

Lemma returns_bind {A B} (m : M A) (k : A -> M B) (P : A -> Prop) (Q : B -> Prop) :
  returns m P -> (forall a, P a -> returns (k a) Q) ->
  returns (mbind (M:=M) k m) Q.
Proof.
  intros Hm Hk w. destruct (Hm w) as (a & w1 & E & Ha).
  destruct (Hk a Ha w1) as (b & w2 & E2 & Hb).
  exists b, w2. unfold mbind, M_bind. rewrite E. split; assumption.
Qed.

Lemma returns_weaken {A} (m : M A) (P Q : A -> Prop) :
  returns m P -> (forall a, P a -> Q a) -> returns m Q.
Proof.
  intros Hm HPQ w. destruct (Hm w) as (a & w' & E & Ha). eauto.
Qed.

Lemma returns_lift {A} (r : res A) (a : A) (Q : A -> Prop) :
  r = Ok a -> Q a -> returns (lift r) Q.
Proof. intros -> H w. exists a, w. split; [reflexivity|exact H]. Qed.

Lemma returns_get {A} (f : World -> A) : returns (get f) (fun _ => True).
Proof. intros w. exists (f w), w. split; [reflexivity|exact I]. Qed.

Lemma returns_modify f : returns (modify f) (fun _ => True).
Proof. intros w. exists tt, (f w). split; [reflexivity|exact I]. Qed.

Lemma returns_run {A} (f : World -> A * World) : returns (run f) (fun _ => True).
Proof. intros w. destruct (f w) as [a w'] eqn:E. exists a, w'. unfold run. rewrite E. auto. Qed.

Section Clock.
Variable perf_counter : nat -> Q.

Lemma returns_now : returns (now perf_counter) (fun _ => True).
Proof. intros w. eexists. eexists. split; [reflexivity|exact I]. Qed.

Lemma returns_past deadline : returns (past perf_counter deadline) (fun _ => True).
Proof.
  unfold past. eapply returns_bind; [apply returns_now|].
  intros t _. apply returns_ret. exact I.
Qed.
End Clock.

(** *** Children of a position on the board stay on the board *)

Lemma apply_move_fixed_on_board p mv :
  on_board p -> In mv (generate_moves p) ->
  exists q, apply_move_fixed p mv = Ok q /\ on_board q.
Proof.
  intros Hp Hmv. apply generate_moves_shape in Hmv.
  destruct Hmv as (Hsrc & _ & Hdst & _).
  destruct (apply_move_ok p mv Hsrc) as (q & Hq & _ & _ & _ & Hopp & Hpawns).
  unfold apply_move_fixed. rewrite Hq. cbn [mbind res_bind rbind].
  eexists. split; [reflexivity|].
  assert (Hsub : forall sq, sq ∈ white q ∪ black q ->
                 sq = dst mv \/ sq ∈ white p ∪ black p).
  { intros sq Hsq. unfold pawns_of, opp_of in *.
    destruct (mem (dst mv) _), (turn p), (turn q); set_solver. }
  intros sq Hsq.
  assert (Hin : sq ∈ white q ∪ black q).
  { destruct (is_ep mv), (turn p); cbn in Hsq; set_solver. }
  destruct (Hsub sq Hin) as [->|H]; [exact Hdst|exact (Hp sq H)].
Qed.

(** *** Move ordering keeps the moves *)

Lemma in_list_remove x y l : In y (list_remove x l) -> In y l.
Proof.
  induction l as [|z l IH]; cbn; [tauto|].
  destruct (bool_decide (x = z)); cbn; tauto.
Qed.

Lemma in_ordered pos entry l mv :
  In mv (tt_move_first entry (sort_captures_first pos l)) -> In mv l.
Proof.
  assert (Hs : forall m, In m (sort_captures_first pos l) -> In m l).
  { intros m Hm. unfold sort_captures_first in Hm.
    apply in_app_or in Hm. destruct Hm as [Hm|Hm];
      apply filter_In in Hm; apply Hm. }
  unfold tt_move_first.
  destruct entry as [e|]; [|apply Hs].
  destruct (best_move e) as [bm|]; [|apply Hs].
  destruct (bool_decide (bm ∈ sort_captures_first pos l)) eqn:E; [|apply Hs].
  apply bool_decide_eq_true in E. apply list_elem_of_In in E.
  intros [<-|Hm]; [apply Hs, E|]. apply Hs. eapply in_list_remove, Hm.
Qed.

(** *** The search returns *)

Section Returns.
Variable perf_counter : nat -> Q.

Let any {A} : A -> Prop := fun _ => True.

Ltac bind_with lem := eapply returns_bind; [lem|].

Section Loops.
Variable child : Position -> Z -> Z -> M Z.
Variable pos : Position.
Variable deadline : Q.
Hypothesis pos_on_board : on_board pos.
Hypothesis child_returns :
  forall p a b, on_board p -> returns (child p a b) any.

Lemma max_loop_returns moves :
  (forall mv, In mv moves -> In mv (generate_moves pos)) ->
  forall v best alpha beta,
    returns (max_loop perf_counter child pos deadline moves v best alpha beta) any.
Proof.
  induction moves as [|mv rest IH]; intros Hlegal v best alpha beta;
    cbn [max_loop].
  { apply returns_ret. exact I. }
  bind_with ltac:(apply returns_past). intros [|] _.
  { apply returns_ret. exact I. }
  destruct (apply_move_fixed_on_board pos mv pos_on_board) as (q & Hq & Hob).
  { apply Hlegal. left. reflexivity. }
  bind_with ltac:(apply (returns_lift _ q (fun p => p = q) Hq eq_refl)).
  intros p ->. bind_with ltac:(apply child_returns; exact Hob).
  intros c _.
  destruct (c >? v); cbn;
    (destruct (beta <=? _);
     [apply returns_ret; exact I
     |apply IH; intros; apply Hlegal; right; assumption]).
Qed.

Lemma min_loop_returns moves :
  (forall mv, In mv moves -> In mv (generate_moves pos)) ->
  forall v best alpha beta,
    returns (min_loop perf_counter child pos deadline moves v best alpha beta) any.
Proof.
  induction moves as [|mv rest IH]; intros Hlegal v best alpha beta;
    cbn [min_loop].
  { apply returns_ret. exact I. }
  bind_with ltac:(apply returns_past). intros [|] _.
  { apply returns_ret. exact I. }
  destruct (apply_move_fixed_on_board pos mv pos_on_board) as (q & Hq & Hob).
  { apply Hlegal. left. reflexivity. }
  bind_with ltac:(apply (returns_lift _ q (fun p => p = q) Hq eq_refl)).
  intros p ->. bind_with ltac:(apply child_returns; exact Hob).
  intros c _.
  destruct (c <? v); cbn;
    (destruct (_ <=? alpha);
     [apply returns_ret; exact I
     |apply IH; intros; apply Hlegal; right; assumption]).
Qed.
End Loops.

Lemma zobrist_key_returns p :
  on_board p -> exists k, zobrist_key p = Ok k.
Proof.
  intros Hp. eexists.
  apply (zobrist_key_value p (elements (white p)) (elements (black p)));
    [exact Hp|reflexivity|reflexivity].
Qed.

Lemma alphabeta_at_returns d :
  forall pos alpha beta deadline,
    on_board pos ->
    returns (alphabeta_at perf_counter d pos alpha beta deadline) any.
Proof.
  induction d as [|d IH]; intros pos alpha beta deadline Hp;
    cbn [alphabeta_at];
    (bind_with ltac:(apply returns_modify)); intros _ _;
    (bind_with ltac:(apply returns_past)); intros [|] _;
    try (apply returns_ret; exact I);
    (destruct (winner pos); [apply returns_ret; exact I|]).
  { apply returns_ret. exact I. }
  destruct (zobrist_key_returns pos Hp) as (key & Hkey).
  bind_with ltac:(apply (returns_lift _ key (fun k => k = key) Hkey eq_refl)).
  intros k ->. bind_with ltac:(apply returns_run).
  intros [[[hit a'] b'] [x|]] _; [apply returns_ret; exact I|].
  destruct (generate_moves pos) as [|m0 ms] eqn:Hgen;
    [apply returns_ret; exact I|].
  bind_with ltac:(apply returns_get). intros entry _.
  rewrite <- Hgen.
  destruct (turn pos).
  - bind_with ltac:(apply max_loop_returns;
                    [exact Hp|intros; apply IH; assumption
                    |intros mv; apply in_ordered]).
    intros [v bm] _. bind_with ltac:(apply returns_modify).
    intros _ _. apply returns_ret. exact I.
  - bind_with ltac:(apply min_loop_returns;
                    [exact Hp|intros; apply IH; assumption
                    |intros mv; apply in_ordered]).
    intros [v bm] _. bind_with ltac:(apply returns_modify).
    intros _ _. apply returns_ret. exact I.
Qed.

(** The best move of the root loop is the one it started from or one of
    the moves it was given. *)
Lemma root_loop_returns pos depth' deadline maximizing moves :
  on_board pos ->
  (forall mv, In mv moves -> In mv (generate_moves pos)) ->
  forall best_val best_mv alpha beta,
    returns (root_loop perf_counter pos depth' deadline maximizing moves
               best_val best_mv alpha beta)
            (fun r => snd r = best_mv \/ exists m, snd r = Some m /\ In m moves).
Proof.
  intros Hp. induction moves as [|mv rest IH];
    intros Hlegal best_val best_mv alpha beta; cbn [root_loop].
  { apply returns_ret. left. reflexivity. }
  bind_with ltac:(apply returns_past). intros [|] _.
  { apply returns_ret. left. reflexivity. }
  destruct (apply_move_fixed_on_board pos mv Hp) as (q & Hq & Hob).
  { apply Hlegal. left. reflexivity. }
  bind_with ltac:(apply (returns_lift _ q (fun p => p = q) Hq eq_refl)).
  intros p ->.
  bind_with ltac:(apply alphabeta_at_returns; exact Hob).
  intros val _.
  assert (Hrest : forall bv bm a b,
    bm = best_mv \/ bm = Some mv ->
    returns (root_loop perf_counter pos depth' deadline maximizing rest bv bm a b)
      (fun r => snd r = best_mv \/ exists m, snd r = Some m /\ In m (mv :: rest))).
  { intros bv bm a b Hbm. eapply returns_weaken.
    - apply IH. intros; apply Hlegal; right; assumption.
    - intros r [Hr|(m & Hr & Hm)].
      + rewrite Hr. destruct Hbm as [->| ->]; [left; reflexivity|].
        right. exists mv. split; [reflexivity|left; reflexivity].
      + right. exists m. split; [exact Hr|right; exact Hm]. }
  destruct maximizing;
    [destruct (val >? best_val)|destruct (val <? best_val)]; cbn;
    (destruct (_ <=? _);
     [apply returns_ret; cbn;
      first [left; reflexivity
            |right; exists mv; split; [reflexivity|left; reflexivity]]
     |apply Hrest; auto]).
Qed.

Lemma search_depth_returns pos depth' deadline :
  on_board pos \/ generate_moves pos = [] ->
  returns (_search_depth perf_counter pos depth' deadline)
          (fun r => forall m, fst r = Some m -> In m (generate_moves pos)).
Proof.
  intros Hp. unfold _search_depth.
  destruct (generate_moves pos) as [|m0 ms] eqn:Hgen.
  { apply returns_ret. cbn. discriminate. }
  destruct Hp as [Hp|Hp]; [|discriminate].
  destruct (zobrist_key_returns pos Hp) as (key & Hkey).
  bind_with ltac:(apply (returns_lift _ key (fun k => k = key) Hkey eq_refl)).
  intros k ->. bind_with ltac:(apply returns_get). intros entry _.
  rewrite <- Hgen.
  bind_with ltac:(apply root_loop_returns;
                  [exact Hp|intros mv; apply in_ordered]).
  intros [bv bm] Hbm. cbn in Hbm.
  bind_with ltac:(apply returns_modify). intros _ _.
  apply returns_ret. cbn. intros m ->.
  destruct Hbm as [Hbm|(m' & Hbm & Hm')]; [discriminate|].
  injection Hbm as <-. eapply in_ordered, Hm'.
Qed.

Lemma deepen_returns n pos :
  on_board pos \/ generate_moves pos = [] ->
  forall depth' deadline best,
    (forall m, best = Some m -> In m (generate_moves pos)) ->
    returns (deepen perf_counter n pos depth' deadline best)
            (fun r => forall m, r = Some m -> In m (generate_moves pos)).
Proof.
  intros Hp. induction n as [|n IH]; intros depth' deadline best Hbest;
    cbn [deepen].
  { apply returns_ret. exact Hbest. }
  bind_with ltac:(apply returns_past). intros [|] _.
  { apply returns_ret. exact Hbest. }
  bind_with ltac:(apply search_depth_returns; exact Hp).
  intros [mv v] Hmv. cbn in Hmv. apply IH.
  destruct mv as [m'|]; [|exact Hbest].
  intros m [= <-]. apply Hmv. reflexivity.
Qed.

Lemma choose_move_iterdeep_returns pos time_left_sec max_depth :
  on_board pos -> generate_moves pos <> [] ->
  returns (choose_move_iterdeep perf_counter pos time_left_sec max_depth)
          (fun mv => In mv (generate_moves pos)).
Proof.
  intros Hp Hne. unfold choose_move_iterdeep.
  bind_with ltac:(apply returns_now). intros start _.
  bind_with ltac:(apply returns_modify). intros _ _.
  bind_with ltac:(apply deepen_returns; [left; exact Hp|discriminate]).
  intros [m|] Hbest.
  - apply returns_ret. apply Hbest. reflexivity.
  - destruct (generate_moves pos) as [|m0 ms]; [congruence|].
    apply returns_ret. left. reflexivity.
Qed.

Lemma choose_move_iterdeep_raises pos time_left_sec max_depth w :
  generate_moves pos = [] ->
  choose_move_iterdeep perf_counter pos time_left_sec max_depth w
  = Raise RuntimeError.
Proof.
  intros Hgen.
  assert (Hd : forall deadline, returns
    (deepen perf_counter (Z.to_nat max_depth) pos 1 deadline None)
    (fun r => r = None)).
  { intros deadline. eapply returns_weaken.
    - apply deepen_returns; [right; exact Hgen|discriminate].
    - intros [m|] H; [|reflexivity].
      specialize (H m eq_refl). rewrite Hgen in H. destruct H. }
  unfold choose_move_iterdeep, mbind, M_bind, now, modify.
  match goal with
  | |- context [deepen ?pc ?n ?p ?dp ?dl ?b ?w'] =>
      destruct (Hd dl w') as (r & w2 & -> & ->)
  end.
  rewrite Hgen. reflexivity.
Qed.

End Returns.

(** ** C1: the chosen move is legal, and no legal move is an error *)

(** C1. Whatever the clock readings, the remaining-time argument (a value
    or none), the depth limit and the state of the table: on a position
    without legal moves [choose_move_iterdeep] raises the "No legal moves"
    error, and on a position with at least one legal move it returns a move
    that [generate_moves] yields for that position. The position is one of
    the data model, with all its squares in [0,64): the fingerprint looks the
    squares up in [Z_PIECE]. *)
Theorem choose_move_iterdeep_legal perf_counter pos time_left_sec max_depth w :
  (generate_moves pos = [] ->
   choose_move_iterdeep perf_counter pos time_left_sec max_depth w
   = Raise RuntimeError) /\
  (on_board pos -> generate_moves pos <> [] ->
   exists mv w',
     choose_move_iterdeep perf_counter pos time_left_sec max_depth w
     = Ok (mv, w') /\ In mv (generate_moves pos)).
Proof.
  split.
  - apply choose_move_iterdeep_raises.
  - intros Hp Hne.
    exact (choose_move_iterdeep_returns perf_counter pos time_left_sec
             max_depth Hp Hne w).
Qed.

Lemma choose_move_iterdeep_legal_witness :
  choose_move_iterdeep coarse_clock blocked_position (Some 10%Q) 64 empty_world
    = Raise RuntimeError /\
  exists mv w',
    choose_move_iterdeep coarse_clock initial None 64 empty_world = Ok (mv, w') /\
    In mv (generate_moves initial).
Proof.
  split.
  - apply (proj1 (choose_move_iterdeep_legal coarse_clock blocked_position
                    (Some 10%Q) 64 empty_world)).
    vm_compute. reflexivity.
  - apply (proj2 (choose_move_iterdeep_legal coarse_clock initial None 64
                    empty_world)).
    + compute_done.
    + vm_compute. discriminate.
Defined.

(** With fifteen readings before the deadline the search settles on the
    double step a2-a4; with the deadline already passed at the first check
    it falls back to the first generated move, a2-a3. *)
Example choose_move_initial :
  fst <$> match choose_move_iterdeep coarse_clock initial None 64 empty_world with
          | Ok r => Some r | Raise _ => None end
  = Some (mkMove 8 24 false true) /\
  fst <$> match choose_move_iterdeep (fun n => Z.of_nat n # 1) initial None 64
                  empty_world with
          | Ok r => Some r | Raise _ => None end
  = Some (Move2 8 16).
Proof. split; vm_compute; reflexivity. Qed.

End SearchFacts.

(* ===================================================================== *)
(** ** Further facts about the rules                                      *)
(* ===================================================================== *)

Module RulesFacts.
Import Agent Props MoreProps GameFacts.

Lemma pawn_moves_legal p s mv :
  s ∈ pawns_of p -> In mv (pawn_moves p s) -> legal p mv.
Proof.
  intros Hs H. unfold pawn_moves in H. cbv zeta in H.
  destruct (turn p) eqn:Ht, (ep_target p) as [ep|] eqn:Hep;
    cbn [flat_map app] in H; split_conds; subst mv.
  all: try match goal with
       | |- legal _ (Move2 ?s (?s + ?d)) =>
         first
           [ replace d with (fwd_of p) by (unfold fwd_of; rewrite Ht; reflexivity);
             apply legal_single;
             unfold fwd_of, occupied; rewrite ?Ht; auto; lia
           | apply legal_capture;
             unfold cap_deltas_of, opp_of; rewrite ?Ht; cbn; auto; lia ]
       | |- legal _ (mkMove ?s (?s + 2 * ?d) false true) =>
         replace d with (fwd_of p) by (unfold fwd_of; rewrite Ht; reflexivity);
         apply legal_double;
         unfold fwd_of, start_rank_of, occupied; rewrite ?Ht; auto; lia
       | |- legal _ (mkMove ?s (?s + ?d) true false) =>
         apply legal_en_passant;
         unfold cap_deltas_of, opp_of, fwd_of, occupied; rewrite ?Ht;
         cbn; auto; try lia; try congruence
       end.
Qed.

Lemma legal_pawn_moves p mv : legal p mv -> In mv (pawn_moves p (src mv)).
Proof.
  intros H. unfold pawn_moves. cbv zeta.
  destruct H as [s Hs Hr Hfree|s Hs Hrank Hr Hfree Hr2 Hfree2
                |s d Hs Hd Hr Hf Hopp|s d Hs Hd Hep Hr Hf Hcap Hfree];
    unfold Move2; cbn [src]; unfold fwd_of, start_rank_of, cap_deltas_of, opp_of in *;
    apply in_range_true in Hr; try apply in_range_true in Hr2;
    try apply mem_false in Hfree; try apply mem_false in Hfree2;
    try apply mem_true in Hopp; try apply mem_true in Hcap;
    try apply Z.eqb_eq in Hf; try apply Z.eqb_eq in Hrank.
  - apply in_or_app. left.
    destruct (turn p); cbv beta iota in *; rewrite Hr, Hfree; left; reflexivity.
  - apply in_or_app. left.
    destruct (turn p); cbv beta iota in *; rewrite Hr, Hfree, Hrank, Hr2, Hfree2;
      right; left; reflexivity.
  - apply in_or_app. right. apply in_or_app. left.
    apply in_flat_map. exists d.
    destruct (turn p); cbv beta iota in *; (split; [exact Hd|]); rewrite Hr, Hf, Hopp;
      left; reflexivity.
  - apply in_or_app. right. apply in_or_app. right. rewrite Hep.
    apply in_flat_map. exists d.
    destruct (turn p); cbv beta iota in *; (split; [exact Hd|]);
      rewrite Z.eqb_refl, Hr, Hf, Hcap, Hfree; left; reflexivity.
Qed.

Lemma legal_src p mv : legal p mv -> src mv ∈ pawns_of p.
Proof. destruct 1; assumption. Qed.

(** *** Legality, independent of the order of generation *)

Lemma in_generate_moves p mv :
  In mv (generate_moves p) <-> legal p mv.
Proof.
  split.
  - unfold generate_moves. intros H. apply in_flat_map in H.
    destruct H as (s & Hs & Hmv). apply in_sorted in Hs.
    exact (pawn_moves_legal p s mv Hs Hmv).
  - intros H. unfold generate_moves. apply in_flat_map.
    exists (src mv). split.
    + apply in_sorted. exact (legal_src p mv H).
    + exact (legal_pawn_moves p mv H).
Qed.

(** A move is yielded by [generate_moves] exactly when it is a single
    step, a double step, a capture or an en-passant capture of a pawn of the
    side to move, under the conditions of [legal]. *)
Theorem generate_moves_legal p mv :
  In mv (generate_moves p) <-> legal p mv.
Proof. exact (in_generate_moves p mv). Qed.

(** *** Files and ranks *)

Lemma file_rank sq : file_of sq = sq mod 8 /\ rank_of sq = sq / 8 + 1.
Proof.
  unfold file_of, rank_of. split.
  - change 7 with (Z.ones 3). rewrite Z.land_ones by lia. reflexivity.
  - rewrite Z.shiftr_div_pow2 by lia. reflexivity.
Qed.

Ltac to_div_mod :=
  repeat match goal with
         | H : context [file_of ?x] |- _ =>
             rewrite (proj1 (file_rank x)) in H
         | H : context [rank_of ?x] |- _ =>
             rewrite (proj2 (file_rank x)) in H
         | |- context [file_of ?x] => rewrite (proj1 (file_rank x))
         | |- context [rank_of ?x] => rewrite (proj2 (file_rank x))
         end.

Ltac div_mod_lia := to_div_mod; Z.to_euclidean_division_equations; lia.

(** *** The geometry of a legal move *)

Lemma legal_geometry p mv :
  legal p mv ->
  rank_of (dst mv)
    = rank_of (src mv) + dir_of p * (if is_double mv then 2 else 1) /\
  Z.abs (file_of (dst mv) - file_of (src mv))
    = (if _is_capture p mv then 1 else 0) /\
  (is_double mv = true -> rank_of (src mv) = start_rank_of p).
Proof.
  intros H. unfold _is_capture, dir_of.
  destruct H as [s Hs Hr Hfree|s Hs Hrank Hr Hfree Hr2 Hfree2
                |s d Hs Hd Hr Hf Hopp|s d Hs Hd Hep Hr Hf Hcap Hfree];
    unfold Move2; cbn [src dst is_ep is_double orb];
    unfold fwd_of, start_rank_of, cap_deltas_of, opp_of, occupied in *.
  - assert (Hm : mem (s + match turn p with W => 8 | B => -8 end)
                   (match turn p with W => black p | B => white p end) = false).
    { apply mem_false. destruct (turn p); set_solver. }
    rewrite Hm. destruct (turn p); (split; [|split]);
      try discriminate; div_mod_lia.
  - assert (Hm : mem (s + 2 * match turn p with W => 8 | B => -8 end)
                   (match turn p with W => black p | B => white p end) = false).
    { apply mem_false. destruct (turn p); set_solver. }
    rewrite Hm. destruct (turn p); (split; [|split]);
      try (intros _; exact Hrank); div_mod_lia.
  - apply mem_true in Hopp. rewrite Hopp.
    destruct (turn p); cbn in Hd; (split; [|split]); try discriminate;
      try exact Hf; destruct Hd as [<-|[<-|[]]]; div_mod_lia.
  - destruct (turn p); cbn in Hd; (split; [|split]); try discriminate;
      try exact Hf; destruct Hd as [<-|[<-|[]]]; div_mod_lia.
Qed.

(** Every generated move goes one rank towards promotion, two for a double
    step, which starts from the start rank; it changes file, by one, exactly
    when [_is_capture] counts it as a capture; and it lands on the board. *)
Theorem generated_move_geometry p mv :
  In mv (generate_moves p) ->
  src mv ∈ pawns_of p /\ 0 <= dst mv < 64 /\
  rank_of (dst mv)
    = rank_of (src mv) + dir_of p * (if is_double mv then 2 else 1) /\
  Z.abs (file_of (dst mv) - file_of (src mv))
    = (if _is_capture p mv then 1 else 0) /\
  (is_double mv = true -> rank_of (src mv) = start_rank_of p).
Proof.
  intros H. pose proof (generate_moves_shape p mv H) as (Hs & _ & Hd & _).
  split; [exact Hs|]. split; [exact Hd|].
  apply legal_geometry, in_generate_moves, H.
Qed.

(** *** [infer_move] gives back the flags of a legal move *)

Lemma infer_move_of_legal p mv :
  legal p mv -> GameText.infer_move p (src mv) (dst mv) = Ok mv.
Proof.
  intros H. pose proof (legal_geometry p mv H) as (_ & Hfile & _).
  unfold GameText.infer_move. cbv zeta.
  assert (Hsrc : mem (src mv) (match turn p with W => white p | B => black p end) = true).
  { apply mem_true. exact (legal_src p mv H). }
  rewrite Hsrc. cbn [negb]. f_equal.
  unfold _is_capture in Hfile.
  destruct H as [s Hs Hr Hfree|s Hs Hrank Hr Hfree Hr2 Hfree2
                |s d Hs Hd Hr Hf Hopp|s d Hs Hd Hep Hr Hf Hcap Hfree];
    unfold Move2 in *; cbn [src dst is_ep is_double orb] in *;
    unfold fwd_of, start_rank_of, cap_deltas_of, opp_of in *.
  - assert (Hm : mem (s + match turn p with W => 8 | B => -8 end)
                   (match turn p with W => black p | B => white p end) = false).
    { apply mem_false. unfold occupied in Hfree. destruct (turn p); set_solver. }
    rewrite Hm in Hfile. cbv iota in Hfile.
    rewrite (proj2 (Z.eqb_neq _ 1)) by lia.
    rewrite andb_false_r.
    replace (s + _ - s =? _) with false
      by (symmetry; apply Z.eqb_neq; destruct (turn p); lia).
    destruct (ep_target p) as [ep|]; [destruct (_ =? ep)|]; reflexivity.
  - assert (Hm : mem (s + 2 * match turn p with W => 8 | B => -8 end)
                   (match turn p with W => black p | B => white p end) = false).
    { apply mem_false. unfold occupied in Hfree2. destruct (turn p); set_solver. }
    rewrite Hm in Hfile. cbv iota in Hfile.
    rewrite (proj2 (Z.eqb_neq _ 1)) by lia.
    rewrite andb_false_r.
    replace (s + _ - s =? _) with true
      by (symmetry; apply Z.eqb_eq; lia).
    rewrite (proj2 (Z.eqb_eq _ _) Hrank).
    apply mem_false in Hfree, Hfree2. rewrite Hfree, Hfree2. cbn.
    destruct (ep_target p) as [ep|]; [destruct (_ =? ep)|]; reflexivity.
  - assert (Hocc : mem (s + d) (occupied p) = true).
    { apply mem_true. unfold occupied. destruct (turn p); set_solver. }
    rewrite Hocc. cbn [negb andb].
    replace (s + d - s =? _) with false
      by (symmetry; apply Z.eqb_neq; destruct (turn p); cbn in Hd;
          destruct Hd as [<-|[<-|[]]]; lia).
    cbn. destruct (ep_target p) as [ep|]; [destruct (_ =? ep)|]; reflexivity.
  - rewrite Hep, Z.eqb_refl. apply mem_false in Hfree. rewrite Hfree.
    rewrite (proj2 (Z.eqb_eq _ _) Hf).
    replace (s + d - s =? _) with false
      by (symmetry; apply Z.eqb_neq; destruct (turn p); cbn in Hd;
          destruct Hd as [<-|[<-|[]]]; lia).
    reflexivity.
Qed.

(** Two legal moves with the same source and destination are the same. *)
Lemma legal_determined p m m' :
  legal p m -> legal p m' -> src m = src m' -> dst m = dst m' -> m = m'.
Proof.
  intros H H' Hs Hd.
  pose proof (infer_move_of_legal p m H) as E.
  pose proof (infer_move_of_legal p m' H') as E'.
  rewrite Hs, Hd in E. congruence.
Qed.

(** *** The order of generation *)

Lemma StronglySorted_app_le (l1 l2 : list Z) :
  StronglySorted Z.le l1 -> StronglySorted Z.le l2 ->
  (forall a b, In a l1 -> In b l2 -> a <= b) ->
  StronglySorted Z.le (l1 ++ l2).
Proof.
  intros H1 H2 H. induction H1 as [|a l1 Hs IH Hall]; cbn; [exact H2|].
  constructor.
  - apply IH. intros; apply H; [right|]; assumption.
  - apply Forall_app. split; [exact Hall|].
    apply Forall_forall. intros b Hb. apply list_elem_of_In in Hb.
    apply H; [left; reflexivity|exact Hb].
Qed.

Lemma StronglySorted_const (x : Z) (l : list Z) :
  (forall a, In a l -> a = x) -> StronglySorted Z.le l.
Proof.
  induction l as [|a l IH]; intros H; constructor.
  - apply IH. intros; apply H; right; assumption.
  - apply Forall_forall. intros b Hb. apply list_elem_of_In in Hb.
    rewrite (H a (or_introl eq_refl)), (H b (or_intror Hb)). lia.
Qed.

Lemma pawn_moves_src p s mv : In mv (pawn_moves p s) -> src mv = s.
Proof. intros H. apply pawn_moves_shape in H. apply H. Qed.

Lemma flat_map_sorted_by_src p (l : list Z) :
  StronglySorted Z.le l ->
  StronglySorted Z.le (map src (flat_map (pawn_moves p) l)).
Proof.
  induction 1 as [|x l Hs IH Hall]; cbn; [constructor|].
  rewrite map_app. apply StronglySorted_app_le.
  - apply (StronglySorted_const x). intros a Ha.
    apply in_map_iff in Ha. destruct Ha as (m & <- & Hm).
    exact (pawn_moves_src p x m Hm).
  - exact IH.
  - intros a b Ha Hb.
    apply in_map_iff in Ha. destruct Ha as (m & <- & Hm).
    apply in_map_iff in Hb. destruct Hb as (m' & <- & Hm').
    apply in_flat_map in Hm'. destruct Hm' as (y & Hy & Hm').
    rewrite (pawn_moves_src p x m Hm), (pawn_moves_src p y m' Hm').
    rewrite Forall_forall in Hall. apply Hall. apply list_elem_of_In, Hy.
Qed.

Lemma pawn_moves_all_NoDup p s : NoDup (pawn_moves_all p s).
Proof.
  unfold pawn_moves_all, fwd_of, cap_deltas_of, Move2.
  destruct (turn p); cbn;
    repeat (constructor;
            [rewrite !list_elem_of_In || idtac; cbn;
             intros H; repeat (destruct H as [H|H]; try (injection H; lia));
             try discriminate; try contradiction|]);
    constructor.
Qed.

Lemma pawn_moves_sublist p s : sublist (pawn_moves p s) (pawn_moves_all p s).
Proof.
  unfold pawn_moves, pawn_moves_all. cbv zeta.
  apply sublist_app; [|apply sublist_app].
  - unfold fwd_of. destruct (turn p);
      repeat match goal with
             | |- context [if ?c then _ else _] => destruct c
             end; repeat constructor.
  - unfold cap_deltas_of, opp_of. destruct (turn p); cbn;
      repeat match goal with
             | |- context [if ?c then _ else _] => destruct c
             end; repeat constructor.
  - unfold cap_deltas_of, opp_of.
    destruct (ep_target p) as [ep|], (turn p); cbn;
      repeat match goal with
             | |- context [if ?c then _ else _] => destruct c
             end; repeat constructor.
Qed.

Lemma flat_map_NoDup p (l : list Z) :
  NoDup l -> NoDup (flat_map (pawn_moves p) l).
Proof.
  induction 1 as [|x l Hx Hl IH]; cbn; [constructor|].
  apply NoDup_app. split; [|split].
  - apply (sublist_NoDup _ (pawn_moves_all p x));
      [apply pawn_moves_all_NoDup|apply pawn_moves_sublist].
  - intros m Hm Hm'. apply list_elem_of_In in Hm, Hm'.
    apply in_flat_map in Hm'. destruct Hm' as (y & Hy & Hm').
    apply pawn_moves_src in Hm, Hm'. subst. apply Hx, list_elem_of_In, Hy.
  - exact IH.
Qed.

Lemma generate_moves_in_order p :
  StronglySorted Z.le (map src (generate_moves p)) /\ NoDup (generate_moves p).
Proof.
  unfold generate_moves, sorted. split.
  - apply flat_map_sorted_by_src. apply StronglySorted_merge_sort; apply _.
  - apply flat_map_NoDup. rewrite merge_sort_Permutation. apply NoDup_elements.
Qed.

(** *** Sums over a set *)

Lemma sum_over_remove f x (s : gset Z) :
  x ∈ s -> sum_over f s = f x + sum_over f (s ∖ {[ x ]}).
Proof.
  intros Hx. rewrite <- sum_over_insert by set_solver.
  f_equal. apply set_eq. intros y. destruct (decide (y = x)); set_solver.
Qed.

Lemma sum_over_nonneg f (s : gset Z) :
  (forall x, x ∈ s -> 0 <= f x) -> 0 <= sum_over f s.
Proof.
  intros H. unfold sum_over.
  assert (Hl : forall x, In x (elements s) -> 0 <= f x).
  { intros x Hx. apply H, elem_of_elements, list_elem_of_In, Hx. }
  induction (elements s) as [|x l IH]; cbn; [lia|].
  pose proof (Hl x (or_introl eq_refl)).
  specialize (IH (fun y Hy => Hl y (or_intror Hy))). lia.
Qed.

Lemma ranks_to_go_on_board c sq : 0 <= sq < 64 -> 0 <= ranks_to_go c sq <= 7.
Proof. intros H. unfold ranks_to_go. destruct c; div_mod_lia. Qed.

(** The sets after a legal move, by colour of the mover. *)
Lemma apply_move_sets p mv :
  white p ## black p -> legal p mv ->
  exists q, apply_move p mv = Ok q /\
    turn q = other (turn p) /\
    src mv ∈ side (turn p) p /\
    (dst mv ∉ side (turn p) p ∖ {[ src mv ]}) /\
    side (turn p) q = {[ dst mv ]} ∪ (side (turn p) p ∖ {[ src mv ]}) /\
    side (other (turn p)) q
    = (if mem (dst mv) (side (other (turn p)) p)
       then side (other (turn p)) p ∖ {[ dst mv ]}
       else side (other (turn p)) p).
Proof.
  intros Hdisj H.
  pose proof (legal_src p mv H) as Hsrc.
  apply in_generate_moves in H.
  pose proof (generate_moves_shape p mv H) as (_ & _ & _ & Hcase).
  destruct (apply_move_ok p mv Hsrc) as (q & Hq & Ht & _ & _ & Hopp & Hpawns).
  exists q. split; [exact Hq|]. split; [exact Ht|].
  unfold side, pawns_of, opp_of, occupied, other in *.
  destruct (turn p), (turn q); try discriminate;
    (split; [exact Hsrc|]); (split; [|split]);
    try (symmetry; exact Hpawns);
    try (rewrite <- Hopp; set_solver);
    destruct Hcase as [(_ & [Hc|Hc])|(_ & _ & _ & _ & Hc)]; set_solver.
Qed.

Lemma remaining_step p mv q :
  board_ok p -> legal p mv -> apply_move p mv = Ok q ->
  0 <= remaining q < remaining p.
Proof.
  intros [Hdisj Hrng] H Hq.
  destruct (apply_move_sets p mv Hdisj H) as (q' & Hq' & Ht & Hsrc & Hdst & Hmov & Hopp).
  assert (q' = q) by congruence. subst q'.
  pose proof (legal_geometry p mv H) as (Hrank & _ & _).
  pose proof (proj1 (in_generate_moves p mv) ) as _.
  assert (Hgen : In mv (generate_moves p)) by (apply in_generate_moves, H).
  destruct (apply_move_board_ok p mv (conj Hdisj Hrng) Hgen) as (q' & Hq'' & _ & Hrng').
  assert (q' = q) by congruence. subst q'.
  assert (Hdrop : ranks_to_go (turn p) (dst mv) < ranks_to_go (turn p) (src mv)).
  { unfold ranks_to_go, dir_of in *. destruct (turn p), (is_double mv); lia. }
  assert (Hmover : sum_over (ranks_to_go (turn p)) (side (turn p) q)
                   < sum_over (ranks_to_go (turn p)) (side (turn p) p)).
  { rewrite Hmov, sum_over_insert by exact Hdst.
    rewrite (sum_over_remove _ (src mv) (side (turn p) p)) by exact Hsrc. lia. }
  assert (Hother : sum_over (ranks_to_go (other (turn p))) (side (other (turn p)) q)
                   <= sum_over (ranks_to_go (other (turn p))) (side (other (turn p)) p)).
  { rewrite Hopp. destruct (mem _ _) eqn:E; [|lia].
    apply mem_true in E. rewrite (sum_over_remove _ (dst mv) _ E).
    assert (0 <= ranks_to_go (other (turn p)) (dst mv)); [|lia].
    apply ranks_to_go_on_board, Hrng. unfold side, other in E.
    destruct (turn p); set_solver. }
  split.
  - unfold remaining.
    assert (forall c, 0 <= sum_over (ranks_to_go c) (side c q)).
    { intros c. apply sum_over_nonneg. intros x Hx.
      apply ranks_to_go_on_board, Hrng'. destruct c; set_solver. }
    pose proof (H0 W). pose proof (H0 B). cbn [side] in *. lia.
  - unfold remaining. unfold side, other in *. destruct (turn p); lia.
Qed.

Lemma plays_bounded p n q :
  board_ok p -> plays p n q -> Z.of_nat n + remaining q <= remaining p.
Proof.
  intros Hp Hplay. induction Hplay as [p|p mv q n r Hmv Hq _ IH]; [lia|].
  destruct (apply_move_board_ok p mv Hp Hmv) as (q' & Hq' & Hok).
  assert (q' = q) by congruence. subst q'.
  pose proof (remaining_step p mv q Hp (proj1 (in_generate_moves p mv) Hmv) Hq).
  specialize (IH Hok). lia.
Qed.

(** *** Pawn counts *)

Lemma size_remove (s : gset Z) x : x ∈ s -> size s = S (size (s ∖ {[ x ]})).
Proof.
  intros Hx.
  replace s with ({[ x ]} ∪ (s ∖ {[ x ]})) at 1.
  - rewrite size_union by set_solver. rewrite size_singleton. reflexivity.
  - apply set_eq. intros y. destruct (decide (y = x)); set_solver.
Qed.

Lemma size_insert (s : gset Z) x : x ∉ s -> size ({[ x ]} ∪ s) = S (size s).
Proof.
  intros Hx. rewrite size_union by set_solver. rewrite size_singleton.
  reflexivity.
Qed.

Lemma capture_counts p mv :
  white p ## black p -> legal p mv ->
  exists q q',
    apply_move p mv = Ok q /\ apply_move_fixed p mv = Ok q' /\
    size (side (turn p) q) = size (side (turn p) p) /\
    side (turn p) q' = side (turn p) q /\
    size (side (other (turn p)) p)
    = (size (side (other (turn p)) q)
       + (if mem (dst mv) (side (other (turn p)) p) then 1 else 0))%nat /\
    size (side (other (turn p)) p)
    = (size (side (other (turn p)) q')
       + (if _is_capture p mv then 1 else 0))%nat.
Proof.
  intros Hdisj H.
  destruct (apply_move_sets p mv Hdisj H) as (q & Hq & Ht & Hsrc & Hdst & Hmov & Hopp).
  exists q. unfold apply_move_fixed. rewrite Hq. cbn [mbind res_bind rbind].
  eexists. split; [reflexivity|]. split; [reflexivity|].
  assert (Hmover : size (side (turn p) q) = size (side (turn p) p)).
  { rewrite Hmov, size_insert by exact Hdst.
    rewrite (size_remove _ _ Hsrc). reflexivity. }
  assert (Hplain : size (side (other (turn p)) p)
    = (size (side (other (turn p)) q)
       + (if mem (dst mv) (side (other (turn p)) p) then 1 else 0))%nat).
  { rewrite Hopp. destruct (mem _ _) eqn:E; [|lia].
    apply mem_true in E. rewrite (size_remove _ _ E). lia. }
  split; [exact Hmover|].
  assert (Hcap : _is_capture p mv
                 = is_ep mv || mem (dst mv) (side (other (turn p)) p)).
  { unfold _is_capture, side, other. destruct (turn p); reflexivity. }
  rewrite Hcap.
  destruct (is_ep mv) eqn:Hep.
  - apply in_generate_moves in H.
    pose proof (generate_moves_shape p mv H) as (_ & _ & _ & Hcase).
    destruct Hcase as [(Hne & _)|(_ & _ & _ & Hc & Hfree)]; [congruence|].
    assert (Hm : mem (dst mv) (side (other (turn p)) p) = false).
    { apply mem_false. unfold side, other, occupied in *.
      destruct (turn p); set_solver. }
    rewrite Hm in *. cbn [orb].
    assert (Hcq : dst mv - fwd_of p ∈ side (other (turn p)) q).
    { rewrite Hopp. unfold side, other, opp_of in *. destruct (turn p); exact Hc. }
    unfold side, other, fwd_of in *.
    destruct (turn p); cbn [white black] in *;
      (split; [reflexivity|]); (split; [exact Hplain|]).
    + rewrite Hplain, (size_remove _ _ Hcq). lia.
    + replace (dst mv + 8) with (dst mv - -8) by lia.
      rewrite Hplain, (size_remove _ _ Hcq). lia.
  - cbn [orb]. unfold side, other in *.
    destruct (turn p); cbn [white black] in *;
      (split; [reflexivity|]); (split; exact Hplain).
Qed.

Lemma apply_move_fixed_keeps_board p mv :
  board_ok p -> legal p mv ->
  exists q, apply_move_fixed p mv = Ok q /\ board_ok q /\
    turn q = other (turn p) /\ last_move q = Some mv.
Proof.
  intros Hp H. assert (Hgen : In mv (generate_moves p))
    by (apply in_generate_moves, H).
  destruct (apply_move_board_ok p mv Hp Hgen) as (q & Hq & Hdisj & Hrng).
  destruct (apply_move_ok p mv (legal_src p mv H)) as (q2 & Hq2 & Ht & _).
  assert (q2 = q) by congruence. subst q2.
  unfold apply_move_fixed. rewrite Hq. cbn [mbind res_bind rbind].
  eexists. split; [reflexivity|].
  unfold board_ok, on_board, set_Forall in *.
  destruct (is_ep mv), (turn p); cbn;
    (split; [split; [set_solver|intros sq Hsq; apply Hrng; set_solver]|]);
    (split; [exact Ht|reflexivity]).
Qed.

Lemma remaining_nonneg p : on_board p -> 0 <= remaining p.
Proof.
  intros Hp. unfold remaining.
  assert (0 <= sum_over (ranks_to_go W) (white p)).
  { apply sum_over_nonneg. intros x Hx.
    apply ranks_to_go_on_board, Hp. set_solver. }
  assert (0 <= sum_over (ranks_to_go B) (black p)).
  { apply sum_over_nonneg. intros x Hx.
    apply ranks_to_go_on_board, Hp. set_solver. }
  lia.
Qed.

Lemma plays_board_ok p n q : board_ok p -> plays p n q -> board_ok q.
Proof.
  intros Hp Hplay. induction Hplay as [p|p mv q n r Hmv Hq _ IH]; [exact Hp|].
  destruct (apply_move_board_ok p mv Hp Hmv) as (q' & Hq' & Hok).
  assert (q' = q) by congruence. subst q'. exact (IH Hok).
Qed.

(** *** The entries *)

(** Generated moves go up in source square and none is yielded twice. *)
Theorem generate_moves_ordered p :
  StronglySorted Z.le (map src (generate_moves p)) /\ NoDup (generate_moves p).
Proof. exact (generate_moves_in_order p). Qed.

Lemma generated_move_geometry_witness :
  rank_of 16 = rank_of 25 + -1 * 1 /\ Z.abs (file_of 16 - file_of 25) = 1.
Proof.
  destruct (generated_move_geometry ep_position ep_capture
              ltac:(vm_compute; auto)) as (_ & _ & H1 & H2 & _).
  split; [exact H1|exact H2].
Defined.

(** Every legal move lowers the total distance the pawns have left to
    their promotion ranks, which is never negative on the board: after [n]
    moves from a position with disjoint sets on the board, [n] plus what is
    left is at most what was left at the start. *)
Theorem plays_length p n q :
  board_ok p -> plays p n q ->
  0 <= remaining q /\ Z.of_nat n + remaining q <= remaining p.
Proof.
  intros Hp Hplay. split.
  - apply remaining_nonneg. apply (plays_board_ok p n q Hp Hplay).
  - exact (plays_bounded p n q Hp Hplay).
Qed.

Lemma plays_length_witness :
  exists q, apply_move initial (mkMove 8 24 false true) = Ok q /\
    0 <= remaining q /\ Z.of_nat 1 + remaining q <= 96.
Proof.
  destruct (apply_move initial (mkMove 8 24 false true)) as [q|e] eqn:Hq;
    [|vm_compute in Hq; discriminate].
  exists q. split; [reflexivity|].
  replace 96 with (remaining initial) by (vm_compute; reflexivity).
  apply (plays_length initial 1 q).
  - exact board_ok_initial.
  - apply (plays_more initial (mkMove 8 24 false true) q 0 q);
      [vm_compute; auto|exact Hq|apply plays_none].
Defined.

(** On a position with disjoint sets, a generated move keeps the mover's
    number of pawns; [apply_move] takes one opposing pawn exactly when the
    destination holds one, and [apply_move_fixed] takes one exactly when
    [_is_capture] holds of the move. *)
Theorem capture_accounting p mv :
  white p ## black p -> In mv (generate_moves p) ->
  exists q q',
    apply_move p mv = Ok q /\ apply_move_fixed p mv = Ok q' /\
    size (side (turn p) q) = size (side (turn p) p) /\
    side (turn p) q' = side (turn p) q /\
    size (side (other (turn p)) p)
    = (size (side (other (turn p)) q)
       + (if mem (dst mv) (side (other (turn p)) p) then 1 else 0))%nat /\
    size (side (other (turn p)) p)
    = (size (side (other (turn p)) q')
       + (if _is_capture p mv then 1 else 0))%nat.
Proof.
  intros Hd H. apply capture_counts; [exact Hd|apply in_generate_moves, H].
Qed.

Lemma capture_accounting_witness :
  exists q q',
    apply_move ep_position ep_capture = Ok q /\
    apply_move_fixed ep_position ep_capture = Ok q' /\
    size (white q) = 1%nat /\ size (white q') = 0%nat.
Proof.
  assert (Hd : white ep_position ## black ep_position) by compute_done.
  assert (Hin : In ep_capture (generate_moves ep_position))
    by (vm_compute; auto).
  destruct (capture_accounting ep_position ep_capture Hd Hin)
    as (q & q' & Hq & Hq' & _ & _ & H1 & H2).
  exists q, q'. split; [exact Hq|]. split; [exact Hq'|].
  vm_compute in Hq. vm_compute in Hq'.
  injection Hq as <-. injection Hq' as <-.
  split; vm_compute; reflexivity.
Defined.

(** The children the search builds from a position with disjoint sets on
    the board have disjoint sets on the board again, the other side to move,
    and carry the move that led to them. *)
Theorem apply_move_fixed_board p mv :
  board_ok p -> In mv (generate_moves p) ->
  exists q, apply_move_fixed p mv = Ok q /\ board_ok q /\
    turn q = other (turn p) /\ last_move q = Some mv.
Proof.
  intros Hp H. apply apply_move_fixed_keeps_board;
    [exact Hp|apply in_generate_moves, H].
Qed.

Lemma apply_move_fixed_board_witness :
  exists q, apply_move_fixed initial (mkMove 8 24 false true) = Ok q /\
    board_ok q /\ turn q = B /\ last_move q = Some (mkMove 8 24 false true).
Proof.
  apply (apply_move_fixed_board initial (mkMove 8 24 false true));
    [exact board_ok_initial|vm_compute; auto].
Defined.

End RulesFacts.

(* ===================================================================== *)
(** ** Facts about squares and moves as text                              *)
(* ===================================================================== *)

Module TextFacts.
Import Notation Agent Props MoreProps GameFacts RulesFacts.

Lemma in_squares sq : 0 <= sq < 64 -> In sq squares.
Proof.
  intros H. unfold squares. apply in_map_iff. exists (Z.to_nat sq).
  split; [lia|]. apply in_seq. lia.
Qed.

Lemma on_squares (f : Z -> bool) :
  forallb f squares = true -> forall sq, 0 <= sq < 64 -> f sq = true.
Proof.
  intros H sq Hsq. rewrite forallb_forall in H. apply H, in_squares, Hsq.
Qed.

Lemma res_is_true r v : res_is r v = true -> r = Ok v.
Proof.
  destruct r as [x|e]; cbn; [|discriminate].
  intros H. apply Z.eqb_eq in H. congruence.
Qed.

Lemma square_text sq :
  0 <= sq < 64 ->
  GameText.square_to_fr (Some sq) = Ok (Some (fr_of sq)) /\
  NotationText.square_to_fr sq = Ok (fr_of sq) /\
  fr_to_square (fr_of sq) = Ok sq /\
  parse_square (fr_of sq) = Ok sq /\
  String.length (fr_of sq) = 2%nat.
Proof.
  intros Hsq.
  pose proof (on_squares
    (fun sq =>
       match GameText.square_to_fr (Some sq), NotationText.square_to_fr sq with
       | Ok (Some t), Ok t' =>
         String.eqb t (fr_of sq) && String.eqb t' (fr_of sq)
         && res_is (fr_to_square (fr_of sq)) sq
         && res_is (parse_square (fr_of sq)) sq
         && Nat.eqb (String.length (fr_of sq)) 2
       | _, _ => false
       end) ltac:(vm_compute; reflexivity) sq Hsq) as H.
  cbv beta in H.
  destruct (GameText.square_to_fr (Some sq)) as [[t|]|]; try discriminate.
  destruct (NotationText.square_to_fr sq) as [t'|]; try discriminate.
  repeat (apply andb_true_iff in H; destruct H as [H ?]).
  apply String.eqb_eq in H. subst t.
  match goal with E : String.eqb t' _ = true |- _ =>
    apply String.eqb_eq in E; subst t' end.
  repeat split; auto using res_is_true.
  apply Nat.eqb_eq. assumption.
Qed.

(** *** Round trip of a square through its text *)

(** For a square of the board both encoders print the same two characters,
    and both parsers read them back as the square. *)
Theorem square_text_round_trip sq :
  0 <= sq < 64 ->
  exists t,
    GameText.square_to_fr (Some sq) = Ok (Some t) /\
    NotationText.square_to_fr sq = Ok t /\
    fr_to_square t = Ok sq /\ parse_square t = Ok sq.
Proof.
  intros H. exists (fr_of sq).
  destruct (square_text sq H) as (H1 & H2 & H3 & H4 & _). auto.
Qed.

Lemma square_text_round_trip_witness :
  GameText.square_to_fr (Some 12) = Ok (Some "e2"%string) /\
  exists t,
    GameText.square_to_fr (Some 12) = Ok (Some t) /\
    NotationText.square_to_fr 12 = Ok t /\
    fr_to_square t = Ok 12 /\ parse_square t = Ok 12.
Proof.
  split; [reflexivity|]. apply (square_text_round_trip 12). lia.
Defined.

Ltac char_cases c :=
  destruct c as [[] [] [] [] [] [] [] []]; vm_compute;
  try discriminate; intros; auto 20.

Lemma is_file_chars c : (find FILES c <? 0) = false -> In c file_chars.
Proof. char_cases c. Qed.

Lemma is_file_ci_chars c : is_file_ci c = true -> In c file_chars.
Proof. char_cases c. Qed.

Lemma is_rank_chars c : is_rank c = true -> In c rank_chars.
Proof. char_cases c. Qed.

Lemma on_chars (f : ascii -> ascii -> bool) (l1 l2 : list ascii) :
  forallb (fun a => forallb (f a) l2) l1 = true ->
  forall a b, In a l1 -> In b l2 -> f a b = true.
Proof.
  intros H a b Ha Hb. rewrite forallb_forall in H.
  specialize (H a Ha). rewrite forallb_forall in H. exact (H b Hb).
Qed.

Lemma fr_to_square_inv t sq :
  fr_to_square t = Ok sq -> 0 <= sq < 64 /\ fr_of sq = strip t.
Proof.
  unfold fr_to_square.
  destruct (strip t) as [|c0 [|c1 [|c2 r]]]; try discriminate.
  destruct (find FILES c0 <? 0) eqn:Hf; [discriminate|].
  destruct ((code c1 <? code "1") || (code c1 >? code "8")) eqn:Hr;
    [discriminate|].
  intros [= <-].
  assert (Hc1 : is_rank c1 = true).
  { unfold is_rank. apply orb_false_iff in Hr. destruct Hr as [H1 H2].
    apply Z.ltb_ge in H1. rewrite Z.gtb_ltb in H2. apply Z.ltb_ge in H2.
    apply andb_true_iff. split; apply Z.leb_le; assumption. }
  pose proof (on_chars
    (fun a b =>
       implb (negb (find FILES a <? 0))
         (let sq := sq_index (find FILES a) (code b - code "0") in
          in_range sq && String.eqb (fr_of sq) (two_chars a b)))
    file_chars rank_chars ltac:(vm_compute; reflexivity)
    c0 c1 (is_file_chars c0 Hf) (is_rank_chars c1 Hc1)) as H.
  cbv beta zeta in H. rewrite Hf in H. cbn [negb implb] in H.
  apply andb_true_iff in H. destruct H as [H1 H2].
  apply in_range_true in H1. apply String.eqb_eq in H2. split; assumption.
Qed.

Lemma parse_square_trimmed t : parse_square t = parse_trimmed (strip t).
Proof. reflexivity. Qed.

Lemma parse_square_of_fr t sq : fr_to_square t = Ok sq -> parse_square t = Ok sq.
Proof.
  intros H. rewrite parse_square_trimmed.
  destruct (fr_to_square_inv t sq H) as (Hsq & <-).
  destruct (square_text sq Hsq) as (_ & _ & H3 & H4 & _).
  rewrite parse_square_trimmed in H4.
  assert (Hst : strip (fr_of sq) = fr_of sq).
  { revert H. unfold fr_to_square.
    destruct (fr_to_square_inv (fr_of sq) sq H3) as (_ & E). congruence. }
  rewrite Hst in H4. exact H4.
Qed.

Lemma parse_square_range t sq : parse_square t = Ok sq -> 0 <= sq < 64.
Proof.
  rewrite parse_square_trimmed. unfold parse_trimmed. cbv zeta.
  destruct (_SQ_RE_match (lower (strip t))) eqn:Hre; [|discriminate].
  cbn [negb].
  destruct (lower (strip t)) as [|a [|b r]]; try discriminate.
  assert (Hab : (is_file_ci a && is_rank b) || (is_rank a && is_file_ci b) = true).
  { cbn in Hre. destruct r as [|nl [|? ?]]; try discriminate; [exact Hre|].
    apply andb_true_iff in Hre. apply Hre. }
  set (body := fun a b : ascii =>
    let '(file_ch, rank_ch) := if isalpha a then (a, b) else (b, a) in
    f ← FILES_index file_ch; r ← int_of_digit rank_ch; Ok (sq_index f r)).
  change (body a b = Ok sq -> 0 <= sq < 64).
  intros H.
  assert (Hin : in_range_res (body a b) = true).
  { apply orb_true_iff in Hab. destruct Hab as [Hab|Hab];
      apply andb_true_iff in Hab; destruct Hab as [Ha Hb].
    - exact (on_chars (fun a b => in_range_res (body a b)) file_chars rank_chars
               ltac:(vm_compute; reflexivity) a b
               (is_file_ci_chars a Ha) (is_rank_chars b Hb)).
    - exact (on_chars (fun a b => in_range_res (body a b)) rank_chars file_chars
               ltac:(vm_compute; reflexivity) a b
               (is_rank_chars a Ha) (is_file_ci_chars b Hb)). }
  rewrite H in Hin. apply in_range_true. exact Hin.
Qed.

(** *** What the square parsers accept *)

(** A square read by [fr_to_square] is on the board and prints back as the
    trimmed text; [parse_square] reads the same text as the same square, and
    whatever [parse_square] reads is on the board. *)
Theorem square_parsers_sound t sq :
  (fr_to_square t = Ok sq ->
   0 <= sq < 64 /\ NotationText.square_to_fr sq = Ok (strip t) /\
   parse_square t = Ok sq) /\
  (parse_square t = Ok sq -> 0 <= sq < 64).
Proof.
  split; [|apply parse_square_range].
  intros H. destruct (fr_to_square_inv t sq H) as (Hsq & E).
  split; [exact Hsq|]. split; [|exact (parse_square_of_fr t sq H)].
  rewrite <- E. apply (square_text sq Hsq).
Qed.

Lemma square_parsers_sound_witness :
  (0 <= 63 < 64 /\ NotationText.square_to_fr 63 = Ok (strip " h8 ") /\
   parse_square " h8 " = Ok 63) /\
  0 <= 15 < 64.
Proof.
  split.
  - apply (proj1 (square_parsers_sound " h8 " 63)). reflexivity.
  - apply (proj2 (square_parsers_sound "2H" 15)). reflexivity.
Defined.

(** *** Moves as text *)

Lemma move_text_checked s d :
  0 <= s < 64 -> 0 <= d < 64 -> move_text_ok s d = true.
Proof.
  intros Hs Hd.
  assert (H : forallb (fun s => forallb (move_text_ok s) squares) squares = true)
    by (vm_compute; reflexivity).
  rewrite forallb_forall in H. specialize (H s (in_squares s Hs)).
  rewrite forallb_forall in H. exact (H d (in_squares d Hd)).
Qed.

Lemma move_text_facts s d :
  0 <= s < 64 -> 0 <= d < 64 ->
  GameText.uci_to_src_dst (move_text s d) = Ok (s, d) /\
  normalise (move_text s d) = move_text s d /\
  len (move_text s d) = 4 /\
  parse_square (slice 0 2 (move_text s d)) = Ok s /\
  parse_square (slice_from 2 (move_text s d)) = Ok d.
Proof.
  intros Hs Hd. pose proof (move_text_checked s d Hs Hd) as H.
  unfold move_text_ok in H. cbv zeta in H.
  repeat (apply andb_true_iff in H; destruct H as [H ?]).
  destruct (GameText.uci_to_src_dst (move_text s d)) as [[a b]|]; [|discriminate].
  apply andb_true_iff in H. destruct H as [Ha Hb].
  apply Z.eqb_eq in Ha, Hb. subst a b.
  repeat split; auto using res_is_true.
  - apply String.eqb_eq. assumption.
  - apply Z.eqb_eq. assumption.
Qed.

Lemma move_to_text mv :
  0 <= src mv < 64 -> 0 <= dst mv < 64 ->
  GameText.move_to_uci mv = Ok (move_text (src mv) (dst mv)) /\
  NotationText.move_to_str_fr mv = Ok (move_text (src mv) (dst mv)).
Proof.
  intros Hs Hd.
  destruct (square_text (src mv) Hs) as (H1 & H2 & _).
  destruct (square_text (dst mv) Hd) as (H3 & H4 & _).
  unfold GameText.move_to_uci, NotationText.move_to_str_fr.
  rewrite H1, H2, H3, H4. split; reflexivity.
Qed.

(** For a move between squares of the board, the two encoders print the
    same four characters, and [uci_to_src_dst] reads them back as the source
    and the destination. *)
Theorem move_text_round_trip mv :
  0 <= src mv < 64 -> 0 <= dst mv < 64 ->
  exists t,
    GameText.move_to_uci mv = Ok t /\
    NotationText.move_to_str_fr mv = Ok t /\
    GameText.uci_to_src_dst t = Ok (src mv, dst mv).
Proof.
  intros Hs Hd. exists (move_text (src mv) (dst mv)).
  destruct (move_to_text mv Hs Hd) as (H1 & H2).
  destruct (move_text_facts (src mv) (dst mv) Hs Hd) as (H3 & _). auto.
Qed.

Lemma move_text_round_trip_witness :
  GameText.move_to_uci (mkMove 12 28 false true) = Ok "e2e4"%string /\
  exists t,
    GameText.move_to_uci (mkMove 12 28 false true) = Ok t /\
    NotationText.move_to_str_fr (mkMove 12 28 false true) = Ok t /\
    GameText.uci_to_src_dst t = Ok (12, 28).
Proof.
  split; [reflexivity|].
  apply (move_text_round_trip (mkMove 12 28 false true)); cbn; lia.
Defined.

(** *** [infer_move] and [apply_uci] *)

(** [infer_move] rebuilds every generated move, flags included, from its
    source and destination, and refuses a source that is not a pawn of the
    side to move. *)
Theorem infer_move_generated p :
  (forall mv, In mv (generate_moves p) ->
     GameText.infer_move p (src mv) (dst mv) = Ok mv) /\
  (forall s d, s ∉ pawns_of p -> GameText.infer_move p s d = Raise ValueError).
Proof.
  split.
  - intros mv H. apply infer_move_of_legal, in_generate_moves, H.
  - intros s d H. unfold GameText.infer_move, pawns_of in *.
    apply mem_false in H. rewrite H. reflexivity.
Qed.

Lemma infer_move_generated_witness :
  GameText.infer_move ep_position 25 16 = Ok ep_capture /\
  GameText.infer_move initial 48 40 = Raise ValueError.
Proof.
  split.
  - apply (proj1 (infer_move_generated ep_position) ep_capture).
    vm_compute. auto.
  - apply (proj2 (infer_move_generated initial) 48 40). compute_done.
Defined.

Lemma apply_uci_of_legal p mv :
  legal p mv -> 0 <= src mv < 64 -> 0 <= dst mv < 64 ->
  GameText.apply_uci p (move_text (src mv) (dst mv)) = apply_move p mv.
Proof.
  intros H Hs Hd. unfold GameText.apply_uci.
  destruct (move_text_facts (src mv) (dst mv) Hs Hd) as (-> & _).
  cbn [mbind res_bind rbind]. rewrite (infer_move_of_legal p mv H).
  reflexivity.
Qed.

(** Applying the text of a generated move with [apply_uci] is applying the
    move with [apply_move]. *)
Theorem apply_uci_generated p mv :
  In mv (generate_moves p) -> 0 <= src mv < 64 ->
  exists t, GameText.move_to_uci mv = Ok t /\
            GameText.apply_uci p t = apply_move p mv.
Proof.
  intros H Hs.
  pose proof (generate_moves_shape p mv H) as (_ & _ & Hd & _).
  exists (move_text (src mv) (dst mv)). split.
  - apply (move_to_text mv Hs Hd).
  - apply apply_uci_of_legal; [apply in_generate_moves, H|exact Hs|exact Hd].
Qed.

Lemma apply_uci_generated_witness :
  exists t, GameText.move_to_uci (mkMove 8 24 false true) = Ok t /\
            GameText.apply_uci initial t = apply_move initial (mkMove 8 24 false true).
Proof.
  apply (apply_uci_generated initial (mkMove 8 24 false true));
    [vm_compute; auto|cbn; lia].
Defined.

(** *** [parse_move_robust] *)

Lemma find_some_in {A} (f : A -> bool) (l : list A) (x : A) :
  In x l -> f x = true -> exists y, List.find f l = Some y.
Proof.
  intros Hx Hf. destruct (List.find f l) as [y|] eqn:E; [eauto|].
  pose proof (find_none f l E x Hx). congruence.
Qed.

Lemma move_eta m : mkMove (src m) (dst m) (is_ep m) (is_double m) = m.
Proof. destruct m; reflexivity. Qed.

Lemma first_match_in legal cands m :
  NotationText.first_match legal cands = Some m -> In m legal.
Proof.
  induction cands as [|[s d] rest IH]; cbn; [discriminate|].
  destruct (List.find _ legal) as [m'|] eqn:E; [|exact IH].
  apply find_some in E. destruct E as (Hin & Hf).
  apply andb_true_iff in Hf. destruct Hf as [Hs Hd].
  apply Z.eqb_eq in Hs, Hd. subst s d. rewrite move_eta.
  intros [= <-]. exact Hin.
Qed.

Lemma first_match_hit p iter mv rest :
  same_elements iter -> legal p mv ->
  NotationText.first_match (iter (generate_moves p))
    ((src mv, dst mv) :: rest) = Some mv.
Proof.
  intros Hiter H. cbn.
  assert (Hin : In mv (iter (generate_moves p)))
    by (apply Hiter, in_generate_moves, H).
  destruct (find_some_in (fun m => (src m =? src mv) && (dst m =? dst mv))
              _ mv Hin) as (m' & E).
  { rewrite !Z.eqb_refl. reflexivity. }
  rewrite E. apply find_some in E. destruct E as (Hin' & Hf).
  apply andb_true_iff in Hf. destruct Hf as [Hs Hd].
  apply Z.eqb_eq in Hs, Hd.
  assert (m' = mv).
  { apply (legal_determined p); auto. apply in_generate_moves, Hiter, Hin'. }
  subst m'. rewrite move_eta. reflexivity.
Qed.

Lemma first_match_miss p iter s d rest :
  same_elements iter -> s ∉ pawns_of p ->
  NotationText.first_match (iter (generate_moves p)) ((s, d) :: rest)
  = NotationText.first_match (iter (generate_moves p)) rest.
Proof.
  intros Hiter Hs. cbn.
  destruct (List.find _ _) as [m'|] eqn:E; [|reflexivity].
  apply find_some in E. destruct E as (Hin & Hf).
  apply andb_true_iff in Hf. destruct Hf as [Hs' _]. apply Z.eqb_eq in Hs'.
  apply Hiter, generate_moves_shape in Hin. destruct Hin as (Hsrc & _).
  rewrite Hs' in Hsrc. contradiction.
Qed.

Lemma parse_move_robust_unfold iter s p :
  NotationText.parse_move_robust iter s p
  = (let raw := normalise s in
     if negb (len raw =? 4) then Raise ValueError else
     pa ← parse_square (slice 0 2 raw);
     pb ← parse_square (slice_from 2 raw);
     pb' ← parse_square (slice_from 2 raw);
     pa' ← parse_square (slice 0 2 raw);
     match NotationText.first_match (iter (generate_moves p))
             [(pa, pb); (pb', pa')] with
     | Some m => Ok m
     | None => Raise ValueError
     end).
Proof. reflexivity. Qed.

(** Whatever the text and the order in which the set of legal tuples is
    iterated, a move returned by [parse_move_robust] is a generated move of
    the position. *)
Theorem parse_move_robust_sound iter s p m :
  same_elements iter ->
  NotationText.parse_move_robust iter s p = Ok m -> In m (generate_moves p).
Proof.
  intros Hiter. rewrite parse_move_robust_unfold. cbv zeta.
  destruct (negb _); [discriminate|].
  destruct (parse_square (slice 0 2 _)) as [pa|]; [|discriminate].
  destruct (parse_square (slice_from 2 _)) as [pb|]; [|discriminate].
  cbn [mbind res_bind rbind].
  destruct (NotationText.first_match _ _) as [m'|] eqn:E; [|discriminate].
  intros [= <-]. apply Hiter. exact (first_match_in _ _ _ E).
Qed.

Lemma parse_move_robust_sound_witness :
  In (mkMove 8 24 false true) (generate_moves initial).
Proof.
  apply (parse_move_robust_sound (fun l => l) "A2 -> a4" initial).
  - intros l x. reflexivity.
  - vm_compute. reflexivity.
Defined.

Lemma parse_text_of_legal iter s p mv :
  same_elements iter -> legal p mv -> 0 <= src mv < 64 -> 0 <= dst mv < 64 ->
  (normalise s = move_text (src mv) (dst mv) ->
   NotationText.parse_move_robust iter s p = Ok mv) /\
  (white p ## black p -> normalise s = move_text (dst mv) (src mv) ->
   NotationText.parse_move_robust iter s p = Ok mv).
Proof.
  intros Hiter H Hs Hd. split.
  - intros Hn. rewrite parse_move_robust_unfold. cbv zeta. rewrite Hn.
    destruct (move_text_facts (src mv) (dst mv) Hs Hd) as (_ & _ & Hl & Ha & Hb).
    rewrite Hl, Ha, Hb. cbn [Z.eqb Pos.eqb negb mbind res_bind rbind].
    rewrite (first_match_hit p iter mv _ Hiter H). reflexivity.
  - intros Hdisj Hn. rewrite parse_move_robust_unfold. cbv zeta. rewrite Hn.
    destruct (move_text_facts (dst mv) (src mv) Hd Hs) as (_ & _ & Hl & Ha & Hb).
    rewrite Hl, Ha, Hb. cbn [Z.eqb Pos.eqb negb mbind res_bind rbind].
    rewrite first_match_miss; [|exact Hiter|].
    + rewrite (first_match_hit p iter mv _ Hiter H). reflexivity.
    + pose proof (proj1 (in_generate_moves p mv) (proj2 (in_generate_moves p mv) H)) as _.
      apply in_generate_moves, generate_moves_shape in H.
      destruct H as (_ & _ & _ & Hcase).
      unfold pawns_of, opp_of, occupied in *.
      destruct Hcase as [(_ & [Hc|Hc])|(_ & _ & _ & _ & Hc)];
        destruct (turn p); set_solver.
Qed.

(** The text of a generated move, however it is spaced, dashed or cased, is
    read by [parse_move_robust] as that move; so is the text with source and
    destination swapped, when the two sets of the position are disjoint. *)
Theorem parse_move_robust_complete iter s p mv :
  same_elements iter -> In mv (generate_moves p) -> 0 <= src mv < 64 ->
  (normalise s = move_text (src mv) (dst mv) ->
   NotationText.parse_move_robust iter s p = Ok mv) /\
  (white p ## black p -> normalise s = move_text (dst mv) (src mv) ->
   NotationText.parse_move_robust iter s p = Ok mv).
Proof.
  intros Hiter H Hs.
  pose proof (generate_moves_shape p mv H) as (_ & _ & Hd & _).
  apply parse_text_of_legal; auto. apply in_generate_moves, H.
Qed.

Lemma parse_move_robust_complete_witness :
  NotationText.parse_move_robust (@rev Move) " E7-e5 " black_to_move
    = Ok (mkMove 52 36 false true) /\
  NotationText.parse_move_robust (@rev Move) "e5e7" black_to_move
    = Ok (mkMove 52 36 false true).
Proof.
  assert (Hrev : same_elements (@rev Move))
    by (intros l x; symmetry; apply in_rev).
  assert (Hin : In (mkMove 52 36 false true) (generate_moves black_to_move))
    by (vm_compute; auto 20).
  assert (Hs : 0 <= src (mkMove 52 36 false true) < 64) by (cbn; lia).
  split.
  - apply (proj1 (parse_move_robust_complete (@rev Move) " E7-e5 "
                    black_to_move (mkMove 52 36 false true) Hrev Hin Hs)).
    vm_compute. reflexivity.
  - apply (proj2 (parse_move_robust_complete (@rev Move) "e5e7"
                    black_to_move (mkMove 52 36 false true) Hrev Hin Hs)).
    + compute_done.
    + vm_compute. reflexivity.
Defined.

(** *** Positions built from setup tokens *)

Lemma insert_on_board (s : gset Z) sq :
  set_Forall (fun x => 0 <= x < 64) s -> 0 <= sq < 64 ->
  set_Forall (fun x => 0 <= x < 64) (s ∪ {[ sq ]}).
Proof.
  intros Hs Hsq x Hx. apply elem_of_union in Hx. destruct Hx as [Hx|Hx].
  - exact (Hs x Hx).
  - apply elem_of_singleton in Hx. subst. exact Hsq.
Qed.

Lemma setup_loop_on_board tokens :
  forall w b w' b',
    setup_loop tokens w b = Ok (w', b') ->
    set_Forall (fun x => 0 <= x < 64) w -> set_Forall (fun x => 0 <= x < 64) b ->
    set_Forall (fun x => 0 <= x < 64) w' /\ set_Forall (fun x => 0 <= x < 64) b'.
Proof.
  induction tokens as [|t rest IH]; intros w b w' b'; cbn [setup_loop].
  { intros [= <- <-]. auto. }
  destruct (len (strip t) <? 3); [apply IH|].
  destruct (strip t) as [|c r]; [discriminate|].
  destruct (fr_to_square _) as [sq|] eqn:E; [|discriminate].
  apply fr_to_square_inv in E. destruct E as [Hsq _].
  cbn [mbind res_bind rbind].
  destruct (Ascii.eqb c "W").
  { intros H Hw Hb. apply (IH _ _ _ _ H); auto using insert_on_board. }
  destruct (Ascii.eqb c "B"); [|discriminate].
  intros H Hw Hb. apply (IH _ _ _ _ H); auto using insert_on_board.
Qed.

Lemma parse_setup_loop_on_board toks :
  forall w b w' b',
    parse_setup_loop toks w b = Ok (w', b') ->
    set_Forall (fun x => 0 <= x < 64) w -> set_Forall (fun x => 0 <= x < 64) b ->
    set_Forall (fun x => 0 <= x < 64) w' /\ set_Forall (fun x => 0 <= x < 64) b'.
Proof.
  induction toks as [|t rest IH]; intros w b w' b'; cbn [parse_setup_loop].
  { intros [= <- <-]. auto. }
  destruct (negb _); [discriminate|].
  destruct (parse_square _) as [sq|] eqn:E; [|discriminate].
  apply parse_square_range in E.
  cbn [mbind res_bind rbind].
  destruct (String.eqb _ "W").
  { intros H Hw Hb. apply (IH _ _ _ _ H); auto using insert_on_board. }
  destruct (String.eqb _ "B"); [|discriminate].
  intros H Hw Hb. apply (IH _ _ _ _ H); auto using insert_on_board.
Qed.

Lemma union_on_board (w b : gset Z) :
  set_Forall (fun x => 0 <= x < 64) w -> set_Forall (fun x => 0 <= x < 64) b ->
  set_Forall (fun x => 0 <= x < 64) (w ∪ b).
Proof.
  intros Hw Hb x Hx. apply elem_of_union in Hx. destruct Hx; auto.
Qed.

Lemma empty_on_board : set_Forall (fun x => 0 <= x < 64) (∅ : gset Z).
Proof. intros x Hx. apply not_elem_of_empty in Hx. destruct Hx. Qed.

(** A position returned by either setup parser has all its squares on the
    board, no en-passant target, and the side to move that was asked for
    ([from_setup_tokens]) or white ([parse_setup]). *)
Theorem setup_position_on_board tokens c p :
  (from_setup_tokens tokens c = Ok p ->
   on_board p /\ turn p = c /\ ep_target p = None) /\
  (parse_setup tokens = Ok p ->
   on_board p /\ turn p = W /\ ep_target p = None).
Proof.
  split.
  - unfold from_setup_tokens.
    destruct (setup_loop tokens ∅ ∅) as [[w b]|] eqn:E; [|discriminate].
    cbn [mbind res_bind rbind]. intros [= <-].
    destruct (setup_loop_on_board _ _ _ _ _ E empty_on_board empty_on_board).
    split; [|split; reflexivity]. apply union_on_board; assumption.
  - unfold parse_setup. destruct tokens as [|t0 rest]; [discriminate|].
    destruct (negb _); [discriminate|].
    destruct (parse_setup_loop rest ∅ ∅) as [[w b]|] eqn:E; [|discriminate].
    cbn [mbind res_bind rbind]. intros [= <-].
    destruct (parse_setup_loop_on_board _ _ _ _ _ E empty_on_board empty_on_board).
    split; [|split; reflexivity]. apply union_on_board; assumption.
Qed.

Lemma setup_position_on_board_witness :
  on_board (mkPosition {[ 8 ]} {[ 55 ]} B None None) /\
  on_board (mkPosition {[ 8 ]} {[ 55 ]} W None None).
Proof.
  split.
  - apply (proj1 (setup_position_on_board ["Wa2"; "Bh7"]%string B _)).
    vm_compute. reflexivity.
  - apply (proj2 (setup_position_on_board ["Setup"; "wa2"; "B7h"]%string W _)).
    vm_compute. reflexivity.
Defined.

Lemma setup_loops_agree toks :
  Forall (fun t => len (strip t) = 3) toks ->
  forall w b r, setup_loop toks w b = Ok r -> parse_setup_loop toks w b = Ok r.
Proof.
  induction 1 as [|t rest Hlen _ IH]; intros w b r;
    cbn [setup_loop parse_setup_loop]; [auto|].
  rewrite Hlen. cbn [Z.ltb Z.eqb Z.compare Pos.compare Pos.compare_cont Pos.eqb negb].
  destruct (strip t) as [|c [|x [|y [|z s]]]]; try (unfold len in Hlen; cbn in Hlen; lia).
  rewrite SetupFacts.slice_from_1, SetupFacts.slice_0_1, SetupFacts.slice_1_3.
  destruct (fr_to_square _) as [sq|] eqn:E; [|discriminate].
  rewrite (parse_square_of_fr _ _ E). cbn [mbind res_bind rbind].
  destruct (SetupFacts.upper_col c) as [-> ->].
  destruct (Ascii.eqb c "W") eqn:Ew; cbn [orb]; [apply IH|].
  destruct (Ascii.eqb c "B") eqn:Eb; [|discriminate].
  apply Ascii.eqb_eq in Eb. subst c. cbn. apply IH.
Qed.

(** On tokens that all have exactly three characters once trimmed,
    whatever [from_setup_tokens] accepts with white to move, [parse_setup]
    accepts after any header spelling of "setup", with the same position. *)
Theorem parse_setup_extends tokens header p :
  Forall (fun t => len (strip t) = 3) tokens ->
  lower header = "setup"%string ->
  from_setup_tokens tokens W = Ok p ->
  parse_setup (header :: tokens) = Ok p.
Proof.
  intros Hlen Hh. unfold from_setup_tokens, parse_setup.
  rewrite Hh. cbn [String.eqb Ascii.eqb negb].
  destruct (setup_loop tokens ∅ ∅) as [[w b]|] eqn:E; [|discriminate].
  rewrite (setup_loops_agree tokens Hlen _ _ _ E). auto.
Qed.

Lemma parse_setup_extends_witness :
  parse_setup ["SETUP"; " Wa2"; "Bh7 "]%string
  = Ok (mkPosition {[ 8 ]} {[ 55 ]} W None None).
Proof.
  apply (parse_setup_extends [" Wa2"; "Bh7 "]%string "SETUP"%string).
  - repeat constructor.
  - reflexivity.
  - vm_compute. reflexivity.
Defined.

End TextFacts.

(* ===================================================================== *)
(** ** Further facts about the agent                                      *)
(* ===================================================================== *)

Module AgentMoreFacts.
Import Agent Props MoreProps GameFacts AgentFacts RulesFacts SearchFacts.

(** *** The range of the static evaluation *)

Lemma sum_over_bounds f lo hi (s : gset Z) :
  (forall x, x ∈ s -> lo <= f x <= hi) ->
  lo * Z.of_nat (size s) <= sum_over f s <= hi * Z.of_nat (size s).
Proof.
  intros H. unfold sum_over, size, set_size. cbn.
  assert (Hl : forall x, In x (elements s) -> lo <= f x <= hi).
  { intros x Hx. apply H, elem_of_elements, list_elem_of_In, Hx. }
  induction (elements s) as [|x l IH]; cbn [fold_right length]; [lia|].
  pose proof (Hl x (or_introl eq_refl)).
  specialize (IH (fun y Hy => Hl y (or_intror Hy))). lia.
Qed.

Lemma size_on_board (s : gset Z) :
  set_Forall (fun sq => 0 <= sq < 64) s -> (size s <= 64)%nat.
Proof.
  intros H.
  assert (Hsub : s ⊆ list_to_set squares).
  { intros x Hx. apply elem_of_list_to_set, list_elem_of_In.
    apply TextFacts.in_squares, H, Hx. }
  apply subseteq_size in Hsub.
  assert (Hn : size (list_to_set (C:=gset Z) squares) = 64%nat)
    by (vm_compute; reflexivity).
  lia.
Qed.

Lemma evaluate_bounded p : on_board p -> - 10 ^ 4 < evaluate p < 10 ^ 4.
Proof.
  intros Hp. unfold evaluate. cbv zeta.
  assert (Hw : set_Forall (fun sq => 0 <= sq < 64) (white p))
    by (intros x Hx; apply Hp; set_solver).
  assert (Hb : set_Forall (fun sq => 0 <= sq < 64) (black p))
    by (intros x Hx; apply Hp; set_solver).
  pose proof (size_on_board _ Hw). pose proof (size_on_board _ Hb).
  pose proof (sum_over_bounds (fun sq => Z.shiftr sq 3 + 1) 1 8 (white p)) as Sw.
  pose proof (sum_over_bounds (fun sq => 9 - (Z.shiftr sq 3 + 1)) 1 8 (black p)) as Sb.
  assert (Hr : forall x, 0 <= x < 64 -> 1 <= Z.shiftr x 3 + 1 <= 8).
  { intros x Hx. rewrite Z.shiftr_div_pow2 by lia.
    change (2 ^ 3) with 8. Z.to_euclidean_division_equations. lia. }
  specialize (Sw ltac:(intros x Hx; apply Hr, Hw, Hx)).
  specialize (Sb ltac:(intros x Hx; pose proof (Hr x (Hb x Hx)); lia)).
  change (10 ^ 4) with 10000. lia.
Qed.

(** *** Store, then probe *)

Lemma tt_store_lookup w key d v alpha0 beta0 bm :
  Z.of_nat (size (TT w)) < TT_MAX_SIZE ->
  (forall old, TT w !! key = Some old -> depth old <= d) ->
  TT (_tt_store key d v alpha0 beta0 bm w) !! key
  = Some (mkTTEntry d v
            (if v <=? alpha0 then UPPER
             else if v >=? beta0 then LOWER else EXACT) bm).
Proof.
  intros Hsize Hold. unfold _tt_store. cbv zeta.
  assert (Hgo : match TT w !! key with
                | Some o => d >=? depth o
                | None => true
                end = true).
  { destruct (TT w !! key) as [o|] eqn:E; [|reflexivity].
    rewrite Z.geb_leb. apply Z.leb_le. apply Hold. reflexivity. }
  rewrite Hgo. unfold _tt_maybe_evict. cbn.
  set (e := mkTTEntry d v _ bm).
  pose proof (tt_size_insert (TT w) key e).
  destruct (Z.gtb_spec (Z.of_nat (size (<[key:=e]> (TT w)))) TT_MAX_SIZE);
    [lia|]. cbn. apply lookup_insert_eq.
Qed.

Lemma tt_store_probe w key d v alpha0 beta0 bm d' alpha beta :
  Z.of_nat (size (TT w)) < TT_MAX_SIZE ->
  (forall old, TT w !! key = Some old -> depth old <= d) ->
  let r := fst (_tt_probe key d' alpha beta (_tt_store key d v alpha0 beta0 bm w)) in
  (d < d' -> r = (false, alpha, beta, None)) /\
  (d' <= d -> alpha0 < v < beta0 -> r = (true, alpha, beta, Some v)) /\
  (d' <= d -> v <= alpha0 ->
   r = (true, alpha, Z.min beta v,
        if alpha >=? Z.min beta v then Some v else None)) /\
  (d' <= d -> alpha0 < v -> beta0 <= v ->
   r = (true, Z.max alpha v, beta,
        if Z.max alpha v >=? beta then Some v else None)).
Proof.
  intros Hsize Hold r. subst r. unfold _tt_probe.
  rewrite (tt_store_lookup w key d v alpha0 beta0 bm Hsize Hold).
  cbn [depth flag value]. unfold EXACT, LOWER, UPPER.
  repeat split; intros.
  - destruct (Z.ltb_spec d d'); [reflexivity|lia].
  - destruct (Z.ltb_spec d d'); [lia|].
    destruct (Z.leb_spec v alpha0); [lia|]. rewrite Z.geb_leb.
    destruct (Z.leb_spec beta0 v); [lia|]. reflexivity.
  - destruct (Z.ltb_spec d d'); [lia|].
    destruct (Z.leb_spec v alpha0); [|lia]. cbn.
    destruct (alpha >=? Z.min beta v); reflexivity.
  - destruct (Z.ltb_spec d d'); [lia|].
    destruct (Z.leb_spec v alpha0); [lia|]. rewrite Z.geb_leb.
    destruct (Z.leb_spec beta0 v); [|lia]. cbn.
    destruct (Z.max alpha v >=? beta); reflexivity.
Qed.

(** *** Move ordering *)

Lemma filter_split_perm (f : Move -> bool) (l : list Move) :
  List.filter f l ++ List.filter (fun m => negb (f m)) l ≡ₚ l.
Proof.
  induction l as [|m l IH]; cbn; [reflexivity|].
  destruct (f m); cbn.
  - rewrite IH. reflexivity.
  - rewrite <- Permutation_middle, IH. reflexivity.
Qed.

Lemma list_remove_perm x l : In x l -> x :: list_remove x l ≡ₚ l.
Proof.
  induction l as [|y l IH]; cbn; [contradiction|].
  destruct (bool_decide (x = y)) eqn:E.
  - apply bool_decide_eq_true in E. subst. reflexivity.
  - apply bool_decide_eq_false in E. intros [Hy|Hx]; [congruence|].
    rewrite perm_swap, (IH Hx). reflexivity.
Qed.

Lemma ordering_perm pos entry l :
  tt_move_first entry (sort_captures_first pos l) ≡ₚ l.
Proof.
  unfold tt_move_first.
  destruct entry as [e|]; [|apply filter_split_perm].
  destruct (best_move e) as [bm|]; [|apply filter_split_perm].
  destruct (bool_decide _) eqn:E; [|apply filter_split_perm].
  apply bool_decide_eq_true, list_elem_of_In in E.
  rewrite (list_remove_perm bm _ E). apply filter_split_perm.
Qed.

Lemma ordering_head pos e bm l :
  best_move e = Some bm -> In bm l ->
  hd_error (tt_move_first (Some e) (sort_captures_first pos l)) = Some bm.
Proof.
  intros Hbm Hin. unfold tt_move_first. rewrite Hbm.
  rewrite bool_decide_eq_true_2; [reflexivity|].
  apply list_elem_of_In.
  apply (Permutation_in bm (Permutation_sym (filter_split_perm (_is_capture pos) l))).
  exact Hin.
Qed.

Lemma captures_first pos l :
  exists caps quiet,
    sort_captures_first pos l = caps ++ quiet /\
    Forall (fun m => _is_capture pos m = true) caps /\
    Forall (fun m => _is_capture pos m = false) quiet /\
    sublist caps l /\ sublist quiet l.
Proof.
  exists (List.filter (_is_capture pos) l),
         (List.filter (fun m => negb (_is_capture pos m)) l).
  split; [reflexivity|].
  assert (Hsub : forall f : Move -> bool, sublist (List.filter f l) l).
  { intros f. induction l as [|m l IH]; cbn; [constructor|].
    destruct (f m); [apply sublist_skip|apply sublist_cons]; exact IH. }
  split; [|split; [|split; apply Hsub]].
  - apply Forall_forall. intros m Hm.
    apply list_elem_of_In, filter_In in Hm. apply Hm.
  - apply Forall_forall. intros m Hm.
    apply list_elem_of_In, filter_In in Hm. apply negb_true_iff, Hm.
Qed.

(** *** Terminal detection and the search *)

Lemma winner_none_moves p : winner p = None -> generate_moves p <> [].
Proof.
  unfold winner.
  destruct (existsb _ _); [discriminate|].
  destruct (existsb _ _); [discriminate|].
  destruct (is_empty _); [discriminate|].
  destruct (is_empty _); [discriminate|].
  destruct (generate_moves p); [discriminate|]. intros _. discriminate.
Qed.

(** *** The table stays within its capacity *)

Lemma tt_store_capacity key d v alpha0 beta0 bm w :
  within_capacity w -> within_capacity (_tt_store key d v alpha0 beta0 bm w).
Proof.
  unfold within_capacity, _tt_store. cbv zeta. intros H.
  destruct (match TT w !! key with Some o => d >=? depth o | None => true end);
    [|exact H].
  unfold _tt_maybe_evict.
  match goal with
  | |- context [if ?c >? TT_MAX_SIZE then _ else _] =>
      destruct (Z.gtb_spec c TT_MAX_SIZE) as [Hgt|Hle]
  end.
  - unfold set_TT. cbn [TT]. rewrite map_size_empty. unfold TT_MAX_SIZE. lia.
  - exact Hle.
Qed.

Lemma keeps_ret {A} (a : A) : keeps_capacity (mret (M:=M) a).
Proof. intros w a' w' H [= _ <-]. exact H. Qed.

Lemma keeps_bind {A B} (m : M A) (k : A -> M B) :
  keeps_capacity m -> (forall a, keeps_capacity (k a)) ->
  keeps_capacity (mbind (M:=M) k m).
Proof.
  intros Hm Hk w b w' H. unfold mbind, M_bind.
  destruct (m w) as [[a w1]|e] eqn:E; [|discriminate].
  intros E2. exact (Hk a w1 b w' (Hm w a w1 H E) E2).
Qed.

Lemma keeps_lift {A} (r : res A) : keeps_capacity (lift r).
Proof. intros w a w' H. unfold lift. destruct r; [|discriminate]. intros [= _ <-]. exact H. Qed.

Lemma keeps_get {A} (f : World -> A) : keeps_capacity (get f).
Proof. intros w a w' H [= _ <-]. exact H. Qed.

Lemma keeps_modify (f : World -> World) :
  (forall w, within_capacity w -> within_capacity (f w)) ->
  keeps_capacity (modify f).
Proof. intros Hf w a w' H [= _ <-]. exact (Hf w H). Qed.

Lemma keeps_probe key d alpha beta : keeps_capacity (run (_tt_probe key d alpha beta)).
Proof.
  intros w a w' H. unfold run, _tt_probe.
  destruct (TT w !! key) as [e|]; [|intros [= _ <-]; exact H].
  repeat match goal with
         | |- context [if ?c then _ else _] => destruct c
         end; intros [= _ <-]; exact H.
Qed.

Section Capacity.
Variable perf_counter : nat -> Q.

Lemma keeps_past deadline : keeps_capacity (past perf_counter deadline).
Proof.
  unfold past. apply keeps_bind; [|intros; apply keeps_ret].
  intros w a w' H [= _ <-]. exact H.
Qed.

Lemma keeps_max_loop child pos deadline moves :
  (forall p a b, keeps_capacity (child p a b)) ->
  forall v best alpha beta,
    keeps_capacity (max_loop perf_counter child pos deadline moves v best alpha beta).
Proof.
  intros Hc. induction moves as [|mv rest IH]; intros v best alpha beta;
    cbn [max_loop]; [apply keeps_ret|].
  apply keeps_bind; [apply keeps_past|]. intros [|]; [apply keeps_ret|].
  apply keeps_bind; [apply keeps_lift|]. intros p.
  apply keeps_bind; [apply Hc|]. intros c.
  destruct (c >? v); cbn; (destruct (beta <=? _); [apply keeps_ret|apply IH]).
Qed.

Lemma keeps_min_loop child pos deadline moves :
  (forall p a b, keeps_capacity (child p a b)) ->
  forall v best alpha beta,
    keeps_capacity (min_loop perf_counter child pos deadline moves v best alpha beta).
Proof.
  intros Hc. induction moves as [|mv rest IH]; intros v best alpha beta;
    cbn [min_loop]; [apply keeps_ret|].
  apply keeps_bind; [apply keeps_past|]. intros [|]; [apply keeps_ret|].
  apply keeps_bind; [apply keeps_lift|]. intros p.
  apply keeps_bind; [apply Hc|]. intros c.
  destruct (c <? v); cbn; (destruct (_ <=? alpha); [apply keeps_ret|apply IH]).
Qed.

Lemma keeps_set_nodes n : keeps_capacity (modify (fun w => set_NODES (n w) w)).
Proof. apply keeps_modify. intros w H. exact H. Qed.

Lemma keeps_alphabeta_at d :
  forall pos alpha beta deadline,
    keeps_capacity (alphabeta_at perf_counter d pos alpha beta deadline).
Proof.
  induction d as [|d IH]; intros pos alpha beta deadline; cbn [alphabeta_at];
    (apply keeps_bind; [apply keeps_set_nodes|]); intros _;
    (apply keeps_bind; [apply keeps_past|]); intros [|];
    try apply keeps_ret; (destruct (winner pos); [apply keeps_ret|]).
  { apply keeps_ret. }
  apply keeps_bind; [apply keeps_lift|]. intros key.
  apply keeps_bind; [apply keeps_probe|].
  intros [[[hit a'] b'] [x|]]; [apply keeps_ret|].
  destruct (generate_moves pos) as [|m0 ms]; [apply keeps_ret|].
  apply keeps_bind; [apply keeps_get|]. intros entry.
  destruct (turn pos).
  - apply keeps_bind; [apply keeps_max_loop; intros; apply IH|].
    intros [v bm]. apply keeps_bind; [|intros; apply keeps_ret].
    apply keeps_modify. intros w. apply tt_store_capacity.
  - apply keeps_bind; [apply keeps_min_loop; intros; apply IH|].
    intros [v bm]. apply keeps_bind; [|intros; apply keeps_ret].
    apply keeps_modify. intros w. apply tt_store_capacity.
Qed.

Lemma keeps_root_loop pos depth' deadline maximizing moves :
  forall best_val best_mv alpha beta,
    keeps_capacity (root_loop perf_counter pos depth' deadline maximizing moves
                      best_val best_mv alpha beta).
Proof.
  induction moves as [|mv rest IH]; intros best_val best_mv alpha beta;
    cbn [root_loop]; [apply keeps_ret|].
  apply keeps_bind; [apply keeps_past|]. intros [|]; [apply keeps_ret|].
  apply keeps_bind; [apply keeps_lift|]. intros p.
  apply keeps_bind; [apply keeps_alphabeta_at|]. intros val.
  destruct maximizing;
    [destruct (val >? best_val)|destruct (val <? best_val)]; cbn;
    (destruct (_ <=? _); [apply keeps_ret|apply IH]).
Qed.

Lemma keeps_search_depth pos depth' deadline :
  keeps_capacity (_search_depth perf_counter pos depth' deadline).
Proof.
  unfold _search_depth.
  destruct (generate_moves pos) as [|m0 ms]; [apply keeps_ret|].
  apply keeps_bind; [apply keeps_lift|]. intros key.
  apply keeps_bind; [apply keeps_get|]. intros entry.
  apply keeps_bind; [apply keeps_root_loop|]. intros [bv bm].
  apply keeps_bind; [|intros; apply keeps_ret].
  apply keeps_modify. intros w. apply tt_store_capacity.
Qed.

Lemma keeps_deepen n pos :
  forall depth' deadline best,
    keeps_capacity (deepen perf_counter n pos depth' deadline best).
Proof.
  induction n as [|n IH]; intros depth' deadline best; cbn [deepen];
    [apply keeps_ret|].
  apply keeps_bind; [apply keeps_past|]. intros [|]; [apply keeps_ret|].
  apply keeps_bind; [apply keeps_search_depth|]. intros [mv v]. apply IH.
Qed.

Lemma keeps_choose_move pos time_left_sec max_depth :
  keeps_capacity (choose_move_iterdeep perf_counter pos time_left_sec max_depth).
Proof.
  unfold choose_move_iterdeep.
  apply keeps_bind; [intros w a w' H [= _ <-]; exact H|]. intros start.
  apply keeps_bind; [apply keeps_modify; intros w H; exact H|]. intros _.
  apply keeps_bind; [apply keeps_deepen|]. intros [m|]; [apply keeps_ret|].
  destruct (generate_moves pos); [apply keeps_lift|apply keeps_ret].
Qed.

End Capacity.

(** *** The time budget *)

(** The constants and some budgets, as CPython computes them. *)
Example budget_values :
  Doubles.literal 5 2 = S754_finite false 7205759403792794 (-57) /\
  Doubles.literal 2 2 = S754_finite false 5764607523034235 (-58) /\
  Doubles.literal 35 2 = S754_finite false 6305039478318694 (-54) /\
  Doubles.literal 15 2 = S754_finite false 5404319552844595 (-55) /\
  Doubles.literal 350 1 = S754_finite false 4925812092436480 (-47) /\
  Doubles.compute_time_budget (Some (Doubles.of_int 10))
  = S754_finite false 5121236147695592 (-54) /\
  Doubles.compute_time_budget (Some (Doubles.of_int 1))
  = S754_finite false 7823395924117890 (-58).
Proof. repeat split; vm_compute; reflexivity. Qed.

Lemma ltb_leb x y : SFltb x y = true -> SFleb x y = true.
Proof. unfold SFltb, SFleb. destruct (SFcompare x y) as [[]|]; auto. Qed.

Lemma clamp lo hi x :
  SFleb lo hi = true -> SFleb lo lo = true -> SFleb hi hi = true ->
  Doubles.le lo (Doubles.max lo (Doubles.min hi x)) = true /\
  Doubles.le (Doubles.max lo (Doubles.min hi x)) hi = true.
Proof.
  intros Hlh Hl Hh. unfold Doubles.le, Doubles.max, Doubles.min.
  destruct (SFltb x hi) eqn:Hhi.
  - destruct (SFltb lo x) eqn:Hlo; split;
      first [assumption | apply ltb_leb; assumption].
  - destruct (SFltb lo hi) eqn:Hc; split; assumption.
Qed.

Lemma budget_range tl :
  Doubles.le (Doubles.literal 2 2) (Doubles.compute_time_budget tl) = true /\
  Doubles.le (Doubles.compute_time_budget tl) (Doubles.literal 35 2) = true.
Proof.
  destruct tl as [t|]; [|split; vm_compute; reflexivity].
  unfold Doubles.compute_time_budget. cbv zeta.
  apply clamp; vm_compute; reflexivity.
Qed.

(** A rounded result with the sign bit set is never above zero. *)
Lemma binary_round_aux_neg mx ex lx :
  SFltb (S754_zero false)
    (binary_round_aux Doubles.prec Doubles.emax true mx ex lx) = false.
Proof.
  unfold binary_round_aux.
  destruct (shr_fexp _ _ mx ex lx) as [mrs' e'].
  destruct (shr_fexp _ _ _ e' loc_Exact) as [mrs'' e''].
  destruct (shr_m mrs'') as [|m|m]; [reflexivity| |reflexivity].
  destruct (Z.leb e'' _); reflexivity.
Qed.

Lemma sub_reserve_neg m e :
  SFltb (S754_zero false)
    (Doubles.sub (S754_finite true m e) (Doubles.literal 5 2)) = false.
Proof.
  change (Doubles.literal 5 2)
    with (S754_finite false 7205759403792794 (-57)).
  unfold Doubles.sub, SFsub, cond_Zopp.
  match goal with
  | |- context [binary_normalize _ _ (Z.sub (Z.opp (Zpos ?a)) (Zpos ?b)) ?ez _] =>
    change (Z.sub (Z.opp (Zpos a)) (Zpos b)) with (Zneg (a + b))
  end.
  unfold binary_normalize, binary_round.
  destruct (shl_align _ _ _) as [mz ez]. apply binary_round_aux_neg.
Qed.

Lemma budget_floor t :
  not_positive t = true ->
  Doubles.compute_time_budget (Some t) = Doubles.literal 2 2.
Proof.
  destruct t as [s|s| |s m e]; cbn [not_positive]; intros Hs.
  - destruct s; vm_compute; reflexivity.
  - subst s. vm_compute. reflexivity.
  - vm_compute. reflexivity.
  - subst s. unfold Doubles.compute_time_budget. cbv zeta.
    unfold Doubles.max at 2.
    change (Doubles.literal 0 1) with (S754_zero false).
    rewrite sub_reserve_neg. vm_compute. reflexivity.
Qed.

(** *** The entries *)

(** On the board the static evaluation stays strictly between -10^4 and
    10^4, far from the scores 10^12 and -10^12 of a decided game. *)
Theorem evaluate_range p : on_board p -> - 10 ^ 4 < evaluate p < 10 ^ 4.
Proof. exact (evaluate_bounded p). Qed.

Lemma evaluate_range_witness : - 10 ^ 4 < evaluate ep_position < 10 ^ 4.
Proof. apply (evaluate_range ep_position). compute_done. Defined.

(** After a store that goes ahead into a table below its capacity, a probe
    of the same key misses when it asks for more depth than was stored, and
    otherwise reuses the stored value as its flag says: exact returns it,
    an upper bound lowers beta, a lower bound raises alpha, and a window
    closed by that returns the value. *)
Theorem tt_store_then_probe w key d v alpha0 beta0 bm d' alpha beta :
  Z.of_nat (size (TT w)) < TT_MAX_SIZE ->
  (forall old, TT w !! key = Some old -> depth old <= d) ->
  let r := fst (_tt_probe key d' alpha beta (_tt_store key d v alpha0 beta0 bm w)) in
  (d < d' -> r = (false, alpha, beta, None)) /\
  (d' <= d -> alpha0 < v < beta0 -> r = (true, alpha, beta, Some v)) /\
  (d' <= d -> v <= alpha0 ->
   r = (true, alpha, Z.min beta v,
        if alpha >=? Z.min beta v then Some v else None)) /\
  (d' <= d -> alpha0 < v -> beta0 <= v ->
   r = (true, Z.max alpha v, beta,
        if Z.max alpha v >=? beta then Some v else None)).
Proof. exact (tt_store_probe w key d v alpha0 beta0 bm d' alpha beta). Qed.

Lemma tt_store_then_probe_witness :
  fst (_tt_probe 7 2 (-50) 50 (_tt_store 7 3 12 (-100) 100 None empty_world))
  = (true, -50, 50, Some 12).
Proof.
  apply (tt_store_then_probe empty_world 7 3 12 (-100) 100 None 2 (-50) 50).
  - reflexivity.
  - intros old H. vm_compute in H. discriminate.
  - lia.
  - lia.
Defined.

(** A table within its capacity is within its capacity after a store, and
    after a whole call of [choose_move_iterdeep], whatever the position, the
    clock and the depth limit. *)
Theorem search_keeps_capacity perf_counter pos time_left_sec max_depth w mv w' :
  within_capacity w ->
  choose_move_iterdeep perf_counter pos time_left_sec max_depth w = Ok (mv, w') ->
  within_capacity w' /\
  forall key d v alpha0 beta0 bm,
    within_capacity (_tt_store key d v alpha0 beta0 bm w').
Proof.
  intros Hw Hrun.
  assert (Hw' : within_capacity w')
    by exact (keeps_choose_move perf_counter pos time_left_sec max_depth
                w mv w' Hw Hrun).
  split; [exact Hw'|]. intros. apply tt_store_capacity, Hw'.
Qed.

Lemma search_keeps_capacity_witness :
  exists mv w',
    choose_move_iterdeep fine_clock initial None 2 empty_world = Ok (mv, w') /\
    size (TT w') = 17%nat /\ TT_STORES w' = 18 /\ NODES w' = 70 /\
    within_capacity w'.
Proof.
  destruct (choose_move_iterdeep fine_clock initial None 2 empty_world)
    as [[mv w']|e] eqn:Hrun; [|vm_compute in Hrun; discriminate].
  assert (Hobs : match choose_move_iterdeep fine_clock initial None 2
                       empty_world with
                 | Ok (_, w') =>
                   (Z.of_nat (size (TT w')) =? 17) && (TT_STORES w' =? 18)
                   && (NODES w' =? 70)
                 | Raise _ => false
                 end = true) by (vm_compute; reflexivity).
  rewrite Hrun in Hobs.
  apply andb_true_iff in Hobs as [Hobs Hn].
  apply andb_true_iff in Hobs as [Hsz Hst].
  exists mv, w'. split; [reflexivity|].
  split; [lia|]. split; [lia|]. split; [lia|].
  apply (search_keeps_capacity fine_clock initial None 2 empty_world mv w').
  - unfold within_capacity. vm_compute. discriminate.
  - exact Hrun.
Defined.

(** In double precision, as CPython computes it, the budget of a move is
    between 0.02 and 0.35 seconds for every time left, infinities and
    not-a-number included; it is exactly 0.02 when the time left is zero,
    negative or not a number, exactly 0.35 when it is infinite, and 0.15
    when no time is given. *)
Theorem compute_time_budget_range :
  (forall tl,
     Doubles.le (Doubles.literal 2 2) (Doubles.compute_time_budget tl) = true /\
     Doubles.le (Doubles.compute_time_budget tl) (Doubles.literal 35 2) = true) /\
  (forall t, not_positive t = true ->
     Doubles.compute_time_budget (Some t) = Doubles.literal 2 2) /\
  Doubles.compute_time_budget (Some (S754_infinity false))
  = Doubles.literal 35 2 /\
  Doubles.compute_time_budget None = Doubles.literal 15 2.
Proof.
  split; [exact budget_range|]. split; [exact budget_floor|].
  split; vm_compute; reflexivity.
Qed.

(** The ordering of the candidate moves only permutes them; a remembered
    best move that is among them comes first; without one, the moves that
    [_is_capture] accepts come first and both groups keep their order. *)
Theorem move_ordering pos entry l :
  tt_move_first entry (sort_captures_first pos l) ≡ₚ l /\
  (forall e bm, entry = Some e -> best_move e = Some bm -> In bm l ->
     hd_error (tt_move_first entry (sort_captures_first pos l)) = Some bm) /\
  exists caps quiet,
    tt_move_first None (sort_captures_first pos l) = caps ++ quiet /\
    Forall (fun m => _is_capture pos m = true) caps /\
    Forall (fun m => _is_capture pos m = false) quiet /\
    sublist caps l /\ sublist quiet l.
Proof.
  split; [apply ordering_perm|]. split.
  - intros e bm -> Hbm Hin. exact (ordering_head pos e bm l Hbm Hin).
  - exact (captures_first pos l).
Qed.

(** A caller that finds no winner can ask for a move: on the board,
    [winner] returning [None] makes [choose_move_iterdeep] return a
    generated move; and without a generated move [winner] names a winner. *)
Theorem search_after_winner_check perf_counter pos time_left_sec max_depth w :
  (generate_moves pos = [] -> winner pos <> None) /\
  (on_board pos -> winner pos = None ->
   exists mv w',
     choose_move_iterdeep perf_counter pos time_left_sec max_depth w
     = Ok (mv, w') /\ In mv (generate_moves pos)).
Proof.
  split.
  - intros Hgen Hw. exact (winner_none_moves pos Hw Hgen).
  - intros Hp Hw.
    exact (choose_move_iterdeep_returns perf_counter pos time_left_sec
             max_depth Hp (winner_none_moves pos Hw) w).
Qed.

Lemma search_after_winner_check_witness :
  winner blocked_position <> None /\
  exists mv w',
    choose_move_iterdeep coarse_clock initial (Some 1%Q) 2 empty_world
    = Ok (mv, w') /\ In mv (generate_moves initial).
Proof.
  split.
  - apply (proj1 (search_after_winner_check coarse_clock blocked_position
                    None 1 empty_world)). vm_compute. reflexivity.
  - apply (proj2 (search_after_winner_check coarse_clock initial (Some 1%Q) 2
                    empty_world)); [compute_done|vm_compute; reflexivity].
Defined.

End AgentMoreFacts.
